(** * Connect-Four with Monte Carlo Tree Search: board rules and search engine

    A shallow embedding of [J_Hendricks_MCT_AI_Visualizer.py]: the board
    rules ([winning_move], [get_next_open_row], [get_valid_locations], ...)
    as pure functions of the contents of a numpy array, and the search
    engine ([Node], [simulate_random_playout], [backpropagate],
    [MCTS_Search]) as programs of a state-and-exception monad over a store
    of boards, a store of tree nodes and a source of random numbers. *)

From Stdlib Require Import QArith.
From stdpp Require Import base numbers list sorting.

Local Open Scope nat_scope.

(** * Part I: the program *)

(** ** Game constants *)

Definition ROW_COUNT : nat := 6.
Definition COLUMN_COUNT : nat := 7.

Definition EMPTY : Z := 0.
Definition PLAYER_PIECE : Z := 1.
Definition AI_PIECE : Z := 2.

(** ** Boards

    A board is the contents of a two-dimensional numpy array of integers,
    one inner list per row, row 0 at the bottom.  [create_board] makes
    them 6 by 7, and every index expression of the source stays inside
    that shape; [cell] is therefore a total read, used under [wf_board]. *)

Abbreviation Board := (list (list Z)).

Definition wf_board (b : Board) : Prop :=
  length b = ROW_COUNT ∧ Forall (λ row, length row = COLUMN_COUNT) b.

Definition create_board : Board :=
  replicate ROW_COUNT (replicate COLUMN_COUNT 0%Z).

Definition cell (b : Board) (r c : nat) : Z := nth c (nth r b []) 0%Z.

(** [board[row][col] = piece] on the contents. *)
Definition set_cell (b : Board) (r c : nat) (piece : Z) : Board :=
  alter (λ row, <[c := piece]> row) r b.

Definition is_valid_location (b : Board) (col : nat) : bool :=
  (cell b (ROW_COUNT - 1) col =? 0)%Z.

(** The loop of [get_next_open_row] returns at the first empty row; when
    it runs out the Python function returns [None]. *)
Definition get_next_open_row (b : Board) (col : nat) : option nat :=
  find (λ r, (cell b r col =? 0)%Z) (seq 0 ROW_COUNT).

Definition winning_move (b : Board) (piece : Z) : bool :=
  (* horizontal *)
  existsb (λ c, existsb (λ r,
     (cell b r c =? piece)%Z && (cell b r (c+1) =? piece)%Z &&
     (cell b r (c+2) =? piece)%Z && (cell b r (c+3) =? piece)%Z)
     (seq 0 ROW_COUNT)) (seq 0 (COLUMN_COUNT - 3))
  (* vertical *)
  || existsb (λ c, existsb (λ r,
     (cell b r c =? piece)%Z && (cell b (r+1) c =? piece)%Z &&
     (cell b (r+2) c =? piece)%Z && (cell b (r+3) c =? piece)%Z)
     (seq 0 (ROW_COUNT - 3))) (seq 0 COLUMN_COUNT)
  (* positively sloped diagonals *)
  || existsb (λ c, existsb (λ r,
     (cell b r c =? piece)%Z && (cell b (r+1) (c+1) =? piece)%Z &&
     (cell b (r+2) (c+2) =? piece)%Z && (cell b (r+3) (c+3) =? piece)%Z)
     (seq 0 (ROW_COUNT - 3))) (seq 0 (COLUMN_COUNT - 3))
  (* negatively sloped diagonals *)
  || existsb (λ c, existsb (λ r,
     (cell b r c =? piece)%Z && (cell b (r-1) (c+1) =? piece)%Z &&
     (cell b (r-2) (c+2) =? piece)%Z && (cell b (r-3) (c+3) =? piece)%Z)
     (seq 3 (ROW_COUNT - 3))) (seq 0 (COLUMN_COUNT - 3)).

Definition get_valid_locations (b : Board) : list nat :=
  List.filter (is_valid_location b) (seq 0 COLUMN_COUNT).

Definition is_terminal_node (b : Board) : bool :=
  winning_move b PLAYER_PIECE || winning_move b AI_PIECE
  || (length (get_valid_locations b) =? 0).

(** [np.count_nonzero(board)] *)
Definition count_pieces (b : Board) : nat :=
  length (List.filter (λ x, negb (x =? 0)%Z) (concat b)).

(** ** The store: numpy arrays, tree nodes, random numbers

    Boards and nodes are Python objects with identity: both live in a
    store and are named by their address (the index in the store).  A
    [Node] holds the address of its board and of its parent; the
    [children] dictionary maps a column to the address of the child, in
    insertion order. *)

Record Node := mkNode {
  board : nat;
  parent : option nat;
  children : list (nat * nat);
  untried_moves : list nat;
  visits : nat;
  wins : nat;
  move : option nat;
  player : option Z;
}.

Definition with_untried_moves (l : list nat) (n : Node) : Node :=
  mkNode (board n) (parent n) (children n) l
         (visits n) (wins n) (move n) (player n).
Definition with_children (d : list (nat * nat)) (n : Node) : Node :=
  mkNode (board n) (parent n) d (untried_moves n)
         (visits n) (wins n) (move n) (player n).

Record state := mkState {
  boards : list Board;
  nodes : list Node;
  tape : nat → nat;      (* the numbers the random source will deliver *)
  drawn : nat;           (* how many of them have been consumed *)
}.

Definition set_boards (f : list Board → list Board) (s : state) : state :=
  mkState (f (boards s)) (nodes s) (tape s) (drawn s).
Definition set_nodes (f : list Node → list Node) (s : state) : state :=
  mkState (boards s) (f (nodes s)) (tape s) (drawn s).

(** Python exceptions the engine can raise.  [BadReference] stands for
    the use of an address that names no object; no Python program does
    that, and the engine is shown never to.  The [while] loops of the
    source are functions with fuel: [OutOfFuel] is the outcome of a run
    that would need more steps than it was given. *)
Inductive exn := IndexError | ValueError | BadReference.

Inductive outcome (A : Type) :=
  | Ok (a : A) (s : state)
  | Raise (e : exn)
  | OutOfFuel.
Arguments Ok {A} a s.
Arguments Raise {A} e.
Arguments OutOfFuel {A}.

Definition M (A : Type) : Type := state → outcome A.

Definition ret {A} (a : A) : M A := λ s, Ok a s.
Definition raise {A} (e : exn) : M A := λ _, Raise e.
Definition out_of_fuel {A} : M A := λ _, OutOfFuel.
Definition bind {A B} (m : M A) (k : A → M B) : M B :=
  λ s, match m s with
       | Ok a s' => k a s'
       | Raise e => Raise e
       | OutOfFuel => OutOfFuel
       end.

Notation "x <- m ;; k" := (bind m (λ x, k))
  (at level 100, m at next level, right associativity).
Notation "m ;; k" := (bind m (λ _, k))
  (at level 100, right associativity).

Fixpoint mapM {A B} (f : A → M B) (l : list A) : M (list B) :=
  match l with
  | [] => ret []
  | x :: l' => y <- f x ;; ys <- mapM f l' ;; ret (y :: ys)
  end.

(** [for _ in range(n): body] *)
Fixpoint for_range (n : nat) (body : M unit) : M unit :=
  match n with
  | 0 => ret tt
  | S n' => body ;; for_range n' body
  end.

Definition get_board (ref : nat) : M Board :=
  λ s, match boards s !! ref with
       | Some b => Ok b s
       | None => Raise BadReference
       end.

Definition put_board (ref : nat) (b : Board) : M unit :=
  λ s, if decide (ref < length (boards s))
       then Ok tt (set_boards (λ bs, <[ref := b]> bs) s)
       else Raise BadReference.

(** [board.copy()]: a new array with the same contents. *)
Definition copy_board (ref : nat) : M nat :=
  λ s, match boards s !! ref with
       | Some b => Ok (length (boards s)) (set_boards (λ bs, bs ++ [b]) s)
       | None => Raise BadReference
       end.

Definition get_node (ref : nat) : M Node :=
  λ s, match nodes s !! ref with
       | Some n => Ok n s
       | None => Raise BadReference
       end.

Definition update_node (ref : nat) (f : Node → Node) : M unit :=
  λ s, if decide (ref < length (nodes s))
       then Ok tt (set_nodes (alter f ref) s)
       else Raise BadReference.

Definition alloc_node (n : Node) : M nat :=
  λ s, Ok (length (nodes s)) (set_nodes (λ ns, ns ++ [n]) s).

(** [random.choice(l)]: the next number of the tape, reduced to an index
    of [l]; [IndexError] on the empty list. *)
Definition random_choice {A} (l : list A) : M A :=
  λ s, match l !! (tape s (drawn s) mod length l) with
       | Some x => Ok x (mkState (boards s) (nodes s) (tape s) (S (drawn s)))
       | None => Raise IndexError
       end.

(** [max(l, key=key)]: the first element whose key no later one exceeds;
    [ValueError] on the empty sequence. *)
Definition py_max {A K} (gt : K → K → bool) (key : A → K) (l : list A) : M A :=
  match l with
  | [] => raise ValueError
  | x :: l' => ret (foldl (λ best y, if gt (key y) (key best) then y else best) x l')
  end.

(** [l.remove(x)]: drops the first occurrence, [ValueError] if none. *)
Fixpoint list_remove (x : nat) (l : list nat) : option (list nat) :=
  match l with
  | [] => None
  | y :: l' => if decide (x = y) then Some l'
               else cons y <$> list_remove x l'
  end.

(** [d[k] = v] on an insertion-ordered dictionary. *)
Fixpoint dict_set {V} (k : nat) (v : V) (d : list (nat * V)) : list (nat * V) :=
  match d with
  | [] => [(k, v)]
  | (k', v') :: d' => if decide (k = k') then (k, v) :: d'
                      else (k', v') :: dict_set k v d'
  end.

Fixpoint dict_get {V} (k : nat) (d : list (nat * V)) : option V :=
  match d with
  | [] => None
  | (k', v') :: d' => if decide (k = k') then Some v' else dict_get k d'
  end.

(** ** Board mutation

    [drop_piece(board, row, col, piece)] executes
    [board[row][col] = piece].  With [row = None] (what
    [get_next_open_row] returns for a full column) numpy reads
    [board[None]] as a view with a new leading axis of size one, so the
    assignment fills the whole array when [col] is 0 and raises
    [IndexError] otherwise. *)
Definition drop_piece (ref : nat) (row : option nat) (col : nat) (piece : Z) : M unit :=
  b <- get_board ref ;;
  match row with
  | Some r =>
      match b !! r with
      | Some cells =>
          if decide (col < length cells)
          then put_board ref (set_cell b r col piece)
          else raise IndexError
      | None => raise IndexError
      end
  | None =>
      if decide (col = 0)
      then put_board ref (map (map (λ _, piece)) b)
      else raise IndexError
  end.

(** ** Statistics returned for display

    [win_rate] and [visits_ratio] are quotients of two small non-negative
    integers; they are kept as exact rationals.  The floating-point
    quotient Python computes is the rounding of that rational; rounding
    is monotone and keeps 0 and 1, so bounds by 0 and 1 and equality with
    1 carry over. *)

Record stat := mkStat {
  stat_visits : nat;
  stat_win_rate : Q;
  stat_visits_ratio : Q;
}.

(** [a / b] on non-negative integers with [b > 0]. *)
Definition true_div (a b : nat) : Q := Z.of_nat a # Pos.of_nat b.

(** The floating-point side of UCT.  The score
    [w/n + c * sqrt(ln(N) / n)] is a float computed with [math.log] and
    [math.sqrt]; it only decides which child the selection descends
    into.  The engine is parametric in the type of scores, their
    comparison [>], [float('inf')] and the formula (with
    [c = UCT_C = 1.4]) as a function of [w], [n] and [N]. *)
Class Scoring := {
  float : Type;
  float_gt : float → float → bool;
  float_inf : float;
  uct_value : nat → nat → nat → float;
}.

Section Engine.
Context `{Scoring}.

(** *** class Node *)

(** [Node(board, parent, move, player)] *)
Definition Node_init (board_ref : nat) (parent : option nat)
    (move : option nat) (player : option Z) : M nat :=
  b <- get_board board_ref ;;
  alloc_node (mkNode board_ref parent [] (get_valid_locations b) 0 0 move player).

Definition is_fully_expanded (n : Node) : bool :=
  length (untried_moves n) =? 0.

(** One entry of [choices]: [math.log(self.visits)] raises [ValueError]
    when [self.visits] is 0. *)
Definition uct_choice (self : nat) (item : nat * nat) : M (float * nat) :=
  child <- get_node item.2 ;;
  if visits child =? 0 then ret (float_inf, item.2)
  else
    n <- get_node self ;;
    if visits n =? 0 then raise ValueError
    else ret (uct_value (wins child) (visits child) (visits n), item.2).

Definition best_uct_child (self : nat) : M nat :=
  n <- get_node self ;;
  choices <- mapM (uct_choice self) (children n) ;;
  best <- py_max float_gt fst choices ;;
  ret best.2.

Definition expand (self : nat) : M nat :=
  n <- get_node self ;;
  move <- random_choice (untried_moves n) ;;
  b <- get_board (board n) ;;
  let row := get_next_open_row b move in
  b_copy <- copy_board (board n) ;;
  bc <- get_board b_copy ;;
  let next_player_piece :=
    if Nat.even (count_pieces bc) then AI_PIECE else PLAYER_PIECE in
  drop_piece b_copy row move next_player_piece ;;
  child <- Node_init b_copy (Some self) (Some move) (Some next_player_piece) ;;
  n <- get_node self ;;
  match list_remove move (untried_moves n) with
  | None => raise ValueError
  | Some rest =>
      update_node self (with_untried_moves rest) ;;
      update_node self (λ n, with_children (dict_set move child (children n)) n) ;;
      ret child
  end.

Definition visit_key (item : nat * nat) : M (nat * nat) :=
  child <- get_node item.2 ;; ret (visits child, item.2).

Definition best_child_by_visits (self : nat) : M nat :=
  n <- get_node self ;;
  keyed <- mapM visit_key (children n) ;;
  best <- py_max (λ a b, b <? a) fst keyed ;;
  ret best.2.

(** *** Simulation *)

Fixpoint playout_loop (fuel : nat) (b : nat) (next_player : Z) : M (option Z) :=
  match fuel with
  | 0 => out_of_fuel
  | S fuel' =>
      bv <- get_board b ;;
      if winning_move bv PLAYER_PIECE then ret (Some PLAYER_PIECE)
      else if winning_move bv AI_PIECE then ret (Some AI_PIECE)
      else
        let valid_locations := get_valid_locations bv in
        if length valid_locations =? 0 then ret None
        else
          move <- random_choice valid_locations ;;
          let row := get_next_open_row bv move in
          drop_piece b row move next_player ;;
          playout_loop fuel' b
            (if (next_player =? AI_PIECE)%Z then PLAYER_PIECE else AI_PIECE)
  end.

Definition simulate_random_playout (fuel : nat) (board_ref : nat)
    (starting_player_piece : option Z) : M (option Z) :=
  b <- copy_board board_ref ;;
  bv <- get_board b ;;
  let next_player :=
    match starting_player_piece with
    | None => if Nat.even (count_pieces bv) then AI_PIECE else PLAYER_PIECE
    | Some p => p
    end in
  playout_loop fuel b next_player.

(** *** Backpropagation *)

Definition credit (winner : option Z) (n : Node) : Node :=
  mkNode (board n) (parent n) (children n) (untried_moves n)
         (S (visits n))
         (match winner, player n with
          | Some w, Some p => if (p =? w)%Z then S (wins n) else wins n
          | _, _ => wins n
          end)
         (move n) (player n).

Fixpoint backpropagate (fuel : nat) (node : option nat) (winner : option Z) : M unit :=
  match node with
  | None => ret tt
  | Some i =>
      match fuel with
      | 0 => out_of_fuel
      | S fuel' =>
          update_node i (credit winner) ;;
          n <- get_node i ;;
          backpropagate fuel' (parent n) winner
      end
  end.

(** *** The search *)

Fixpoint select (fuel : nat) (node : nat) : M nat :=
  match fuel with
  | 0 => out_of_fuel
  | S fuel' =>
      n <- get_node node ;;
      b <- get_board (board n) ;;
      if negb (is_terminal_node b) && is_fully_expanded n
      then child <- best_uct_child node ;; select fuel' child
      else ret node
  end.

Definition iteration (fuel : nat) (root : nat) : M unit :=
  node <- select fuel root ;;
  n <- get_node node ;;
  b <- get_board (board n) ;;
  node <- (if negb (is_terminal_node b)
           then if negb (is_fully_expanded n) then expand node else ret node
           else ret node) ;;
  n <- get_node node ;;
  b <- get_board (board n) ;;
  let next_player := if Nat.even (count_pieces b) then AI_PIECE else PLAYER_PIECE in
  winner <- simulate_random_playout fuel (board n) (Some next_player) ;;
  backpropagate fuel (Some node) winner.

(** Lines 213 to 233 of the source: the root and the iterations.  The
    address of the root is returned so that the tree can be inspected. *)
Definition MCTS_tree (fuel : nat) (root_board : nat) (iterations : nat) : M nat :=
  rb <- copy_board root_board ;;
  root <- Node_init rb None None None ;;
  for_range iterations (iteration fuel root) ;;
  ret root.

Definition stat_entry (max_visits : nat) (item : nat * nat) : M (nat * stat) :=
  child <- get_node item.2 ;;
  ret (item.1,
       mkStat (visits child)
              (if 0 <? visits child then true_div (wins child) (visits child) else 0%Q)
              (if 0 <? max_visits then true_div (visits child) max_visits else 0%Q)).

Definition child_visits (item : nat * nat) : M nat :=
  child <- get_node item.2 ;; ret (visits child).

(** Lines 235 to 250: the move and the statistics. *)
Definition choose_move (root_board : nat) (root : nat)
    : M (option nat * list (nat * stat)) :=
  r <- get_node root ;;
  if length (children r) =? 0 then
    b <- get_board root_board ;;
    col <- random_choice (get_valid_locations b) ;;
    ret (Some col, [])
  else
    best_child <- best_child_by_visits root ;;
    r <- get_node root ;;
    vs <- mapM child_visits (children r) ;;
    max_visits <- py_max (λ a b, b <? a) id vs ;;
    r <- get_node root ;;
    entries <- mapM (stat_entry max_visits) (children r) ;;
    let stats := foldl (λ d e, dict_set e.1 e.2 d) [] entries in
    bc <- get_node best_child ;;
    ret (move bc, stats).

Definition MCTS_Search (fuel : nat) (root_board : nat) (iterations : nat)
    : M (option nat * list (nat * stat)) :=
  root <- MCTS_tree fuel root_board iterations ;;
  choose_move root_board root.

End Engine.

(** ** The heuristic evaluator and [pick_best_move] *)

Definition WINDOW_LENGTH : nat := 4.

(** [l.count(x)] *)
Definition py_count (x : Z) (l : list Z) : nat :=
  length (List.filter (λ y, (y =? x)%Z) l).

(** [l[lo:hi]] for [lo <= hi], both non-negative. *)
Definition slice {A} (l : list A) (lo hi : nat) : list A :=
  take (hi - lo) (drop lo l).

(** [board[r, :]] and [board[:, c]] *)
Definition row_of (b : Board) (r : nat) : list Z := nth r b [].
Definition column_of (b : Board) (c : nat) : list Z :=
  map (λ row, nth c row 0%Z) b.

Definition evaluate_window (window : list Z) (piece : Z) : Z :=
  let score := 0%Z in
  let opp_piece := if (piece =? PLAYER_PIECE)%Z then AI_PIECE else PLAYER_PIECE in
  let score :=
    if py_count piece window =? 4 then (score + 100)%Z
    else if (py_count piece window =? 3) && (py_count EMPTY window =? 1)
         then (score + 5)%Z
    else if (py_count piece window =? 2) && (py_count EMPTY window =? 2)
         then (score + 2)%Z
    else score in
  let score :=
    if (py_count opp_piece window =? 3) && (py_count EMPTY window =? 1)
    then (score - 4)%Z else score in
  score.

Definition score_position (b : Board) (piece : Z) : Z :=
  let score := 0%Z in
  (* Score center column *)
  let center_array := column_of b (COLUMN_COUNT / 2) in
  let center_count := py_count piece center_array in
  let score := (score + Z.of_nat center_count * 3)%Z in
  (* Score Horizontal *)
  let score :=
    foldl (λ score r,
      let row_array := row_of b r in
      foldl (λ score c,
        let window := slice row_array c (c + WINDOW_LENGTH) in
        (score + evaluate_window window piece)%Z)
        score (seq 0 (COLUMN_COUNT - 3)))
      score (seq 0 ROW_COUNT) in
  (* Score Vertical *)
  let score :=
    foldl (λ score c,
      let col_array := column_of b c in
      foldl (λ score r,
        let window := slice col_array r (r + WINDOW_LENGTH) in
        (score + evaluate_window window piece)%Z)
        score (seq 0 (ROW_COUNT - 3)))
      score (seq 0 COLUMN_COUNT) in
  (* Score positive sloped diagonal *)
  let score :=
    foldl (λ score r,
      foldl (λ score c,
        let window := map (λ i, cell b (r + i) (c + i)) (seq 0 WINDOW_LENGTH) in
        (score + evaluate_window window piece)%Z)
        score (seq 0 (COLUMN_COUNT - 3)))
      score (seq 0 (ROW_COUNT - 3)) in
  let score :=
    foldl (λ score r,
      foldl (λ score c,
        let window := map (λ i, cell b (r + 3 - i) (c + i)) (seq 0 WINDOW_LENGTH) in
        (score + evaluate_window window piece)%Z)
        score (seq 0 (COLUMN_COUNT - 3)))
      score (seq 0 (ROW_COUNT - 3)) in
  score.

(** [for x in l: body], with the variables the body assigns as [acc]. *)
Fixpoint for_each {A S} (l : list A) (body : S → A → M S) (acc : S) : M S :=
  match l with
  | [] => ret acc
  | x :: l' => acc' <- body acc x ;; for_each l' body acc'
  end.

Definition pick_best_move (board_ref : nat) (piece : Z) : M nat :=
  b <- get_board board_ref ;;
  let valid_locations := get_valid_locations b in
  let best_score := (-10000)%Z in
  best_col <- random_choice valid_locations ;;
  best <- for_each valid_locations
    (λ best col,
       b <- get_board board_ref ;;
       let row := get_next_open_row b col in
       temp_board <- copy_board board_ref ;;
       drop_piece temp_board row col piece ;;
       tb <- get_board temp_board ;;
       let score := score_position tb piece in
       if (best.1 <? score)%Z then ret (score, col) else ret best)
    (best_score, best_col) ;;
  ret best.2.

(** ** The game loop

    The state the loop of the main program keeps between events: the
    board, whose turn it is, whether the game is over, and the statistics
    of the last search.  The calls that only print or draw are left
    out. *)

Definition PLAYER : nat := 0.
Definition AI : nat := 1.
Definition SQUARESIZE : nat := 100.

Record game := mkGame {
  game_board : nat;
  turn : nat;
  game_over : bool;
  mcts_stats : list (nat * stat);
}.

(** [is_valid_location(board, col)] on a column the caller has not
    checked: numpy raises [IndexError] outside the array. *)
Definition index_is_valid_location (b : Board) (col : nat) : M bool :=
  match b !! (ROW_COUNT - 1) with
  | Some cells =>
      match cells !! col with
      | Some x => ret (x =? 0)%Z
      | None => raise IndexError
      end
  | None => raise IndexError
  end.

(** The handler of a MOUSEBUTTONDOWN event at horizontal position
    [posx] (lines 370 to 390). *)
Definition player_click (posx : nat) (g : game) : M game :=
  if turn g =? PLAYER then
    let col := posx / SQUARESIZE in
    b <- get_board (game_board g) ;;
    valid <- index_is_valid_location b col ;;
    if valid then
      let row := get_next_open_row b col in
      drop_piece (game_board g) row col PLAYER_PIECE ;;
      b <- get_board (game_board g) ;;
      let game_over := if winning_move b PLAYER_PIECE then true else game_over g in
      let turn := turn g + 1 in
      let turn := turn mod 2 in
      ret (mkGame (game_board g) turn game_over (mcts_stats g))
    else ret g
  else ret g.

Section Loop.
Context `{Scoring}.

(** The turn of the AI (lines 393 to 413).  [MCTS_Search] returns the
    [move] of a node, which is [None] for a root; numpy reads
    [board[5][None] == 0] as an array of seven truth values, whose use
    as a condition raises [ValueError]. *)
Definition ai_turn (fuel : nat) (g : game) : M game :=
  if (turn g =? AI) && negb (game_over g) then
    let iterations := 800 in
    res <- MCTS_Search fuel (game_board g) iterations ;;
    let mcts_stats := res.2 in
    match res.1 with
    | None => raise ValueError
    | Some col =>
        b <- get_board (game_board g) ;;
        valid <- index_is_valid_location b col ;;
        if valid then
          let row := get_next_open_row b col in
          drop_piece (game_board g) row col AI_PIECE ;;
          b <- get_board (game_board g) ;;
          let game_over := if winning_move b AI_PIECE then true else game_over g in
          let turn := turn g + 1 in
          let turn := turn mod 2 in
          ret (mkGame (game_board g) turn game_over mcts_stats)
        else ret (mkGame (game_board g) (turn g) (game_over g) mcts_stats)
    end
  else ret g.

(** One pass of the body of [while not game_over], given the positions
    of the clicks among the events of the pass (a motion event only
    draws, and a QUIT event ends the program and with it the run). *)
Definition loop_pass (fuel : nat) (clicks : list nat) (g : game) : M game :=
  g <- for_each clicks (λ g posx, player_click posx g) g ;;
  ai_turn fuel g.

(** The first passes of the loop, one list of clicks per pass; the
    first turn is drawn by [random.randint(PLAYER, AI)] and comes with
    the initial state. *)
Fixpoint game_loop (fuel : nat) (passes : list (list nat)) (g : game) : M game :=
  match passes with
  | [] => ret g
  | clicks :: passes' =>
      if game_over g then ret g
      else g <- loop_pass fuel clicks g ;; game_loop fuel passes' g
  end.

End Loop.

(** * Part II: notions used to state and prove the properties *)

(** ** Specification-side notions for the board *)

(** Four cells in a line, starting at [(r, c)] and advancing by the step
    of the orientation, all on the grid and all holding [piece]. *)
Inductive orientation := Horizontal | Vertical | DiagUp | DiagDown.

Definition step (o : orientation) : Z * Z :=
  match o with
  | Horizontal => (0, 1)
  | Vertical => (1, 0)
  | DiagUp => (1, 1)
  | DiagDown => (-1, 1)
  end%Z.

Definition on_board (r c : Z) : Prop :=
  (0 ≤ r < Z.of_nat ROW_COUNT ∧ 0 ≤ c < Z.of_nat COLUMN_COUNT)%Z.

Definition four_in_a_row (b : Board) (piece : Z) (o : orientation) (r c : Z) : Prop :=
  ∀ i : Z, (0 ≤ i < 4)%Z →
    on_board (r + i * (step o).1) (c + i * (step o).2) ∧
    cell b (Z.to_nat (r + i * (step o).1)) (Z.to_nat (c + i * (step o).2)) = piece.

Definition has_four (b : Board) (piece : Z) : Prop :=
  ∃ o r c, four_in_a_row b piece o r c.

(** No empty cell below a filled one, in any column. *)
Definition gravity_packed (b : Board) : Prop :=
  ∀ c r r', c < COLUMN_COUNT → r < r' → r' < ROW_COUNT →
    cell b r c = 0%Z → cell b r' c = 0%Z.

(** The number of empty cells of the grid: the measure that bounds a
    playout. *)
Definition empties (b : Board) : nat :=
  length (List.filter (λ k, (cell b (k / COLUMN_COUNT) (k mod COLUMN_COUNT) =? 0)%Z)
                      (seq 0 (ROW_COUNT * COLUMN_COUNT))).

(** ** Parent chains and backpropagation *)

(** [chain ns o l]: following the [parent] references from [o] visits
    exactly the addresses [l], in this order, and ends at a node without
    parent. *)
Inductive chain (ns : list Node) : option nat → list nat → Prop :=
  | chain_nil : chain ns None []
  | chain_cons i n l :
      ns !! i = Some n → chain ns (parent n) l → chain ns (Some i) (i :: l).

(** The nodes after one credit (a visit, and a win where the player
    matches) to each node of [l]. *)
Definition credit_path (w : option Z) (l : list nat) (ns : list Node) : list Node :=
  imap (λ j n, if decide (j ∈ l) then credit w n else n) ns.

(** The addresses [backpropagate] walks through from [o], when the walk
    ends within [fuel] steps. *)
Fixpoint ancestors (fuel : nat) (ns : list Node) (o : option nat)
    : option (list nat) :=
  match o with
  | None => Some []
  | Some i =>
      match fuel with
      | 0 => None
      | S fuel' =>
          match ns !! i with
          | Some n =>
              match ancestors fuel' ns (parent n) with
              | Some l => Some (i :: l)
              | None => None
              end
          | None => None
          end
      end
  end.

(** ** The shape of the search tree

    [r0] is the address of the root and [L0] the first board address the
    search allocated.  Every node from [r0] on has a well-formed board of
    its own, its untried moves and the columns of its children together
    are the legal columns of that board, its children are later nodes
    that point back to it, and it is registered with its parent. *)

Record node_ok (r0 L0 : nat) (bs : list Board) (ns : list Node)
    (i : nat) (n : Node) : Prop := {
  ok_board : ∃ b, bs !! board n = Some b ∧ wf_board b ∧ L0 ≤ board n ∧
     untried_moves n ++ (children n).*1 ≡ₚ get_valid_locations b;
  ok_children : ∀ m j, (m, j) ∈ children n →
     i < j ∧ ∃ c, ns !! j = Some c ∧ parent c = Some i;
  ok_child_ids : NoDup (children n).*2;
  ok_moves : ∀ m j c, (m, j) ∈ children n → ns !! j = Some c → move c = Some m;
  ok_parent :
     if decide (i = r0) then parent n = None ∧ player n = None
     else ∃ p pn, parent n = Some p ∧ r0 ≤ p < i ∧ ns !! p = Some pn ∧
                  i ∈ (children pn).*2;
}.

Definition tree_ok (r0 L0 : nat) (bs : list Board) (ns : list Node) : Prop :=
  r0 < length ns ∧
  ∀ i n, r0 ≤ i → ns !! i = Some n → node_ok r0 L0 bs ns i n.

Definition counts_ok (r0 : nat) (ns : list Node) : Prop :=
  ∀ i n, r0 ≤ i → ns !! i = Some n →
    wins n ≤ visits n ∧
    ∀ m j c, (m, j) ∈ children n → ns !! j = Some c → visits c ≤ visits n.

Definition visited (r0 : nat) (ns : list Node) : Prop :=
  ∀ i n, r0 < i → ns !! i = Some n → 1 ≤ visits n.

(** Two node contents that differ in the counters at most. *)
Definition same_shape (n n' : Node) : Prop :=
  board n' = board n ∧ parent n' = parent n ∧ children n' = children n ∧
  untried_moves n' = untried_moves n ∧ player n' = player n ∧ move n' = move n.

(** The visits of the node at address [j] (0 where there is none), and
    the sum of the visits of the children of [n]. *)
Definition visits_at (ns : list Node) (j : nat) : nat :=
  from_option visits 0 (ns !! j).

Definition children_visits (ns : list Node) (n : Node) : nat :=
  sum_list (visits_at ns <$> (children n).*2).

(** ** Expansion, as a function on stores *)

(** The piece the parity rule puts on a board next. *)
Definition piece_to_move (b : Board) : Z :=
  if Nat.even (count_pieces b) then AI_PIECE else PLAYER_PIECE.

(** The store after node [j] (with contents [n] and board [b]) has been
    expanded by the move [mv], which lands in row [r] and leaves [rest]
    untried. *)
Definition expanded_parent (n : Node) (mv child : nat) (rest : list nat) : Node :=
  with_children (children n ++ [(mv, child)]) (with_untried_moves rest n).

Definition expanded_child (board_ref j : nat) (b' : Board) (mv : nat) (piece : Z)
    : Node :=
  mkNode board_ref (Some j) [] (get_valid_locations b') 0 0 (Some mv) (Some piece).

Definition expanded (s : state) (j : nat) (n : Node) (b : Board)
    (mv r : nat) (rest : list nat) : state :=
  let b' := set_cell b r mv (piece_to_move b) in
  mkState
    (boards s ++ [b'])
    (<[j := expanded_parent n mv (length (nodes s)) rest]> (nodes s)
     ++ [expanded_child (length (boards s)) j b' mv (piece_to_move b)])
    (tape s) (S (drawn s)).

(** ** The invariant of the iterations

    [s0] is the store in which [MCTS_Search] was called and [b0] the
    contents of the caller's board; the root of the tree is the first
    node and its board the first board the call allocates.  [search_inv]
    holds between iterations, after [k] of them; [mid_inv] holds inside
    an iteration, when selection and expansion have settled on node [k1],
    the only node that may still have no visit. *)

Record search_inv (s0 : state) (b0 : Board) (k : nat) (s : state) : Prop := {
  inv_boards : boards s0 `prefix_of` boards s;
  inv_tape : tape s = tape s0;
  inv_root_board : boards s !! length (boards s0) = Some b0;
  inv_tree : tree_ok (length (nodes s0)) (length (boards s0)) (boards s) (nodes s);
  inv_counts : counts_ok (length (nodes s0)) (nodes s);
  inv_visited : visited (length (nodes s0)) (nodes s);
  inv_root : ∃ root, nodes s !! length (nodes s0) = Some root ∧
     board root = length (boards s0) ∧ visits root = k ∧
     (is_terminal_node b0 = false → children_visits (nodes s) root = k) ∧
     (is_terminal_node b0 = true → children root = [] ∧ drawn s = drawn s0);
  inv_gravity : gravity_packed b0 →
     ∀ a b, length (boards s0) ≤ a → boards s !! a = Some b → gravity_packed b;
  inv_size : length (nodes s) ≤ S (length (nodes s0) + k);
}.

Record mid_inv (s0 : state) (b0 : Board) (k : nat) (s1 : state) (k1 : nat)
    : Prop := {
  mid_boards : boards s0 `prefix_of` boards s1;
  mid_tape : tape s1 = tape s0;
  mid_root_board : boards s1 !! length (boards s0) = Some b0;
  mid_tree : tree_ok (length (nodes s0)) (length (boards s0)) (boards s1) (nodes s1);
  mid_counts : counts_ok (length (nodes s0)) (nodes s1);
  mid_visited : ∀ i n, length (nodes s0) < i → i ≠ k1 →
     nodes s1 !! i = Some n → 1 ≤ visits n;
  mid_node : length (nodes s0) ≤ k1 < length (nodes s1);
  mid_root : ∃ root, nodes s1 !! length (nodes s0) = Some root ∧
     board root = length (boards s0) ∧ visits root = k ∧
     (is_terminal_node b0 = false →
        children_visits (nodes s1) root = k ∧ k1 ≠ length (nodes s0)) ∧
     (is_terminal_node b0 = true →
        children root = [] ∧ drawn s1 = drawn s0 ∧ k1 = length (nodes s0));
  mid_gravity : gravity_packed b0 →
     ∀ a b, length (boards s0) ≤ a → boards s1 !! a = Some b → gravity_packed b;
  mid_size : length (nodes s1) ≤ S (S (length (nodes s0) + k));
}.

(** ** The positions of the tree

    Every node below the root stands for the position reached from its
    parent's by the move it records: the piece the parity rule gives the
    turn to, dropped into the lowest open row of that column. *)
Definition positions_ok (r0 : nat) (bs : list Board) (ns : list Node) : Prop :=
  ∀ j c, r0 < j → ns !! j = Some c →
    ∃ p pn m b r,
      parent c = Some p ∧ ns !! p = Some pn ∧ move c = Some m ∧
      bs !! board pn = Some b ∧ m ∈ get_valid_locations b ∧
      get_next_open_row b m = Some r ∧
      bs !! board c = Some (set_cell b r m (piece_to_move b)) ∧
      player c = Some (piece_to_move b).

(** ** Statistics *)

(** The statistics entry of a child with contents [c]. *)
Definition stat_of (max_visits : nat) (c : Node) : stat :=
  mkStat (visits c)
         (if 0 <? visits c then true_div (wins c) (visits c) else 0%Q)
         (if 0 <? max_visits then true_div (visits c) max_visits else 0%Q).

Definition rates_in_range (st : stat) : Prop :=
  (0 <= stat_win_rate st <= 1)%Q ∧ (0 <= stat_visits_ratio st <= 1)%Q.

(** ** Columns and turns *)

(** The piece that moves after [p]: the alternation of the rollout. *)
Definition other_piece (p : Z) : Z :=
  if (p =? AI_PIECE)%Z then PLAYER_PIECE else AI_PIECE.

(** The number of cells of the board that hold [q]. *)
Definition pieces_of (q : Z) (b : Board) : nat := py_count q (concat b).

(** The number of filled cells of a column. *)
Definition column_height (b : Board) (col : nat) : nat :=
  length (List.filter (λ r, negb (cell b r col =? 0)%Z) (seq 0 ROW_COUNT)).

(** The board has no empty cell. *)
Definition board_full (b : Board) : Prop :=
  ∀ r c, r < ROW_COUNT → c < COLUMN_COUNT → cell b r c ≠ 0%Z.

(** ** The game in progress

    What the loop keeps true of the board [b] of a game that [t0] began:
    the pieces obey gravity, the two sides have placed as many pieces as
    the alternation of turns allows, and the game is over exactly when
    one of them has four in a row. *)
Definition game_inv (t0 : nat) (g : game) (b : Board) : Prop :=
  wf_board b ∧ gravity_packed b ∧
  (turn g = PLAYER ∨ turn g = AI) ∧
  pieces_of PLAYER_PIECE b + (if decide (t0 = AI ∧ turn g = PLAYER) then 1 else 0)
  = pieces_of AI_PIECE b + (if decide (t0 = PLAYER ∧ turn g = AI) then 1 else 0) ∧
  count_pieces b = pieces_of PLAYER_PIECE b + pieces_of AI_PIECE b ∧
  game_over g = winning_move b PLAYER_PIECE || winning_move b AI_PIECE.

(** ** The heuristic, as seen from [pick_best_move] *)

(** The opponent [evaluate_window] assumes for [piece]. *)
Definition opponent_of (piece : Z) : Z :=
  if (piece =? PLAYER_PIECE)%Z then AI_PIECE else PLAYER_PIECE.

(** The score [pick_best_move] gives to column [col]: that of the board
    with [piece] dropped there. *)
Definition drop_score (b : Board) (piece : Z) (col : nat) : Z :=
  match get_next_open_row b col with
  | Some r => score_position (set_cell b r col piece) piece
  | None => 0
  end.

(** One round of the loop of [pick_best_move] on the pair
    [(best_score, best_col)]. *)
Definition best_step (f : nat → Z) (best : Z * nat) (col : nat) : Z * nat :=
  if (best.1 <? f col)%Z then (f col, col) else best.

(** ** Concrete boards and stores *)

(** A stand-in for the floats of UCT, to run the engine: scores are
    rationals, [None] is [float('inf')], and the exploration term is a
    rational function of [N] and [n] instead of [c * sqrt(ln N / n)]. *)
Definition rational_scoring : Scoring :=
  {| float := option Q;
     float_gt := λ x y,
       match x, y with
       | Some a, Some b => negb (Qle_bool a b)
       | None, Some _ => true
       | _, None => false
       end;
     float_inf := None;
     uct_value := λ w n N,
       Some ((Z.of_nat w # Pos.of_nat n) + (14 # 10) * (Z.of_nat N # Pos.of_nat n))%Q |}.

Definition board_of_rows (rows : list (list Z)) : Board :=
  rows ++ replicate (ROW_COUNT - length rows) (replicate COLUMN_COUNT 0%Z).

(** The four minimal winning boards of the specification, and boards
    with three in a row only. *)
Definition horizontal_four : Board := board_of_rows [[1; 1; 1; 1; 0; 0; 0]]%Z.
Definition vertical_four : Board :=
  board_of_rows [[1; 0; 0; 0; 0; 0; 0]; [1; 0; 0; 0; 0; 0; 0];
                 [1; 0; 0; 0; 0; 0; 0]; [1; 0; 0; 0; 0; 0; 0]]%Z.
Definition ascending_four : Board :=
  board_of_rows [[1; 2; 2; 2; 0; 0; 0]; [0; 1; 2; 2; 0; 0; 0];
                 [0; 0; 1; 2; 0; 0; 0]; [0; 0; 0; 1; 0; 0; 0]]%Z.
Definition descending_four : Board :=
  board_of_rows [[2; 2; 2; 1; 0; 0; 0]; [2; 2; 1; 0; 0; 0; 0];
                 [2; 1; 0; 0; 0; 0; 0]; [1; 0; 0; 0; 0; 0; 0]]%Z.
Definition horizontal_three : Board := board_of_rows [[1; 1; 1; 0; 1; 0; 0]]%Z.
Definition vertical_three : Board :=
  board_of_rows [[1; 0; 0; 0; 0; 0; 0]; [1; 0; 0; 0; 0; 0; 0];
                 [1; 0; 0; 0; 0; 0; 0]; [2; 0; 0; 0; 0; 0; 0]]%Z.
Definition full_board : Board := replicate ROW_COUNT (replicate COLUMN_COUNT 1%Z).

(** A store holding only the caller's board, and a random source. *)
Definition store_with (b : Board) : state :=
  mkState [b] [] (λ i, 3 * i + 1) 0.

(** A root and one child, as [MCTS_Search] builds them. *)
Definition two_nodes : state :=
  mkState [create_board; horizontal_three]
    [mkNode 0 None [(3, 1)] [0; 1; 2; 4; 5; 6] 4 0 None None;
     mkNode 1 (Some 0) [] [0; 1; 2; 3; 4; 5; 6] 2 1 (Some 3) (Some AI_PIECE)]
    (λ i, i) 0.

(** A game at its first move, on the board at address 0, and a leaf of
    the tree of [two_nodes]. *)
Definition opening (t0 : nat) : game := mkGame 0 t0 false [].

Definition leaf : Node :=
  mkNode 1 (Some 0) [] [0; 1; 2; 3; 4; 5; 6] 2 1 (Some 3) (Some AI_PIECE).

(** * Part III: proofs *)

(** ** Facts about cells *)

Lemma wf_board_row (b : Board) r :
  wf_board b → r < ROW_COUNT → ∃ row, b !! r = Some row ∧ length row = COLUMN_COUNT.
Proof.
  intros [Hl Hrows] Hr.
  destruct (lookup_lt_is_Some_2 b r) as [row Hrow]; [lia|].
  exists row. split; [done|].
  by apply (Forall_lookup_1 _ _ _ _ Hrows Hrow).
Qed.

Lemma cell_set_cell (b : Board) r c piece r' c' :
  wf_board b → r < ROW_COUNT → c < COLUMN_COUNT →
  cell (set_cell b r c piece) r' c' =
    if decide (r' = r ∧ c' = c) then piece else cell b r' c'.
Proof.
  intros Hwf Hr Hc.
  destruct (wf_board_row b r Hwf Hr) as (row & Hrow & Hlen).
  unfold set_cell, cell.
  destruct (decide (r' = r)) as [-> | Hne].
  - rewrite (nth_lookup_Some _ _ [] (<[c:=piece]> row)).
    2:{ rewrite list_lookup_alter_eq, Hrow. done. }
    rewrite (nth_lookup_Some _ _ [] row Hrow).
    destruct (decide (c' = c)) as [->|Hnc].
    + rewrite decide_True by done.
      apply nth_lookup_Some. apply list_lookup_insert_eq. lia.
    + rewrite decide_False by tauto.
      rewrite !nth_lookup. by rewrite list_lookup_insert_ne.
  - rewrite decide_False by tauto.
    rewrite !(nth_lookup _ r'). by rewrite list_lookup_alter_ne.
Qed.

Lemma wf_board_set_cell (b : Board) r c piece :
  wf_board b → wf_board (set_cell b r c piece).
Proof.
  intros [Hl Hrows]. split.
  - unfold set_cell. by rewrite length_alter.
  - unfold set_cell. apply Forall_alter; [done|].
    intros row _ Hrow. by rewrite length_insert.
Qed.

Lemma wf_create_board : wf_board create_board.
Proof. split; [reflexivity|]. repeat constructor. Qed.

(** ** Win detection against the four-in-a-row predicate *)

Lemma existsb_seq_true (f : nat → bool) (lo n k : nat) :
  lo ≤ k < lo + n → f k = true → existsb f (seq lo n) = true.
Proof.
  intros Hk Hf. apply existsb_exists. exists k. split; [|done].
  apply in_seq. lia.
Qed.

Lemma existsb_seq_inv (f : nat → bool) (lo n : nat) :
  existsb f (seq lo n) = true → ∃ k, lo ≤ k < lo + n ∧ f k = true.
Proof.
  intros H. apply existsb_exists in H as (k & Hin & Hf).
  apply in_seq in Hin. eauto.
Qed.

Lemma window_inv (x1 x2 x3 x4 piece : Z) :
  (x1 =? piece)%Z && (x2 =? piece)%Z && (x3 =? piece)%Z && (x4 =? piece)%Z = true →
  x1 = piece ∧ x2 = piece ∧ x3 = piece ∧ x4 = piece.
Proof.
  rewrite !andb_true_iff, !Z.eqb_eq. tauto.
Qed.

Lemma window_intro (x1 x2 x3 x4 piece : Z) :
  x1 = piece → x2 = piece → x3 = piece → x4 = piece →
  (x1 =? piece)%Z && (x2 =? piece)%Z && (x3 =? piece)%Z && (x4 =? piece)%Z = true.
Proof.
  intros -> -> -> ->. by rewrite Z.eqb_refl.
Qed.

Lemma four_in_a_row_intro b piece o (r c : nat) r1 c1 r2 c2 r3 c3 :
  Z.of_nat r1 = (Z.of_nat r + 1 * (step o).1)%Z →
  Z.of_nat c1 = (Z.of_nat c + 1 * (step o).2)%Z →
  Z.of_nat r2 = (Z.of_nat r + 2 * (step o).1)%Z →
  Z.of_nat c2 = (Z.of_nat c + 2 * (step o).2)%Z →
  Z.of_nat r3 = (Z.of_nat r + 3 * (step o).1)%Z →
  Z.of_nat c3 = (Z.of_nat c + 3 * (step o).2)%Z →
  r < ROW_COUNT → r3 < ROW_COUNT → c < COLUMN_COUNT → c3 < COLUMN_COUNT →
  cell b r c = piece → cell b r1 c1 = piece →
  cell b r2 c2 = piece → cell b r3 c3 = piece →
  four_in_a_row b piece o (Z.of_nat r) (Z.of_nat c).
Proof.
  intros Er1 Ec1 Er2 Ec2 Er3 Ec3 Hr Hr3 Hc Hc3 H0 H1 H2 H3 i Hi.
  unfold on_board, ROW_COUNT, COLUMN_COUNT in *.
  assert (i = 0 ∨ i = 1 ∨ i = 2 ∨ i = 3)%Z as [-> | [-> | [-> | ->]]] by lia.
  - rewrite !Z.mul_0_l, !Z.add_0_r, !Nat2Z.id. split; [lia|done].
  - rewrite <- Er1, <- Ec1, !Nat2Z.id. split; [|done].
    destruct o; simpl in *; lia.
  - rewrite <- Er2, <- Ec2, !Nat2Z.id. split; [|done].
    destruct o; simpl in *; lia.
  - rewrite <- Er3, <- Ec3, !Nat2Z.id. split; [lia|done].
Qed.

Lemma winning_move_has_four b piece :
  winning_move b piece = true → has_four b piece.
Proof.
  unfold winning_move. rewrite !orb_true_iff.
  intros [[[H|H]|H]|H];
    apply existsb_seq_inv in H as (c & Hc & H);
    apply existsb_seq_inv in H as (r & Hr & H);
    apply window_inv in H as (H0 & H1 & H2 & H3);
    unfold ROW_COUNT, COLUMN_COUNT in *.
  - exists Horizontal, (Z.of_nat r), (Z.of_nat c).
    eapply (four_in_a_row_intro _ _ _ r c r (c+1) r (c+2) r (c+3));
      unfold ROW_COUNT, COLUMN_COUNT; simpl; try done; lia.
  - exists Vertical, (Z.of_nat r), (Z.of_nat c).
    eapply (four_in_a_row_intro _ _ _ r c (r+1) c (r+2) c (r+3) c);
      unfold ROW_COUNT, COLUMN_COUNT; simpl; try done; lia.
  - exists DiagUp, (Z.of_nat r), (Z.of_nat c).
    eapply (four_in_a_row_intro _ _ _ r c (r+1) (c+1) (r+2) (c+2) (r+3) (c+3));
      unfold ROW_COUNT, COLUMN_COUNT; simpl; try done; lia.
  - exists DiagDown, (Z.of_nat r), (Z.of_nat c).
    eapply (four_in_a_row_intro _ _ _ r c (r-1) (c+1) (r-2) (c+2) (r-3) (c+3));
      unfold ROW_COUNT, COLUMN_COUNT; simpl; try done; lia.
Qed.

Lemma four_in_a_row_elim b piece o r c :
  four_in_a_row b piece o r c →
  ∃ rn cn : nat, r = Z.of_nat rn ∧ c = Z.of_nat cn ∧
    on_board (r + 3 * (step o).1) (c + 3 * (step o).2) ∧
    rn < ROW_COUNT ∧ cn < COLUMN_COUNT ∧
    cell b rn cn = piece ∧
    cell b (Z.to_nat (r + 1 * (step o).1)) (Z.to_nat (c + 1 * (step o).2)) = piece ∧
    cell b (Z.to_nat (r + 2 * (step o).1)) (Z.to_nat (c + 2 * (step o).2)) = piece ∧
    cell b (Z.to_nat (r + 3 * (step o).1)) (Z.to_nat (c + 3 * (step o).2)) = piece.
Proof.
  intros H.
  destruct (H 0%Z) as [[Hr0 Hc0] H0]; [lia|].
  destruct (H 1%Z) as [_ H1]; [lia|].
  destruct (H 2%Z) as [_ H2]; [lia|].
  destruct (H 3%Z) as [Hb3 H3]; [lia|].
  rewrite !Z.mul_0_l, !Z.add_0_r in *.
  exists (Z.to_nat r), (Z.to_nat c).
  unfold on_board, ROW_COUNT, COLUMN_COUNT in *.
  repeat split; try done; lia.
Qed.

Ltac idx_to_nat H r c :=
  match type of H with
  | cell _ (Z.to_nat ?a) (Z.to_nat ?b) = _ =>
      replace (Z.to_nat a) with r in H by lia;
      replace (Z.to_nat b) with c in H by lia
  end.

Lemma has_four_winning_move b piece :
  has_four b piece → winning_move b piece = true.
Proof.
  intros (o & r & c & H).
  apply four_in_a_row_elim in H
    as (rn & cn & -> & -> & [Hr3 Hc3] & Hr & Hc & H0 & H1 & H2 & H3).
  unfold winning_move, ROW_COUNT, COLUMN_COUNT in *. rewrite !orb_true_iff.
  destruct o; cbn [step fst snd] in *.
  - left; left; left.
    apply (existsb_seq_true _ _ _ cn); [lia|].
    apply (existsb_seq_true _ _ _ rn); [lia|].
    idx_to_nat H1 rn (cn + 1). idx_to_nat H2 rn (cn + 2).
    idx_to_nat H3 rn (cn + 3). by apply window_intro.
  - left; left; right.
    apply (existsb_seq_true _ _ _ cn); [lia|].
    apply (existsb_seq_true _ _ _ rn); [lia|].
    idx_to_nat H1 (rn + 1) cn. idx_to_nat H2 (rn + 2) cn.
    idx_to_nat H3 (rn + 3) cn. by apply window_intro.
  - left; right.
    apply (existsb_seq_true _ _ _ cn); [lia|].
    apply (existsb_seq_true _ _ _ rn); [lia|].
    idx_to_nat H1 (rn + 1) (cn + 1). idx_to_nat H2 (rn + 2) (cn + 2).
    idx_to_nat H3 (rn + 3) (cn + 3). by apply window_intro.
  - right.
    apply (existsb_seq_true _ _ _ cn); [lia|].
    apply (existsb_seq_true _ _ _ rn); [lia|].
    idx_to_nat H1 (rn - 1) (cn + 1). idx_to_nat H2 (rn - 2) (cn + 2).
    idx_to_nat H3 (rn - 3) (cn + 3). by apply window_intro.
Qed.

(** ** Legal columns and the lowest open row *)

Lemma elem_of_get_valid_locations b c :
  c ∈ get_valid_locations b ↔ c < COLUMN_COUNT ∧ is_valid_location b c = true.
Proof.
  unfold get_valid_locations. rewrite list_elem_of_In, filter_In, in_seq. intuition lia.
Qed.

Lemma NoDup_get_valid_locations b : NoDup (get_valid_locations b).
Proof.
  apply NoDup_ListNoDup, List.NoDup_filter, NoDup_ListNoDup, NoDup_seq.
Qed.

Lemma find_seq_first (f : nat → bool) lo n r :
  find f (seq lo n) = Some r →
  lo ≤ r < lo + n ∧ f r = true ∧ ∀ k, lo ≤ k < r → f k = false.
Proof.
  revert lo. induction n as [|n IH]; intros lo; simpl; [done|].
  destruct (f lo) eqn:Hlo.
  - intros [= <-]. repeat split; [lia|lia|done|]. intros k ?. lia.
  - intros H. apply IH in H as (Hr & Hf & Hmin).
    repeat split; [lia|lia|done|].
    intros k Hk. destruct (decide (k = lo)) as [-> | ?]; [done|].
    apply Hmin. lia.
Qed.

Lemma find_seq_is_Some (f : nat → bool) lo n k :
  lo ≤ k < lo + n → f k = true → is_Some (find f (seq lo n)).
Proof.
  intros Hk Hf. destruct (find f (seq lo n)) eqn:E; [by eexists|].
  eapply find_none in E; [|apply in_seq; exact Hk]. congruence.
Qed.

Lemma get_next_open_row_Some b col r :
  get_next_open_row b col = Some r →
  r < ROW_COUNT ∧ cell b r col = 0%Z ∧ ∀ k, k < r → cell b k col ≠ 0%Z.
Proof.
  intros H. apply find_seq_first in H as (Hr & Hf & Hmin).
  apply Z.eqb_eq in Hf. repeat split; [lia|done|].
  intros k Hk. apply Z.eqb_neq, Hmin. lia.
Qed.

Lemma get_next_open_row_valid b col :
  is_valid_location b col = true → is_Some (get_next_open_row b col).
Proof.
  intros H. apply (find_seq_is_Some _ _ _ (ROW_COUNT - 1)); [|done].
  unfold ROW_COUNT. lia.
Qed.

(** ** Gravity is preserved by a drop into the lowest open row *)

Lemma gravity_packed_drop b col r piece :
  wf_board b → gravity_packed b → col < COLUMN_COUNT →
  get_next_open_row b col = Some r → piece ≠ 0%Z →
  gravity_packed (set_cell b r col piece).
Proof.
  intros Hwf Hg Hcol Hrow Hpiece c r1 r2 Hc Hlt Hr2.
  apply get_next_open_row_Some in Hrow as (Hr & _ & Hmin).
  rewrite !cell_set_cell by done.
  destruct (decide (r1 = r ∧ c = col)) as [_|Hn1]; [done|].
  intros H1.
  destruct (decide (r2 = r ∧ c = col)) as [[-> ->]|Hn2].
  - destruct (Hmin r1 Hlt H1).
  - by apply (Hg c r1 r2).
Qed.

Lemma gravity_packed_create_board : gravity_packed create_board.
Proof.
  intros c r r' Hc Hlt Hr' _. unfold ROW_COUNT, COLUMN_COUNT in *.
  do 6 (destruct r' as [|r']; [by do 7 (destruct c as [|c]; [done|]); lia|]). lia.
Qed.

(** ** Empty cells: the measure that bounds a playout *)

Lemma filter_flip_one {A} (f g : A → bool) (x : A) (l : list A) :
  NoDup l → x ∈ l → f x = true → g x = false →
  (∀ y, y ∈ l → y ≠ x → g y = f y) →
  S (length (List.filter g l)) = length (List.filter f l).
Proof.
  intros Hnd. induction Hnd as [|a l Ha Hnd IH]; intros Hx Hf Hg Hoth.
  - by apply elem_of_nil in Hx.
  - simpl. apply elem_of_cons in Hx as [-> | Hx].
    + rewrite Hf, Hg. simpl. f_equal.
      f_equal. apply filter_ext_in. intros y Hy. apply Hoth.
      * apply elem_of_cons. right. by apply list_elem_of_In.
      * intros ->. by apply Ha, list_elem_of_In.
    + assert (a ≠ x) as Hne by (by intros ->).
      rewrite (Hoth a); [|apply elem_of_cons; by left|done].
      assert (S (length (List.filter g l)) = length (List.filter f l)) as IH'.
      { apply IH; [done..|]. intros y Hy. apply Hoth, elem_of_cons. by right. }
      destruct (f a); simpl; lia.
Qed.

Lemma empties_bound b : empties b ≤ ROW_COUNT * COLUMN_COUNT.
Proof.
  unfold empties.
  etrans; [apply filter_length_le|]. by rewrite length_seq.
Qed.

Lemma empties_set_cell b r c piece :
  wf_board b → r < ROW_COUNT → c < COLUMN_COUNT →
  cell b r c = 0%Z → piece ≠ 0%Z →
  S (empties (set_cell b r c piece)) = empties b.
Proof.
  intros Hwf Hr Hc Hz Hp. unfold empties.
  apply (filter_flip_one _ _ (r * COLUMN_COUNT + c)).
  - apply NoDup_seq.
  - apply list_elem_of_In, in_seq. unfold ROW_COUNT, COLUMN_COUNT in *. lia.
  - replace ((r * COLUMN_COUNT + c) / COLUMN_COUNT) with r
      by (unfold COLUMN_COUNT in *; apply Nat.div_unique with c; lia).
    replace ((r * COLUMN_COUNT + c) mod COLUMN_COUNT) with c
      by (unfold COLUMN_COUNT in *; apply Nat.mod_unique with r; lia).
    by apply Z.eqb_eq.
  - rewrite cell_set_cell by done.
    replace ((r * COLUMN_COUNT + c) / COLUMN_COUNT) with r
      by (unfold COLUMN_COUNT in *; apply Nat.div_unique with c; lia).
    replace ((r * COLUMN_COUNT + c) mod COLUMN_COUNT) with c
      by (unfold COLUMN_COUNT in *; apply Nat.mod_unique with r; lia).
    rewrite decide_True by done. by apply Z.eqb_neq.
  - intros k _ Hk. rewrite cell_set_cell by done.
    rewrite decide_False; [done|]. intros [E1 E2]. apply Hk.
    rewrite <- E1, <- E2. unfold COLUMN_COUNT.
    rewrite (Nat.div_mod_eq k 7) at 1. lia.
Qed.

(** ** Running programs of the monad *)

Lemma bind_eq {A B} (m : M A) (k : A → M B) s a s' :
  m s = Ok a s' → bind m k s = k a s'.
Proof. unfold bind. by intros ->. Qed.

Lemma bind_Ok_inv {A B} (m : M A) (k : A → M B) s b s'' :
  bind m k s = Ok b s'' → ∃ a s', m s = Ok a s' ∧ k a s' = Ok b s''.
Proof. unfold bind. destruct (m s) as [a s'| |]; [eauto|done|done]. Qed.

Ltac mrun H := erewrite bind_eq by (exact H); cbv beta.
Tactic Notation "mrun_by" tactic3(tac) := erewrite bind_eq by tac; cbv beta.
Ltac sstate :=
  unfold set_boards, set_nodes in *; cbn [boards nodes tape drawn] in *.

Lemma get_board_eq ref b s : boards s !! ref = Some b → get_board ref s = Ok b s.
Proof. unfold get_board. by intros ->. Qed.

Lemma get_node_eq ref n s : nodes s !! ref = Some n → get_node ref s = Ok n s.
Proof. unfold get_node. by intros ->. Qed.

Lemma copy_board_eq ref b s :
  boards s !! ref = Some b →
  copy_board ref s = Ok (length (boards s)) (set_boards (λ bs, bs ++ [b]) s).
Proof. unfold copy_board. by intros ->. Qed.

Lemma put_board_eq ref b s :
  ref < length (boards s) →
  put_board ref b s = Ok tt (set_boards (λ bs, <[ref := b]> bs) s).
Proof. intros H. unfold put_board. by rewrite decide_True. Qed.

Lemma update_node_eq ref f s :
  ref < length (nodes s) →
  update_node ref f s = Ok tt (set_nodes (alter f ref) s).
Proof. intros H. unfold update_node. by rewrite decide_True. Qed.

Lemma random_choice_eq {A} (l : list A) s :
  l ≠ [] →
  ∃ x, x ∈ l ∧
    random_choice l s = Ok x (mkState (boards s) (nodes s) (tape s) (S (drawn s))).
Proof.
  intros Hl. unfold random_choice.
  destruct (lookup_lt_is_Some_2 l (tape s (drawn s) mod length l)) as [x Hx].
  { apply Nat.mod_upper_bound. destruct l; simpl; [done|lia]. }
  exists x. rewrite Hx. split; [|done]. by eapply list_elem_of_lookup_2.
Qed.

Lemma random_choice_inv {A} (l : list A) s x s' :
  random_choice l s = Ok x s' →
  l !! (tape s (drawn s) mod length l) = Some x ∧
  s' = mkState (boards s) (nodes s) (tape s) (S (drawn s)).
Proof.
  unfold random_choice.
  destruct (l !! (tape s (drawn s) mod length l)) as [y|]; [|done].
  by intros [= -> <-].
Qed.

(** Over any [length l] consecutive numbers of the source the choice
    runs through [l], each position once: a uniform number gives a
    uniform element. *)
Lemma random_choice_balanced {A} (l : list A) (k : nat) :
  (λ t, l !! (t mod length l)) <$> seq (k * length l) (length l) = Some <$> l.
Proof.
  apply list_eq. intros i. rewrite !list_lookup_fmap.
  destruct (decide (i < length l)) as [Hlt | Hge].
  - rewrite lookup_seq_lt by done. cbn.
    rewrite Nat.add_comm, Nat.Div0.mod_add, Nat.mod_small by done.
    by destruct (lookup_lt_is_Some_2 l i Hlt) as [x ->].
  - rewrite lookup_seq_ge, lookup_ge_None_2 by lia. done.
Qed.

Lemma random_choice_nil {A} s : random_choice (@nil A) s = Raise IndexError.
Proof. done. Qed.

Lemma mapM_pure {A B} (f : A → M B) (g : A → B) (l : list A) s :
  (∀ x, x ∈ l → f x s = Ok (g x) s) → mapM f l s = Ok (g <$> l) s.
Proof.
  induction l as [|x l IH]; intros H; simpl; [done|].
  mrun_by (apply H; by left).
  mrun_by (apply IH; intros y Hy; apply H; by right). done.
Qed.

Lemma drop_piece_eq ref b r col piece s :
  boards s !! ref = Some b → wf_board b → r < ROW_COUNT → col < COLUMN_COUNT →
  drop_piece ref (Some r) col piece s
  = Ok tt (set_boards (λ bs, <[ref := set_cell b r col piece]> bs) s).
Proof.
  intros Hb Hwf Hr Hc. unfold drop_piece.
  mrun (get_board_eq _ _ _ Hb).
  destruct (wf_board_row b r Hwf Hr) as (cells & -> & Hlen).
  rewrite decide_True by lia.
  apply put_board_eq. by eapply lookup_lt_Some.
Qed.

Lemma insert_snoc {A} (l : list A) (x y : A) :
  <[length l := x]> (l ++ [y]) = l ++ [x].
Proof. rewrite insert_app_r_alt by lia. by rewrite Nat.sub_diag. Qed.

Lemma lookup_snoc {A} (l : list A) (x : A) : (l ++ [x]) !! length l = Some x.
Proof. by rewrite list_lookup_middle. Qed.

(** ** The playout *)

Lemma valid_location_drop b mv :
  wf_board b → mv ∈ get_valid_locations b →
  ∃ r, get_next_open_row b mv = Some r ∧ r < ROW_COUNT ∧ mv < COLUMN_COUNT ∧
       cell b r mv = 0%Z.
Proof.
  intros Hwf Hmv. apply elem_of_get_valid_locations in Hmv as [Hc Hv].
  destruct (get_next_open_row_valid b mv Hv) as [r Hr].
  exists r. destruct (get_next_open_row_Some _ _ _ Hr) as (? & ? & _). done.
Qed.

Lemma playout_loop_spec fuel : ∀ bs bv ns tp d p,
  wf_board bv → empties bv < fuel → (p = PLAYER_PIECE ∨ p = AI_PIECE) →
  ∃ w bf d',
    playout_loop fuel (length bs) p (mkState (bs ++ [bv]) ns tp d)
      = Ok w (mkState (bs ++ [bf]) ns tp d') ∧
    wf_board bf ∧ (gravity_packed bv → gravity_packed bf) ∧
    (is_terminal_node bv = true → d' = d).
Proof.
  induction fuel as [|fuel IH]; intros bs bv ns tp d p Hwf Hfuel Hp; [lia|].
  simpl. unfold is_terminal_node.
  assert ((bs ++ [bv]) !! length bs = Some bv) as Hlook
    by (by rewrite list_lookup_middle).
  mrun_by (by apply get_board_eq).
  destruct (winning_move bv PLAYER_PIECE) eqn:Hw1.
  { exists (Some PLAYER_PIECE), bv, d. done. }
  destruct (winning_move bv AI_PIECE) eqn:Hw2.
  { exists (Some AI_PIECE), bv, d. done. }
  destruct (length (get_valid_locations bv) =? 0) eqn:Hlen.
  { exists None, bv, d. done. }
  apply Nat.eqb_neq in Hlen.
  destruct (random_choice_eq (get_valid_locations bv)
              (mkState (bs ++ [bv]) ns tp d)) as (mv & Hmv & Hrc).
  { by intros E; rewrite E in Hlen. }
  mrun Hrc. sstate.
  destruct (valid_location_drop bv mv Hwf Hmv) as (r & Hrow & Hr & Hc & Hcell).
  rewrite Hrow.
  mrun_by (by eapply drop_piece_eq). sstate.
  rewrite insert_snoc.
  assert (p ≠ 0%Z) as Hp0 by (by destruct Hp as [-> | ->]).
  destruct (IH bs (set_cell bv r mv p) ns tp (S d)
              (if (p =? AI_PIECE)%Z then PLAYER_PIECE else AI_PIECE))
    as (w & bf & d' & Hrun & Hwf' & Hg & _).
  - by apply wf_board_set_cell.
  - pose proof (empties_set_cell bv r mv p Hwf Hr Hc Hcell Hp0). lia.
  - destruct (p =? AI_PIECE)%Z; auto.
  - exists w, bf, d'. split; [done|]. split; [done|]. split.
    + intros Hgrav. apply Hg. by apply gravity_packed_drop.
    + done.
Qed.

Lemma simulate_random_playout_spec fuel board_ref p s bv :
  boards s !! board_ref = Some bv → wf_board bv →
  ROW_COUNT * COLUMN_COUNT < fuel → (p = PLAYER_PIECE ∨ p = AI_PIECE) →
  ∃ w bf d',
    simulate_random_playout fuel board_ref (Some p) s
      = Ok w (mkState (boards s ++ [bf]) (nodes s) (tape s) d') ∧
    wf_board bf ∧ (gravity_packed bv → gravity_packed bf) ∧
    (is_terminal_node bv = true → d' = drawn s).
Proof.
  intros Hb Hwf Hfuel Hp. unfold simulate_random_playout.
  mrun_by (by eapply copy_board_eq).
  unfold set_boards.
  mrun_by (apply get_board_eq; sstate; by rewrite list_lookup_middle).
  apply playout_loop_spec; [done| |done].
  pose proof (empties_bound bv). lia.
Qed.

(** ** Backpropagation along the parent chain *)

Lemma chain_functional ns o l1 l2 : chain ns o l1 → chain ns o l2 → l1 = l2.
Proof.
  intros H1. revert l2. induction H1 as [|i n l Hn _ IH]; intros l2 H2.
  - by inversion H2.
  - inversion H2 as [|i' n' l' Hn' Hc']; subst.
    rewrite Hn in Hn'. injection Hn' as <-. f_equal. by apply IH.
Qed.

Lemma chain_elem ns o l j :
  chain ns o l → j ∈ l → ∃ l', chain ns (Some j) l' ∧ length l' ≤ length l.
Proof.
  induction 1 as [|i n l Hn Hc IH]; intros Hj.
  - by apply elem_of_nil in Hj.
  - apply elem_of_cons in Hj as [-> | Hj].
    + exists (i :: l). split; [by econstructor|done].
    + destruct (IH Hj) as (l' & Hl' & Hlen). exists l'. split; [done|]. simpl. lia.
Qed.

Lemma chain_head_fresh ns i l : chain ns (Some i) (i :: l) → i ∉ l.
Proof.
  intros Hc Hi. inversion Hc as [|i' n l' Hn Hc']; subst.
  destruct (chain_elem _ _ _ _ Hc' Hi) as (l' & Hl' & Hlen).
  pose proof (chain_functional _ _ _ _ Hc Hl') as <-. simpl in Hlen. lia.
Qed.

Lemma chain_NoDup ns o l : chain ns o l → NoDup l.
Proof.
  induction 1 as [|i n l Hn Hc IH]; constructor; [|done].
  apply (chain_head_fresh ns). by econstructor.
Qed.

Lemma chain_up ns o l j c p :
  chain ns o l → j ∈ l → ns !! j = Some c → parent c = Some p → p ∈ l.
Proof.
  induction 1 as [|i n l Hn Hc IH]; intros Hj Hcj Hp.
  - by apply elem_of_nil in Hj.
  - apply elem_of_cons in Hj as [-> | Hj].
    + rewrite Hn in Hcj. injection Hcj as ->. rewrite Hp in Hc.
      inversion Hc; subst. right. by left.
    + right. by apply IH.
Qed.

Lemma chain_alter ns o l (f : Node → Node) j :
  (∀ n, parent (f n) = parent n) → chain ns o l → chain (alter f j ns) o l.
Proof.
  intros Hf. induction 1 as [|i n l Hn Hc IH]; [constructor|].
  destruct (decide (j = i)) as [-> | Hne].
  - apply (chain_cons _ i (f n)).
    + by rewrite list_lookup_alter_eq, Hn.
    + by rewrite Hf.
  - apply (chain_cons _ i n); [|done]. by rewrite list_lookup_alter_ne.
Qed.

Lemma credit_path_nil w ns : credit_path w [] ns = ns.
Proof.
  apply list_eq. intros j. unfold credit_path. rewrite list_lookup_imap.
  destruct (ns !! j); [|done]. cbn [fmap option_fmap option_map].
  by rewrite decide_False by apply not_elem_of_nil.
Qed.

Lemma credit_path_cons w i l ns :
  i ∉ l → credit_path w l (alter (credit w) i ns) = credit_path w (i :: l) ns.
Proof.
  intros Hi. apply list_eq. intros j. unfold credit_path.
  rewrite !list_lookup_imap.
  destruct (decide (i = j)) as [<- | Hne].
  - rewrite list_lookup_alter_eq. destruct (ns !! i); [|done].
    cbn [fmap option_fmap option_map].
    rewrite decide_False by done. rewrite decide_True; [done|by left].
  - rewrite list_lookup_alter_ne by done. destruct (ns !! j); [|done].
    cbn [fmap option_fmap option_map]. f_equal. destruct (decide (j ∈ l)) as [Hj | Hj].
    + rewrite decide_True; [done|by right].
    + rewrite decide_False; [done|]. intros [-> | ?]%elem_of_cons; done.
Qed.

Lemma lookup_credit_path w l ns j :
  credit_path w l ns !! j
  = (λ n, if decide (j ∈ l) then credit w n else n) <$> ns !! j.
Proof. unfold credit_path. by rewrite list_lookup_imap. Qed.

Lemma length_credit_path w l ns : length (credit_path w l ns) = length ns.
Proof. unfold credit_path. by rewrite length_imap. Qed.

Lemma backpropagate_spec w l : ∀ fuel o s,
  chain (nodes s) o l → length l ≤ fuel →
  backpropagate fuel o w s = Ok tt (set_nodes (credit_path w l) s).
Proof.
  induction l as [|i l IH]; intros fuel o s Hc Hfuel.
  - inversion Hc; subst. destruct fuel; simpl; unfold ret, set_nodes;
      rewrite credit_path_nil; by destruct s.
  - pose proof (chain_head_fresh (nodes s) i l) as Hfresh.
    inversion Hc as [|i' n l' Hn Hc']; subst.
    destruct fuel as [|fuel]; [simpl in Hfuel; lia|]. simpl.
    mrun_by (apply update_node_eq; by eapply lookup_lt_Some).
    mrun_by (apply get_node_eq; sstate; by rewrite list_lookup_alter_eq, Hn).
    rewrite IH.
    + unfold set_nodes. cbn [boards nodes tape drawn].
      by rewrite credit_path_cons by auto.
    + sstate. by apply chain_alter.
    + simpl in Hfuel. lia.
Qed.

(** ** Python containers *)

Lemma list_remove_elem x l :
  x ∈ l → ∃ rest, list_remove x l = Some rest ∧ l ≡ₚ x :: rest.
Proof.
  induction l as [|y l IH]; intros Hx; [by apply elem_of_nil in Hx|].
  simpl. destruct (decide (x = y)) as [-> | Hne]; [by eexists|].
  apply elem_of_cons in Hx as [-> | Hx]; [done|].
  destruct (IH Hx) as (rest & -> & Hperm).
  exists (y :: rest). split; [done|]. rewrite Hperm. apply Permutation_swap.
Qed.

Lemma dict_set_fresh {V} k (v : V) d :
  k ∉ d.*1 → dict_set k v d = d ++ [(k, v)].
Proof.
  induction d as [|[k' v'] d IH]; intros Hk; simpl; [done|].
  rewrite fmap_cons in Hk. apply not_elem_of_cons in Hk as [Hne Hk].
  rewrite decide_False by done. by rewrite IH.
Qed.

Lemma dict_get_set_eq {V} k (v : V) d : dict_get k (dict_set k v d) = Some v.
Proof.
  induction d as [|[k' v'] d IH]; simpl.
  - by rewrite decide_True.
  - destruct (decide (k = k')) as [-> | Hne]; simpl.
    + by rewrite decide_True.
    + by rewrite decide_False.
Qed.

Lemma dict_get_set_ne {V} k k' (v : V) d :
  k ≠ k' → dict_get k (dict_set k' v d) = dict_get k d.
Proof.
  intros Hne. induction d as [|[k2 v2] d IH]; simpl.
  - by rewrite decide_False.
  - destruct (decide (k' = k2)) as [-> | Hne2]; simpl.
    + by rewrite !decide_False.
    + destruct (decide (k = k2)); done.
Qed.

Lemma foldl_max_elem {A K} (gt : K → K → bool) (key : A → K) l x :
  foldl (λ best y, if gt (key y) (key best) then y else best) x l ∈ x :: l.
Proof.
  revert x. induction l as [|y l IH]; intros x; simpl; [by left|].
  destruct (gt (key y) (key x)).
  - right. apply IH.
  - specialize (IH x). apply elem_of_cons in IH as [-> | IH].
    + by left.
    + by do 2 right.
Qed.

Lemma foldl_max_ge {A} (key : A → nat) l x :
  let best := foldl (λ best y, if key best <? key y then y else best) x l in
  key x ≤ key best ∧ ∀ y, y ∈ l → key y ≤ key best.
Proof.
  revert x. induction l as [|y l IH]; intros x; simpl.
  - split; [done|]. intros y Hy. by apply elem_of_nil in Hy.
  - destruct (key x <? key y) eqn:E.
    + apply Nat.ltb_lt in E. destruct (IH y) as [H1 H2]. split; [lia|].
      intros z [-> | Hz]%elem_of_cons; auto.
    + apply Nat.ltb_ge in E. destruct (IH x) as [H1 H2]. split; [done|].
      intros z [-> | Hz]%elem_of_cons; [lia|auto].
Qed.

Lemma py_max_spec {A K} (gt : K → K → bool) (key : A → K) (l : list A) s :
  l ≠ [] → ∃ x, py_max gt key l s = Ok x s ∧ x ∈ l.
Proof.
  destruct l as [|x l]; [done|]. intros _. eexists. split; [done|].
  apply foldl_max_elem.
Qed.

Lemma py_max_visits_spec {A} (key : A → nat) (l : list A) s :
  l ≠ [] →
  ∃ x, py_max (λ a b, b <? a) key l s = Ok x s ∧ x ∈ l ∧
       ∀ y, y ∈ l → key y ≤ key x.
Proof.
  destruct l as [|x l]; [done|]. intros _. eexists. split; [done|].
  split; [apply (foldl_max_elem (λ a b, b <? a) key)|].
  destruct (foldl_max_ge key l x) as [H1 H2].
  intros y [-> | Hy]%elem_of_cons; auto.
Qed.

(** ** Selection *)

Lemma elem_of_child_ids (d : list (nat * nat)) j :
  j ∈ d.*2 ↔ ∃ m, (m, j) ∈ d.
Proof.
  rewrite list_elem_of_fmap. split.
  - intros ([m j'] & -> & Hin). by exists m.
  - intros (m & Hin). by exists (m, j).
Qed.

Lemma not_terminal_valid b :
  is_terminal_node b = false → get_valid_locations b ≠ [].
Proof.
  unfold is_terminal_node. rewrite !orb_false_iff. intros (_ & Hlen) E.
  by rewrite E in Hlen.
Qed.

Lemma fully_expanded_nil n : is_fully_expanded n = true → untried_moves n = [].
Proof.
  unfold is_fully_expanded. intros E%Nat.eqb_eq. by destruct (untried_moves n).
Qed.

Lemma not_fully_expanded n : is_fully_expanded n = false → untried_moves n ≠ [].
Proof.
  unfold is_fully_expanded. intros E%Nat.eqb_neq Hnil. by rewrite Hnil in E.
Qed.

Section Selection.
Context `{Scoring}.

Lemma best_uct_child_spec r0 L0 i s n :
  tree_ok r0 L0 (boards s) (nodes s) → counts_ok r0 (nodes s) →
  visited r0 (nodes s) → r0 ≤ i → nodes s !! i = Some n → children n ≠ [] →
  ∃ j, best_uct_child i s = Ok j s ∧ j ∈ (children n).*2.
Proof.
  intros [_ Htree] Hcnt Hvis Hi Hn Hch. unfold best_uct_child.
  mrun (get_node_eq _ _ _ Hn).
  set (g := λ item : nat * nat,
         (match nodes s !! item.2 with
          | Some c => uct_value (wins c) (visits c) (visits n)
          | None => float_inf
          end, item.2)).
  assert (mapM (uct_choice i) (children n) s = Ok (g <$> children n) s) as Hmap.
  { apply mapM_pure. intros [m j] Hin. unfold uct_choice, g. cbn [fst snd].
      destruct (ok_children _ _ _ _ _ _ (Htree i n Hi Hn) m j Hin)
        as (Hlt & c & Hc & Hpar).
      mrun (get_node_eq _ _ _ Hc). rewrite Hc.
      assert (1 ≤ visits c) as Hv by (apply (Hvis j); [lia|done]).
      destruct (Hcnt i n Hi Hn) as [_ Hle]. specialize (Hle m j c Hin Hc).
      destruct (visits c =? 0) eqn:E; [apply Nat.eqb_eq in E; lia|].
      mrun (get_node_eq _ _ _ Hn).
      destruct (visits n =? 0) eqn:E'; [apply Nat.eqb_eq in E'; lia|]. done. }
  mrun Hmap.
  destruct (py_max_spec float_gt fst (g <$> children n) s) as (best & Hbest & Hin).
  { by destruct (children n). }
  mrun Hbest. exists best.2. split; [done|].
  apply list_elem_of_fmap in Hin as ([m j] & -> & Hin).
  apply elem_of_child_ids. by exists m.
Qed.

Lemma select_spec r0 L0 fuel : ∀ i s n,
  tree_ok r0 L0 (boards s) (nodes s) → counts_ok r0 (nodes s) →
  visited r0 (nodes s) → r0 ≤ i → nodes s !! i = Some n →
  length (nodes s) - i < fuel →
  ∃ j nj b, select fuel i s = Ok j s ∧ i ≤ j ∧ nodes s !! j = Some nj ∧
    boards s !! board nj = Some b ∧
    (is_terminal_node b = true ∨ is_fully_expanded nj = false) ∧
    (∀ bi, boards s !! board n = Some bi → is_terminal_node bi = true → j = i).
Proof.
  induction fuel as [|fuel IH]; intros i s n Htree Hcnt Hvis Hi Hn Hfuel; [lia|].
  simpl. mrun (get_node_eq _ _ _ Hn).
  destruct (ok_board _ _ _ _ _ _ (proj2 Htree i n Hi Hn)) as (b & Hb & Hwf & _ & Hperm).
  mrun (get_board_eq _ _ _ Hb).
  destruct (is_terminal_node b) eqn:Hterm; cbn [negb andb].
  { exists i, n, b. repeat split; auto. }
  destruct (is_fully_expanded n) eqn:Hfull.
  2:{ exists i, n, b. repeat split; auto. }
  destruct (best_uct_child_spec r0 L0 i s n) as (j & Hrun & Hj); try done.
  { intros E. apply fully_expanded_nil in Hfull.
    rewrite Hfull, E in Hperm. simpl in Hperm.
    apply Permutation_nil_l in Hperm. by apply not_terminal_valid in Hterm. }
  mrun Hrun. apply elem_of_child_ids in Hj as (m & Hin).
  destruct (ok_children _ _ _ _ _ _ (proj2 Htree i n Hi Hn) m j Hin)
    as (Hlt & c & Hc & Hpar).
  destruct (IH j s c) as (j' & nj & b' & Hsel & Hle & Hnj & Hb' & Hstop & _);
    try done.
  - lia.
  - apply lookup_lt_Some in Hc. lia.
  - exists j', nj, b'. repeat split; try done; [lia|].
    intros bi Hbi Hti. rewrite Hb in Hbi. injection Hbi as <-. congruence.
Qed.

End Selection.

(** ** Expansion *)

Lemma piece_to_move_cases b :
  piece_to_move b = PLAYER_PIECE ∨ piece_to_move b = AI_PIECE.
Proof. unfold piece_to_move. destruct (Nat.even _); auto. Qed.

Lemma piece_to_move_nonzero b : piece_to_move b ≠ 0%Z.
Proof. by destruct (piece_to_move_cases b) as [-> | ->]. Qed.

Lemma alter_lookup_insert {A} (f : A → A) (l : list A) i x :
  l !! i = Some x → alter f i l = <[i := f x]> l.
Proof.
  intros Hx. apply list_eq. intros k. destruct (decide (i = k)) as [<- | Hne].
  - rewrite list_lookup_alter_eq, Hx.
    rewrite list_lookup_insert_eq by (by eapply lookup_lt_Some). done.
  - by rewrite list_lookup_alter_ne, list_lookup_insert_ne.
Qed.

Lemma untried_fresh r0 L0 bs ns i n mv :
  node_ok r0 L0 bs ns i n → mv ∈ untried_moves n →
  (mv ∉ (children n).*1) ∧
  ∃ b, bs !! board n = Some b ∧ mv ∈ get_valid_locations b.
Proof.
  intros Hok Hmv. destruct (ok_board _ _ _ _ _ _ Hok) as (b & Hb & _ & _ & Hperm).
  pose proof (NoDup_get_valid_locations b) as Hnd. rewrite <- Hperm in Hnd.
  apply NoDup_app in Hnd as (_ & Hdisj & _). split; [by apply Hdisj|].
  exists b. split; [done|]. rewrite <- Hperm. apply elem_of_app. by left.
Qed.

Section Expansion.
Context `{Scoring}.

Lemma Node_init_eq board_ref par mv pl b s :
  boards s !! board_ref = Some b →
  Node_init board_ref par mv pl s
  = Ok (length (nodes s))
       (set_nodes (λ ns, ns ++ [mkNode board_ref par [] (get_valid_locations b)
                                       0 0 mv pl]) s).
Proof.
  intros Hb. unfold Node_init. by mrun (get_board_eq _ _ _ Hb).
Qed.

Lemma expand_spec r0 L0 j s n b :
  tree_ok r0 L0 (boards s) (nodes s) → r0 ≤ j →
  nodes s !! j = Some n → boards s !! board n = Some b →
  is_fully_expanded n = false →
  ∃ mv r rest,
    (mv ∉ (children n).*1) ∧ untried_moves n ≡ₚ mv :: rest ∧
    mv ∈ get_valid_locations b ∧ get_next_open_row b mv = Some r ∧
    expand j s = Ok (length (nodes s)) (expanded s j n b mv r rest).
Proof.
  intros [_ Htree] Hj Hn Hb Hfull.
  pose proof (Htree j n Hj Hn) as Hok.
  destruct (ok_board _ _ _ _ _ _ Hok) as (b0 & Hb0 & Hwf & _ & _).
  rewrite Hb in Hb0. injection Hb0 as <-.
  destruct (random_choice_eq (untried_moves n) s) as (mv & Hmv & Hrc).
  { by apply not_fully_expanded. }
  destruct (untried_fresh _ _ _ _ _ _ mv Hok Hmv) as (Hfresh & b0 & Hb0 & Hvalid).
  rewrite Hb in Hb0. injection Hb0 as <-.
  destruct (valid_location_drop b mv Hwf Hvalid) as (r & Hrow & Hr & Hc & Hcell).
  destruct (list_remove_elem mv _ Hmv) as (rest & Hrem & Hperm).
  exists mv, r, rest. repeat split; try done.
  unfold expand. mrun (get_node_eq _ _ _ Hn). mrun Hrc.
  mrun_by (by apply get_board_eq).
  mrun_by (by eapply copy_board_eq). sstate.
  mrun_by (apply get_board_eq; sstate; apply lookup_snoc).
  rewrite Hrow.
  mrun_by (eapply drop_piece_eq; [sstate; apply lookup_snoc|done..]).
  sstate. rewrite insert_snoc.
  mrun_by (apply Node_init_eq; sstate; apply lookup_snoc). sstate.
  assert (j < length (nodes s)) as Hlt by (by eapply lookup_lt_Some).
  mrun_by (apply get_node_eq; sstate; by apply lookup_app_l_Some).
  rewrite Hrem.
  mrun_by (apply update_node_eq; sstate; rewrite length_app; lia). sstate.
  mrun_by (apply update_node_eq; sstate; rewrite length_alter, length_app; lia).
  sstate. unfold ret, expanded, expanded_parent, expanded_child, piece_to_move.
  cbv zeta. do 2 f_equal.
  rewrite list_alter_alter_eq, alter_app_l by done. f_equal.
  rewrite (alter_lookup_insert _ _ _ _ Hn). f_equal.
  unfold compose, with_children, with_untried_moves. cbn [children].
  by rewrite dict_set_fresh.
Qed.

End Expansion.

(** ** The tree shape under updates of the counters *)

Lemma same_shape_credit w n : same_shape n (credit w n).
Proof. done. Qed.

Lemma tree_ok_reshape r0 L0 bs ns ns' :
  tree_ok r0 L0 bs ns → length ns' = length ns →
  (∀ i n, ns !! i = Some n → ∃ n', ns' !! i = Some n' ∧ same_shape n n') →
  tree_ok r0 L0 bs ns'.
Proof.
  intros [Hroot Htree] Hlen Hsh. split; [lia|].
  intros i n' Hi Hn'.
  destruct (lookup_lt_is_Some_2 ns i) as [n Hn].
  { rewrite <- Hlen. by eapply lookup_lt_Some. }
  destruct (Hsh i n Hn) as (n2 & Hn2 & Hb & Hp & Hc & Hu & Hpl & Hmv).
  rewrite Hn' in Hn2. injection Hn2 as <-.
  destruct (Htree i n Hi Hn) as [Hboard Hchildren Hids Hmoves Hparent].
  split.
  - rewrite Hb, Hu, Hc. done.
  - rewrite Hc. intros m j Hin.
    destruct (Hchildren m j Hin) as (Hlt & c & Hcj & Hpar).
    split; [done|]. destruct (Hsh j c Hcj) as (c' & Hc' & _ & Hp' & _).
    exists c'. split; [done|]. by rewrite Hp'.
  - by rewrite Hc.
  - rewrite Hc. intros m j c' Hin Hc'.
    destruct (Hchildren m j Hin) as (_ & c & Hcj & _).
    destruct (Hsh j c Hcj) as (c2 & Hc2 & _ & _ & _ & _ & _ & Hmv2).
    rewrite Hc' in Hc2. injection Hc2 as <-. rewrite Hmv2. by eapply Hmoves.
  - rewrite Hp, Hpl. destruct (decide (i = r0)); [done|].
    destruct Hparent as (p & pn & Hpp & Hrange & Hpn & Hin).
    destruct (Hsh p pn Hpn) as (pn' & Hpn' & _ & _ & Hc' & _).
    exists p, pn'. by rewrite Hc'.
Qed.

Lemma credit_path_shape w l ns i n :
  ns !! i = Some n →
  ∃ n', credit_path w l ns !! i = Some n' ∧ same_shape n n'.
Proof.
  intros Hn. rewrite lookup_credit_path, Hn. eexists. split; [done|].
  by destruct (decide (i ∈ l)).
Qed.

Lemma tree_ok_credit r0 L0 bs ns w l :
  tree_ok r0 L0 bs ns → tree_ok r0 L0 bs (credit_path w l ns).
Proof.
  intros Htree. eapply tree_ok_reshape; [done|apply length_credit_path|].
  intros i n. apply credit_path_shape.
Qed.

Lemma tree_ok_more_boards r0 L0 bs ns extra :
  tree_ok r0 L0 bs ns → tree_ok r0 L0 (bs ++ extra) ns.
Proof.
  intros [Hroot Htree]. split; [done|]. intros i n Hi Hn.
  destruct (Htree i n Hi Hn) as [Hboard Hchildren Hids Hmoves Hparent].
  split; try done.
  destruct Hboard as (b & Hb & Hrest). exists b. split; [|done].
  by apply lookup_app_l_Some.
Qed.

Lemma visits_credit w n : visits (credit w n) = S (visits n).
Proof. done. Qed.

Lemma wins_credit w n :
  wins (credit w n) =
    match w with
    | Some p => if decide (player n = Some p) then S (wins n) else wins n
    | None => wins n
    end.
Proof.
  unfold credit. cbn [wins]. destruct w as [p|]; [|done].
  destruct (player n) as [q|].
  - destruct (Z.eqb_spec q p) as [-> | Hne].
    + by rewrite decide_True.
    + rewrite decide_False; [done|]. by intros [= ->].
  - by rewrite decide_False.
Qed.

Lemma wins_credit_le w n : wins n ≤ visits n → wins (credit w n) ≤ visits (credit w n).
Proof.
  intros Hle. rewrite wins_credit, visits_credit.
  destruct w; [destruct (decide _)|]; lia.
Qed.

Lemma counts_ok_credit r0 L0 bs ns w o l :
  tree_ok r0 L0 bs ns → chain ns o l → counts_ok r0 ns →
  counts_ok r0 (credit_path w l ns).
Proof.
  intros [_ Htree] Hchain Hcnt i n' Hi Hn'.
  rewrite lookup_credit_path in Hn'.
  destruct (ns !! i) as [n|] eqn:Hn; [|done]. injection Hn' as <-.
  destruct (Hcnt i n Hi Hn) as [Hwins Hkids]. split.
  - destruct (decide (i ∈ l)); [by apply wins_credit_le|done].
  - intros m j c' Hin Hc'.
    assert (children (if decide (i ∈ l) then credit w n else n) = children n)
      as Hch by (by destruct (decide _)).
    rewrite Hch in Hin.
    rewrite lookup_credit_path in Hc'.
    destruct (ns !! j) as [c|] eqn:Hc; [|done]. injection Hc' as <-.
    specialize (Hkids m j c Hin Hc).
    destruct (decide (j ∈ l)) as [Hj | Hj].
    + destruct (ok_children _ _ _ _ _ _ (Htree i n Hi Hn) m j Hin)
        as (_ & c2 & Hc2 & Hpar).
      rewrite Hc in Hc2. injection Hc2 as <-.
      rewrite decide_True by (by eapply chain_up).
      rewrite !visits_credit. lia.
    + destruct (decide (i ∈ l)); [rewrite visits_credit|]; lia.
Qed.

Lemma visited_credit r0 ns w l k :
  (∀ i n, r0 < i → i ≠ k → ns !! i = Some n → 1 ≤ visits n) → k ∈ l →
  visited r0 (credit_path w l ns).
Proof.
  intros Hvis Hk i n' Hi Hn'. rewrite lookup_credit_path in Hn'.
  destruct (ns !! i) as [n|] eqn:Hn; [|done]. injection Hn' as <-.
  destruct (decide (i ∈ l)) as [Hil | Hil]; [rewrite visits_credit; lia|].
  apply (Hvis i); [done| |done]. by intros ->.
Qed.

(** ** The parent chain of a tree node *)

Lemma tree_chain r0 L0 bs ns :
  tree_ok r0 L0 bs ns → ∀ k i n, i - r0 < k → r0 ≤ i → ns !! i = Some n →
  ∃ l, chain ns (Some i) l ∧ length l ≤ S (i - r0) ∧ i ∈ l ∧ r0 ∈ l ∧
    (∀ root, ns !! r0 = Some root → i ≠ r0 →
       ∃ c, c ∈ (children root).*2 ∧ c ∈ l ∧
            ∀ j, j ∈ (children root).*2 → j ∈ l → j = c).
Proof.
  intros [Hroot Htree]. induction k as [|k IH]; intros i n Hk Hi Hn; [lia|].
  pose proof (Htree i n Hi Hn) as Hok.
  pose proof (ok_parent _ _ _ _ _ _ Hok) as Hpar.
  destruct (decide (i = r0)) as [-> | Hne].
  - destruct Hpar as [Hpar _]. exists [r0]. split.
    { econstructor; [done|]. rewrite Hpar. constructor. }
    split; [simpl; lia|]. split; [by left|]. split; [by left|]. done.
  - destruct Hpar as (p & pn & Hp & Hrange & Hpn & Hin).
    destruct (IH p pn) as (l & Hchain & Hlen & Hpl & Hrl & Hvia);
      [lia|lia|done|].
    exists (i :: l). split; [econstructor; [done|by rewrite Hp] |].
    split; [simpl; lia|]. split; [by left|]. split; [by right|].
    intros root Hr _.
    destruct (decide (p = r0)) as [-> | Hpne].
    + rewrite Hpn in Hr. injection Hr as <-.
      exists i. split; [done|]. split; [by left|].
      intros j Hj [-> | Hjl]%elem_of_cons; [done|].
      pose proof (Htree r0 pn (le_n _) Hpn) as Hokr.
      pose proof (ok_parent _ _ _ _ _ _ Hokr) as Hparr.
      rewrite decide_True in Hparr by done. destruct Hparr as [Hparr _].
      inversion Hchain as [|? ? l' Hn' Hc']; subst.
      rewrite Hpn in Hn'. injection Hn' as <-.
      rewrite Hparr in Hc'. inversion Hc'; subst.
      apply list_elem_of_singleton in Hjl as ->.
      apply elem_of_child_ids in Hj as (m & Hj).
      destruct (ok_children _ _ _ _ _ _ Hokr m r0 Hj) as [Hlt _]. lia.
    + destruct (Hvia root Hr Hpne) as (c & Hc & Hcl & Huniq).
      exists c. split; [done|]. split; [by right|].
      intros j Hj [-> | Hjl]%elem_of_cons; [|by apply Huniq].
      apply elem_of_child_ids in Hj as (m & Hj).
      destruct (ok_children _ _ _ _ _ _ (Htree r0 root (le_n _) Hr) m i Hj)
        as (_ & c2 & Hc2 & Hpar2).
      rewrite Hn in Hc2. injection Hc2 as <-. congruence.
Qed.

(** ** Visits of the children of a node, summed *)

Lemma sum_list_cons x l : sum_list (x :: l) = x + sum_list l.
Proof. done. Qed.

Lemma visits_at_credit w l ns j :
  visits_at (credit_path w l ns) j =
    if decide (j ∈ l ∧ j < length ns) then S (visits_at ns j) else visits_at ns j.
Proof.
  unfold visits_at. rewrite lookup_credit_path.
  destruct (ns !! j) as [n|] eqn:Hn; simpl.
  - apply lookup_lt_Some in Hn.
    destruct (decide (j ∈ l)).
    + by rewrite decide_True.
    + rewrite decide_False; [done|]. tauto.
  - apply lookup_ge_None in Hn. rewrite decide_False; [done|]. lia.
Qed.

Lemma sum_credit_none w l ns ids :
  (∀ j, j ∈ ids → j ∉ l) →
  sum_list (visits_at (credit_path w l ns) <$> ids) = sum_list (visits_at ns <$> ids).
Proof.
  induction ids as [|a ids IH]; intros Hno; [done|].
  rewrite !fmap_cons. simpl. rewrite IH.
  - rewrite visits_at_credit, decide_False; [done|].
    intros [Ha _]. by apply (Hno a); [left|].
  - intros j Hj. apply Hno. by right.
Qed.

Lemma sum_credit_one w l ns ids c :
  NoDup ids → c ∈ ids → c ∈ l → c < length ns →
  (∀ j, j ∈ ids → j ∈ l → j = c) →
  sum_list (visits_at (credit_path w l ns) <$> ids)
  = S (sum_list (visits_at ns <$> ids)).
Proof.
  induction 1 as [|a ids Ha Hnd IH]; intros Hc Hcl Hlen Huniq.
  - by apply elem_of_nil in Hc.
  - rewrite !fmap_cons. simpl.
    destruct (decide (a = c)) as [-> | Hne].
    + rewrite visits_at_credit, decide_True by done.
      rewrite sum_credit_none; [done|].
      intros j Hj Hjl. assert (j = c) as -> by (apply Huniq; [by right|done]).
      done.
    + rewrite visits_at_credit, decide_False.
      2:{ intros [Hal _]. apply Hne, Huniq; [by left|done]. }
      rewrite IH; [lia| |done|done|].
      * apply elem_of_cons in Hc as [-> | Hc]; done.
      * intros j Hj. apply Huniq. by right.
Qed.

(** ** The tree shape under expansion *)

Section Expanded.
Variables (r0 L0 : nat) (s : state) (j : nat) (n : Node) (b : Board).
Variables (mv r : nat) (rest : list nat).
Hypothesis Htree : tree_ok r0 L0 (boards s) (nodes s).
Hypothesis Hj : r0 ≤ j.
Hypothesis Hn : nodes s !! j = Some n.
Hypothesis Hb : boards s !! board n = Some b.
Hypothesis Hfresh : mv ∉ (children n).*1.
Hypothesis Hrest : untried_moves n ≡ₚ mv :: rest.
Hypothesis Hvalid : mv ∈ get_valid_locations b.
Hypothesis Hrow : get_next_open_row b mv = Some r.

Let s' := expanded s j n b mv r rest.
Let K := length (nodes s).
Let b' := set_cell b r mv (piece_to_move b).

Lemma expanded_lookup_parent :
  nodes s' !! j = Some (expanded_parent n mv K rest).
Proof.
  unfold s', expanded. sstate. apply lookup_app_l_Some.
  apply list_lookup_insert_eq. by eapply lookup_lt_Some.
Qed.

Lemma expanded_lookup_child :
  nodes s' !! K
  = Some (expanded_child (length (boards s)) j b' mv (piece_to_move b)).
Proof.
  unfold s', expanded, K. sstate.
  rewrite <- (length_insert (nodes s) j (expanded_parent n mv (length (nodes s)) rest)) at 1.
  apply lookup_snoc.
Qed.

Lemma expanded_lookup_other i :
  i ≠ j → i ≠ K → nodes s' !! i = nodes s !! i.
Proof.
  intros Hij HiK. unfold s', expanded, K in *. sstate.
  destruct (decide (i < length (nodes s))) as [Hlt | Hge].
  - rewrite lookup_app_l by (by rewrite length_insert).
    by rewrite list_lookup_insert_ne.
  - rewrite !lookup_ge_None_2; [done|lia|].
    rewrite length_app, length_insert. simpl. lia.
Qed.

Lemma expanded_length : length (nodes s') = S K.
Proof.
  unfold s', expanded, K. sstate. rewrite length_app, length_insert. simpl. lia.
Qed.

Lemma expanded_old_node i c :
  nodes s !! i = Some c →
  ∃ c', nodes s' !! i = Some c' ∧ board c' = board c ∧ parent c' = parent c ∧
        player c' = player c ∧ visits c' = visits c ∧ wins c' = wins c ∧
        (∀ x, x ∈ children c → x ∈ children c') ∧ (i ≠ j → c' = c) ∧
        move c' = move c.
Proof.
  intros Hc. destruct (decide (i = j)) as [-> | Hne].
  - rewrite Hn in Hc. injection Hc as <-.
    exists (expanded_parent n mv K rest). split; [apply expanded_lookup_parent|].
    repeat split; try done. intros x Hx. cbn. apply elem_of_app. by left.
  - exists c. split.
    + rewrite expanded_lookup_other; [done..|].
      apply lookup_lt_Some in Hc. unfold K. lia.
    + done.
Qed.

Lemma expanded_boards a x : boards s !! a = Some x → boards s' !! a = Some x.
Proof. intros Ha. unfold s', expanded. sstate. by apply lookup_app_l_Some. Qed.

Lemma tree_ok_expanded : tree_ok r0 L0 (boards s') (nodes s').
Proof.
  destruct Htree as [Hroot Hnodes].
  pose proof (Hnodes j n Hj Hn) as Hokj.
  assert (j < K) as HjK by (by eapply lookup_lt_Some).
  destruct (ok_board _ _ _ _ _ _ Hokj) as (b0 & Hb0 & Hwf & HL0 & Hperm).
  rewrite Hb in Hb0. injection Hb0 as <-.
  split; [rewrite expanded_length; unfold K; lia|].
  intros i ni Hi Hni.
  destruct (decide (i = j)) as [-> | Hij]; [|destruct (decide (i = K)) as [-> | HiK]].
  - (* the expanded node *)
    rewrite expanded_lookup_parent in Hni. injection Hni as <-.
    destruct Hokj as [_ Hchildren Hids Hmoves Hparent]. split.
    + exists b. split; [by apply expanded_boards|]. split; [done|]. split; [done|].
      cbn. rewrite fmap_app. cbn. rewrite <- Hperm, Hrest.
      rewrite (Permutation_app_comm _ [mv]). simpl.
      by rewrite Permutation_middle.
    + cbn. intros m c [Hin | Hin]%elem_of_app.
      * destruct (Hchildren m c Hin) as (Hlt & cn & Hcn & Hpar).
        split; [done|]. exists cn. split; [|done].
        rewrite expanded_lookup_other; [done|lia|].
        apply lookup_lt_Some in Hcn. unfold K. lia.
      * apply list_elem_of_singleton in Hin. injection Hin as -> ->.
        split; [done|]. eexists. split; [apply expanded_lookup_child|done].
    + cbn. rewrite fmap_app. apply NoDup_app. split; [done|]. split.
      * intros x Hx [= ->]%list_elem_of_singleton.
        apply elem_of_child_ids in Hx as (m & Hx).
        destruct (Hchildren m _ Hx) as (_ & cn & Hcn & _).
        apply lookup_lt_Some in Hcn. unfold K in Hcn. lia.
      * apply NoDup_singleton.
    + unfold expanded_parent, with_children. cbn [children].
      intros m c cn [Hin | Hin]%elem_of_app Hcn.
      * destruct (Hchildren m c Hin) as (Hlt & cn0 & Hcn0 & _).
        rewrite expanded_lookup_other in Hcn; [by eapply Hmoves|lia|].
        apply lookup_lt_Some in Hcn0. unfold K. lia.
      * apply list_elem_of_singleton in Hin. injection Hin as Hm Hc.
        rewrite Hc, expanded_lookup_child in Hcn. injection Hcn as <-.
        by rewrite Hm.
    + cbn. destruct (decide (j = r0)); [done|].
      destruct Hparent as (p & pn & Hp & Hrange & Hpn & Hin).
      exists p, pn. repeat split; try done; try lia.
      rewrite expanded_lookup_other; [done|lia|lia].
  - (* the new child *)
    rewrite expanded_lookup_child in Hni. injection Hni as <-. split.
    + exists b'. cbn. split.
      { unfold s', expanded. sstate. apply lookup_snoc. }
      split; [by apply wf_board_set_cell|]. split.
      { apply lookup_lt_Some in Hb. lia. }
      by rewrite app_nil_r.
    + cbn. intros m c Hin. by apply elem_of_nil in Hin.
    + cbn. constructor.
    + cbn. intros m c cn Hin. by apply elem_of_nil in Hin.
    + cbn. rewrite decide_False by (unfold K; lia).
      exists j, (expanded_parent n mv K rest).
      split; [done|]. split; [lia|]. split; [apply expanded_lookup_parent|].
      cbn. rewrite fmap_app. apply elem_of_app. right. by left.
  - (* every other node *)
    rewrite expanded_lookup_other in Hni by done.
    destruct (Hnodes i ni Hi Hni) as [Hboard Hchildren Hids Hmoves Hparent]. split.
    + destruct Hboard as (bi & Hbi & Hrest'). exists bi.
      split; [by apply expanded_boards|done].
    + intros m c Hin. destruct (Hchildren m c Hin) as (Hlt & cn & Hcn & Hpar).
      split; [done|].
      destruct (expanded_old_node c cn Hcn) as (cn' & Hcn' & _ & Hpar' & _).
      exists cn'. split; [done|]. by rewrite Hpar'.
    + done.
    + intros m c cn' Hin Hcn'.
      destruct (Hchildren m c Hin) as (_ & cn & Hcn & _).
      destruct (expanded_old_node c cn Hcn)
        as (cn2 & Hcn2 & _ & _ & _ & _ & _ & _ & _ & Hmv2).
      rewrite Hcn' in Hcn2. injection Hcn2 as <-. rewrite Hmv2. by eapply Hmoves.
    + destruct (decide (i = r0)); [done|].
      destruct Hparent as (p & pn & Hp & Hrange & Hpn & Hin).
      destruct (expanded_old_node p pn Hpn) as (pn' & Hpn' & _ & _ & _ & _ & _ & Hsub & _).
      exists p, pn'. repeat split; try done; try lia.
      apply elem_of_child_ids in Hin as (m & Hin).
      apply elem_of_child_ids. exists m. by apply Hsub.
Qed.

Lemma counts_ok_expanded : counts_ok r0 (nodes s) → counts_ok r0 (nodes s').
Proof.
  intros Hcnt i ni Hi Hni.
  destruct Htree as [Hroot Hnodes].
  assert (j < K) as HjK by (by eapply lookup_lt_Some).
  destruct (decide (i = K)) as [-> | HiK].
  { rewrite expanded_lookup_child in Hni. injection Hni as <-. cbn.
    split; [done|]. intros m c cn Hin. by apply elem_of_nil in Hin. }
  assert (∃ n0, nodes s !! i = Some n0 ∧ visits ni = visits n0 ∧
                wins ni = wins n0 ∧
                ∀ m c, (m, c) ∈ children ni → (m, c) ∈ children n0 ∨ c = K)
    as (n0 & Hn0 & Hv & Hw & Hkids).
  { destruct (decide (i = j)) as [-> | Hij].
    - rewrite expanded_lookup_parent in Hni. injection Hni as <-.
      exists n. repeat split; try done. cbn.
      intros m c [Hin | Hin]%elem_of_app; [by left|].
      apply list_elem_of_singleton in Hin. injection Hin as -> ->. by right.
    - rewrite expanded_lookup_other in Hni by done. exists ni. auto. }
  destruct (Hcnt i n0 Hi Hn0) as [Hwins Hle]. split; [lia|].
  intros m c cn Hin Hcn. destruct (Hkids m c Hin) as [Hold | ->].
  - destruct (ok_children _ _ _ _ _ _ (Hnodes i n0 Hi Hn0) m c Hold)
      as (_ & c0 & Hc0 & _).
    destruct (expanded_old_node c c0 Hc0) as (c0' & Hc0' & _ & _ & _ & Hvc & _).
    rewrite Hcn in Hc0'. injection Hc0' as <-.
    specialize (Hle m c c0 Hold Hc0). lia.
  - rewrite expanded_lookup_child in Hcn. injection Hcn as <-. cbn. lia.
Qed.

Lemma visited_expanded :
  visited r0 (nodes s) →
  ∀ i ni, r0 < i → i ≠ K → nodes s' !! i = Some ni → 1 ≤ visits ni.
Proof.
  intros Hvis i ni Hi HiK Hni.
  assert (i < K) as Hlt.
  { apply lookup_lt_Some in Hni. rewrite expanded_length in Hni. lia. }
  destruct (lookup_lt_is_Some_2 (nodes s) i Hlt) as [n0 Hn0].
  destruct (expanded_old_node i n0 Hn0) as (n0' & Hn0' & _ & _ & _ & Hv & _).
  rewrite Hni in Hn0'. injection Hn0' as <-. rewrite Hv. by apply (Hvis i).
Qed.

Lemma visits_at_expanded i :
  visits_at (nodes s') i = if decide (i = K) then 0 else visits_at (nodes s) i.
Proof.
  unfold visits_at. destruct (decide (i = K)) as [-> | HiK].
  - by rewrite expanded_lookup_child.
  - destruct (nodes s !! i) as [n0|] eqn:Hn0.
    + destruct (expanded_old_node i n0 Hn0) as (n0' & -> & _ & _ & _ & Hv & _).
      done.
    + rewrite expanded_lookup_other; [by rewrite Hn0|..|done].
      intros ->. by rewrite Hn in Hn0.
Qed.

Lemma children_visits_expanded root root' :
  nodes s !! r0 = Some root → nodes s' !! r0 = Some root' →
  children_visits (nodes s') root' = children_visits (nodes s) root.
Proof.
  intros Hr Hr'. destruct Htree as [Hroot Hnodes].
  assert (∀ ids, (∀ x, x ∈ ids → x ≠ K) →
            sum_list (visits_at (nodes s') <$> ids)
            = sum_list (visits_at (nodes s) <$> ids)) as Hsame.
  { induction ids as [|a ids IH]; intros Hne; [done|].
    rewrite !fmap_cons, !sum_list_cons.
    rewrite IH by (intros x Hx; apply Hne; by right).
    rewrite visits_at_expanded, decide_False; [done|]. apply Hne. by left. }
  assert (∀ x, x ∈ (children root).*2 → x ≠ K) as Hold.
  { intros x (m & Hx)%elem_of_child_ids ->.
    destruct (ok_children _ _ _ _ _ _ (Hnodes r0 root (le_n _) Hr) m _ Hx)
      as (_ & c & Hc & _).
    apply lookup_lt_Some in Hc. unfold K in Hc. lia. }
  unfold children_visits.
  destruct (decide (r0 = j)) as [E | Hne].
  - rewrite E in Hr, Hr'. rewrite Hn in Hr. injection Hr as <-.
    rewrite expanded_lookup_parent in Hr'. injection Hr' as <-.
    unfold expanded_parent, with_children. cbn [children].
    rewrite !fmap_app, sum_list_with_app, Hsame by done.
    rewrite !fmap_cons, sum_list_cons. cbn [snd].
    rewrite visits_at_expanded, decide_True by done. cbn. lia.
  - rewrite expanded_lookup_other in Hr'; [|done|lia].
    rewrite Hr in Hr'. injection Hr' as <-. by apply Hsame.
Qed.

End Expanded.

(** ** One iteration, and all of them *)

Lemma mid_inv_stay s0 b0 k s j nj bj :
  search_inv s0 b0 k s → length (nodes s0) ≤ j →
  nodes s !! j = Some nj → boards s !! board nj = Some bj →
  is_terminal_node bj = true →
  (is_terminal_node b0 = true → j = length (nodes s0)) →
  mid_inv s0 b0 k s j.
Proof.
  intros [Hbs Htape Hrb Htree Hcnt Hvis Hroot Hgrav Hsize] Hj Hnj Hbj Hterm Hsel.
  split; try done.
  - intros i n Hi _ Hn. by apply (Hvis i).
  - split; [done|]. by eapply lookup_lt_Some.
  - destruct Hroot as (root & Hr & Hbr & Hv & Hsum & Hleaf).
    exists root. repeat split; try done.
    + by apply Hsum.
    + intros ->. rewrite Hr in Hnj. injection Hnj as <-.
      rewrite Hbr, Hrb in Hbj. injection Hbj as <-. congruence.
    + by apply Hleaf.
    + by apply Hleaf.
    + by apply Hsel.
  - lia.
Qed.

Lemma mid_inv_expanded s0 b0 k s j nj bj mv r rest :
  search_inv s0 b0 k s → length (nodes s0) ≤ j →
  nodes s !! j = Some nj → boards s !! board nj = Some bj →
  is_terminal_node bj = false →
  (is_terminal_node b0 = true → j = length (nodes s0)) →
  (mv ∉ (children nj).*1) → untried_moves nj ≡ₚ mv :: rest →
  mv ∈ get_valid_locations bj → get_next_open_row bj mv = Some r →
  mid_inv s0 b0 k (expanded s j nj bj mv r rest) (length (nodes s)).
Proof.
  intros [Hbs Htape Hrb Htree Hcnt Hvis Hroot Hgrav Hsize]
         Hj Hnj Hbj Hterm Hsel Hfresh Hrest Hvalid Hrow.
  destruct Hroot as (root & Hr & Hbr & Hv & Hsum & Hleaf).
  assert (is_terminal_node b0 = false) as Hnt.
  { destruct (is_terminal_node b0) eqn:E; [|done].
    rewrite (Hsel eq_refl) in Hnj. rewrite Hr in Hnj. injection Hnj as <-.
    rewrite Hbr, Hrb in Hbj. injection Hbj as <-. congruence. }
  destruct (expanded_old_node _ s j nj bj mv r rest Hj Hnj _ root Hr)
    as (root' & Hr' & Hbr' & _ & _ & Hv' & _).
  pose proof (expanded_length _ s j nj bj mv r rest Hj) as Hlen.
  split.
  - etrans; [exact Hbs|]. by apply prefix_app_r.
  - done.
  - by eapply expanded_boards.
  - by eapply tree_ok_expanded.
  - by eapply counts_ok_expanded.
  - intros i n Hi Hne Hn. by eapply (visited_expanded _ s j nj bj mv r rest).
  - rewrite Hlen. apply lookup_lt_Some in Hnj. lia.
  - exists root'. split; [done|]. split; [congruence|]. split; [congruence|].
    split; [|congruence]. intros _. split.
    + rewrite (children_visits_expanded _ _ s j nj bj mv r rest Htree Hj Hnj root root')
        by done. by apply Hsum.
    + apply lookup_lt_Some in Hr. lia.
  - intros Hg a b Ha Hb. unfold expanded in Hb. sstate.
    apply lookup_app_Some in Hb as [Hb | [_ Hb]]; [by eapply Hgrav|].
    apply list_lookup_singleton_Some in Hb as [_ <-].
    destruct (ok_board _ _ _ _ _ _ (proj2 Htree j nj Hj Hnj))
      as (b1 & Hb1 & Hwf & HL0 & _).
    rewrite Hbj in Hb1. injection Hb1 as <-.
    apply elem_of_get_valid_locations in Hvalid as Hmv.
    apply gravity_packed_drop; try done; [|tauto|apply piece_to_move_nonzero].
    by eapply Hgrav.
  - rewrite Hlen. lia.
Qed.

Section Iterations.
Context `{Scoring}.

Lemma finish_spec s0 b0 k s1 k1 fuel :
  mid_inv s0 b0 k s1 k1 → ROW_COUNT * COLUMN_COUNT < fuel → k + 2 ≤ fuel →
  ∃ s',
    (n <- get_node k1 ;;
     b <- get_board (board n) ;;
     winner <- simulate_random_playout fuel (board n) (Some (piece_to_move b)) ;;
     backpropagate fuel (Some k1) winner) s1 = Ok tt s' ∧
    search_inv s0 b0 (S k) s'.
Proof.
  intros [Hbs Htape Hrb Htree Hcnt Hvis [Hk1 Hk1'] Hroot Hgrav Hsize] Hfuel Hfuel'.
  destruct (lookup_lt_is_Some_2 _ _ Hk1') as [n1 Hn1].
  destruct (ok_board _ _ _ _ _ _ (proj2 Htree k1 n1 Hk1 Hn1))
    as (b1 & Hb1 & Hwf1 & HL1 & _).
  mrun (get_node_eq _ _ _ Hn1). mrun (get_board_eq _ _ _ Hb1).
  destruct (simulate_random_playout_spec fuel (board n1) (piece_to_move b1) s1 b1)
    as (w & bf & d' & Hsim & Hwff & Hgf & Hdraw); try done.
  { apply piece_to_move_cases. }
  mrun Hsim.
  destruct (tree_chain _ _ _ _ Htree (S (k1 - length (nodes s0))) k1 n1)
    as (l & Hchain & Hlen & Hk1l & Hr0l & Hvia); [lia|done|done|].
  rewrite (backpropagate_spec w l); [|done|lia].
  eexists. split; [done|]. sstate.
  destruct Hroot as (root & Hr & Hbr & Hv & Hsum & Hleaf).
  split; sstate.
  - etrans; [exact Hbs|]. by apply prefix_app_r.
  - done.
  - by apply lookup_app_l_Some.
  - by apply tree_ok_credit, tree_ok_more_boards.
  - by eapply counts_ok_credit.
  - by eapply visited_credit.
  - exists (credit w root). split.
    { rewrite lookup_credit_path, Hr. cbn. by rewrite decide_True. }
    split; [done|]. split; [by rewrite visits_credit, Hv|]. split.
    + intros Hnt. destruct (Hsum Hnt) as [Hs Hne].
      destruct (Hvia root Hr) as (c & Hc & Hcl & Huniq); [congruence|].
      unfold children_visits in *. cbn [credit children].
      rewrite (sum_credit_one w l (nodes s1) _ c); [by rewrite Hs| |done|done| |done].
      * exact (ok_child_ids _ _ _ _ _ _ (proj2 Htree _ root (le_n _) Hr)).
      * apply elem_of_child_ids in Hc as (m & Hc).
        destruct (ok_children _ _ _ _ _ _ (proj2 Htree _ root (le_n _) Hr) m c Hc)
          as (_ & cn & Hcn & _).
        by eapply lookup_lt_Some.
    + intros Ht. destruct (Hleaf Ht) as (Hnil & Hd & ->). split; [done|].
      rewrite Hr in Hn1. injection Hn1 as <-.
      rewrite Hbr, Hrb in Hb1. injection Hb1 as <-.
      rewrite Hdraw; done.
  - intros Hg a b Ha Hb.
    apply lookup_app_Some in Hb as [Hb | [_ Hb]]; [by eapply Hgrav|].
    apply list_lookup_singleton_Some in Hb as [_ <-].
    apply Hgf. by eapply (Hgrav Hg (board n1)).
  - rewrite length_credit_path. lia.
Qed.

Lemma iteration_spec s0 b0 k s fuel :
  search_inv s0 b0 k s → ROW_COUNT * COLUMN_COUNT < fuel → k + 2 ≤ fuel →
  ∃ s', iteration fuel (length (nodes s0)) s = Ok tt s' ∧
        search_inv s0 b0 (S k) s'.
Proof.
  intros Hinv Hfuel Hfuel'.
  pose proof Hinv as [Hbs Htape Hrb Htree Hcnt Hvis Hroot Hgrav Hsize].
  destruct Hroot as (root & Hr & Hbr & Hv & Hsum & Hleaf).
  destruct (select_spec (length (nodes s0)) (length (boards s0)) fuel
              (length (nodes s0)) s root)
    as (j & nj & bj & Hsel & Hj & Hnj & Hbj & Hstop & Hterm0); try done.
  { lia. }
  assert (is_terminal_node b0 = true → j = length (nodes s0)) as Hsel0.
  { intros Ht. apply (Hterm0 b0); [by rewrite Hbr|done]. }
  unfold iteration. mrun Hsel.
  mrun (get_node_eq _ _ _ Hnj). mrun (get_board_eq _ _ _ Hbj).
  destruct (is_terminal_node bj) eqn:Htj; cbn [negb].
  - mrun_by reflexivity.
    apply finish_spec; [|done..]. by eapply mid_inv_stay.
  - destruct Hstop as [|Hfull]; [done|]. rewrite Hfull. cbn [negb].
    destruct (expand_spec _ _ j s nj bj Htree Hj Hnj Hbj Hfull)
      as (mv & r & rest & Hfresh & Hrest & Hvalid & Hrow & Hexp).
    mrun Hexp.
    apply finish_spec; [|done..]. by eapply mid_inv_expanded.
Qed.

Lemma for_range_spec s0 b0 fuel n : ∀ k s,
  search_inv s0 b0 k s → ROW_COUNT * COLUMN_COUNT < fuel → k + n < fuel →
  ∃ s', for_range n (iteration fuel (length (nodes s0))) s = Ok tt s' ∧
        search_inv s0 b0 (k + n) s'.
Proof.
  induction n as [|n IH]; intros k s Hinv Hfuel Hfuel'.
  - exists s. rewrite Nat.add_0_r. done.
  - destruct (iteration_spec s0 b0 k s fuel Hinv Hfuel) as (s1 & Hit & Hinv1); [lia|].
    destruct (IH (S k) s1 Hinv1 Hfuel) as (s' & Hrun & Hinv'); [lia|].
    exists s'. split.
    + simpl. by mrun Hit.
    + by replace (k + S n) with (S k + n) by lia.
Qed.

Lemma search_inv_init s0 rb b0 :
  boards s0 !! rb = Some b0 → wf_board b0 →
  search_inv s0 b0 0
    (mkState (boards s0 ++ [b0])
       (nodes s0 ++ [mkNode (length (boards s0)) None []
                            (get_valid_locations b0) 0 0 None None])
       (tape s0) (drawn s0)).
Proof.
  intros Hb Hwf.
  set (root := mkNode (length (boards s0)) None [] (get_valid_locations b0)
                      0 0 None None).
  assert (∀ i n, length (nodes s0) ≤ i → (nodes s0 ++ [root]) !! i = Some n →
            i = length (nodes s0) ∧ n = root) as Honly.
  { intros i n Hi Hn. apply lookup_app_Some in Hn as [Hn | [_ Hn]].
    - apply lookup_lt_Some in Hn. lia.
    - apply list_lookup_singleton_Some in Hn as [? <-]. split; [lia|done]. }
  split; sstate.
  - by apply prefix_app_r.
  - done.
  - apply lookup_snoc.
  - split; [rewrite length_app; simpl; lia|].
    intros i n Hi Hn. destruct (Honly i n Hi Hn) as [-> ->]. split; cbn.
    + exists b0. split; [apply lookup_snoc|]. by rewrite app_nil_r.
    + intros m j Hin. by apply elem_of_nil in Hin.
    + constructor.
    + intros m j c Hin. by apply elem_of_nil in Hin.
    + by rewrite decide_True.
  - intros i n Hi Hn. destruct (Honly i n Hi Hn) as [-> ->]. cbn.
    split; [done|]. intros m j c Hin. by apply elem_of_nil in Hin.
  - intros i n Hi Hn. destruct (Honly i n (Nat.lt_le_incl _ _ Hi) Hn) as [-> _]. lia.
  - exists root. split; [apply lookup_snoc|]. done.
  - intros Hg a b Ha Hba. apply lookup_app_Some in Hba as [Hba | [_ Hba]].
    + apply lookup_lt_Some in Hba. lia.
    + by apply list_lookup_singleton_Some in Hba as [_ <-].
  - rewrite length_app. simpl. lia.
Qed.

Lemma MCTS_tree_spec fuel rb n s0 b0 :
  boards s0 !! rb = Some b0 → wf_board b0 →
  ROW_COUNT * COLUMN_COUNT < fuel → n < fuel →
  ∃ s, MCTS_tree fuel rb n s0 = Ok (length (nodes s0)) s ∧ search_inv s0 b0 n s.
Proof.
  intros Hb Hwf Hfuel Hfuel'. unfold MCTS_tree.
  mrun (copy_board_eq _ _ _ Hb).
  mrun_by (apply Node_init_eq; sstate; apply lookup_snoc). sstate.
  destruct (for_range_spec s0 b0 fuel n 0 _ (search_inv_init s0 rb b0 Hb Hwf))
    as (s & Hrun & Hinv); [done|lia|].
  mrun Hrun. by exists s.
Qed.

End Iterations.

(** ** Rates *)

Lemma true_div_bounds a b : a ≤ b → 0 < b → (0 <= true_div a b <= 1)%Q.
Proof.
  intros Hab Hb. unfold true_div, Qle. cbn [Qnum Qden].
  lia.
Qed.

Lemma true_div_same b : 0 < b → (true_div b b == 1)%Q.
Proof.
  intros Hb. unfold true_div, Qeq. cbn [Qnum Qden].
  lia.
Qed.

Lemma stat_of_in_range max_visits c :
  wins c ≤ visits c → visits c ≤ max_visits → rates_in_range (stat_of max_visits c).
Proof.
  intros Hw Hv. unfold rates_in_range, stat_of.
  cbn [stat_win_rate stat_visits_ratio].
  assert (0 <= 0 <= 1)%Q as Hzero by (split; unfold Qle; simpl; lia).
  split.
  - destruct (0 <? visits c) eqn:E; [|done].
    apply Nat.ltb_lt in E. by apply true_div_bounds.
  - destruct (0 <? max_visits) eqn:E; [|done].
    apply Nat.ltb_lt in E. by apply true_div_bounds.
Qed.

(** ** Dictionaries with distinct keys *)

Lemma foldl_dict_set_fresh {V} (entries acc : list (nat * V)) :
  NoDup (acc.*1 ++ entries.*1) →
  foldl (λ d e, dict_set e.1 e.2 d) acc entries = acc ++ entries.
Proof.
  revert acc. induction entries as [|[k v] entries IH]; intros acc Hnd; simpl.
  - by rewrite app_nil_r.
  - rewrite dict_set_fresh.
    + rewrite IH; [by rewrite <- app_assoc|].
      rewrite fmap_app, <- app_assoc. done.
    + rewrite fmap_cons in Hnd. apply NoDup_app in Hnd as (_ & Hdisj & _).
      intros Hk. apply (Hdisj k Hk). by left.
Qed.

Lemma dict_get_NoDup {V} k (v : V) d :
  NoDup d.*1 → (k, v) ∈ d → dict_get k d = Some v.
Proof.
  induction d as [|[k' v'] d IH]; intros Hnd Hin; [by apply elem_of_nil in Hin|].
  rewrite fmap_cons in Hnd. apply NoDup_cons in Hnd as [Hk' Hnd].
  simpl. apply elem_of_cons in Hin as [[= -> ->] | Hin].
  - by rewrite decide_True.
  - rewrite decide_False; [by apply IH|].
    intros ->. apply Hk'. apply list_elem_of_fmap. by exists (k', v).
Qed.

(** ** The move and the statistics *)

Section Choice.
Context `{Scoring}.

Lemma choose_move_fallback s0 b0 k s rb root :
  search_inv s0 b0 k s → boards s0 !! rb = Some b0 →
  nodes s !! length (nodes s0) = Some root → children root = [] →
  choose_move rb (length (nodes s0)) s
  = (col <- random_choice (get_valid_locations b0) ;; ret (Some col, [])) s.
Proof.
  intros Hinv Hrb Hr Hnil. unfold choose_move.
  mrun (get_node_eq _ _ _ Hr). rewrite Hnil. cbn [length Nat.eqb].
  mrun_by (apply get_board_eq; eapply prefix_lookup_Some;
           [exact Hrb|apply (inv_boards _ _ _ _ Hinv)]).
  done.
Qed.

Lemma choose_move_best s0 b0 k s rb root :
  search_inv s0 b0 k s →
  nodes s !! length (nodes s0) = Some root → children root ≠ [] →
  ∃ m j best,
    (m, j) ∈ children root ∧ nodes s !! j = Some best ∧
    (∀ m' j' c, (m', j') ∈ children root → nodes s !! j' = Some c →
                visits c ≤ visits best) ∧
    1 ≤ visits best ∧
    choose_move rb (length (nodes s0)) s
    = Ok (Some m,
          (λ item, (item.1, stat_of (visits best)
                              (default best (nodes s !! item.2))))
            <$> children root) s.
Proof.
  intros Hinv Hr Hne.
  pose proof (inv_tree _ _ _ _ Hinv) as [_ Htree].
  pose proof (Htree _ root (le_n _) Hr) as Hok.
  assert (∀ item, item ∈ children root →
            ∃ c, nodes s !! item.2 = Some c ∧ move c = Some item.1 ∧
                 1 ≤ visits c) as Hkid.
  { intros [m j] Hin. cbn [fst snd].
    destruct (ok_children _ _ _ _ _ _ Hok m j Hin) as (Hlt & c & Hc & _).
    exists c. split; [done|]. split; [by eapply (ok_moves _ _ _ _ _ _ Hok)|].
    by apply (inv_visited _ _ _ _ Hinv j). }
  unfold choose_move. mrun (get_node_eq _ _ _ Hr).
  destruct (length (children root) =? 0) eqn:Hlen.
  { apply Nat.eqb_eq in Hlen. by destruct (children root). }
  (* best_child_by_visits *)
  set (key := λ item : nat * nat, (visits_at (nodes s) item.2, item.2)).
  assert (mapM visit_key (children root) s = Ok (key <$> children root) s)
    as Hkeys.
  { apply mapM_pure. intros item Hin. destruct (Hkid item Hin) as (c & Hc & _).
    unfold visit_key, key, visits_at. mrun (get_node_eq _ _ _ Hc).
    by rewrite Hc. }
  destruct (py_max_visits_spec fst (key <$> children root) s)
    as (bk & Hmax & Hbk & Hge).
  { by destruct (children root). }
  apply list_elem_of_fmap in Hbk as ([m j] & -> & Hin).
  destruct (Hkid _ Hin) as (best & Hbest & Hmove & Hvis). cbn [fst snd] in *.
  assert (∀ m' j' c, (m', j') ∈ children root → nodes s !! j' = Some c →
            visits c ≤ visits best) as Hmost.
  { intros m' j' c Hin' Hc.
    specialize (Hge (key (m', j'))). unfold key, visits_at in Hge.
    cbn [fst snd] in Hge. rewrite Hc, Hbest in Hge. apply Hge.
    apply list_elem_of_fmap. exists (m', j'). split; [|done].
    cbn [snd]. by rewrite Hc. }
  assert (best_child_by_visits (length (nodes s0)) s = Ok j s) as Hbc.
  { unfold best_child_by_visits.
    mrun (get_node_eq _ _ _ Hr). mrun Hkeys. by mrun Hmax. }
  mrun Hbc.
  (* the maximum of the visit counts *)
  mrun (get_node_eq _ _ _ Hr).
  assert (mapM child_visits (children root) s
          = Ok ((λ item, visits_at (nodes s) item.2) <$> children root) s)
    as Hvs.
  { apply mapM_pure. intros item Hin'. destruct (Hkid item Hin') as (c & Hc & _).
    unfold child_visits, visits_at. mrun (get_node_eq _ _ _ Hc). by rewrite Hc. }
  mrun Hvs.
  destruct (py_max_visits_spec id
              ((λ item, visits_at (nodes s) item.2) <$> children root) s)
    as (mx & Hmx & Hmxin & Hmxge).
  { by destruct (children root). }
  mrun Hmx.
  assert (mx = visits best) as ->.
  { apply Nat.le_antisymm.
    - apply list_elem_of_fmap in Hmxin as ([m' j'] & -> & Hin').
      destruct (Hkid _ Hin') as (c & Hc & _). cbn [snd] in *.
      unfold visits_at. rewrite Hc. cbn. by eapply Hmost.
    - apply (Hmxge (visits best)). apply list_elem_of_fmap. exists (m, j).
      split; [|done]. unfold visits_at. cbn [snd]. by rewrite Hbest. }
  (* the statistics *)
  mrun (get_node_eq _ _ _ Hr).
  set (entry := λ item : nat * nat,
         (item.1, stat_of (visits best) (default best (nodes s !! item.2)))).
  assert (mapM (stat_entry (visits best)) (children root) s
          = Ok (entry <$> children root) s) as Hentries.
  { apply mapM_pure. intros item Hin'. destruct (Hkid item Hin') as (c & Hc & _).
    unfold stat_entry, entry. mrun (get_node_eq _ _ _ Hc). by rewrite Hc. }
  mrun Hentries. mrun (get_node_eq _ _ _ Hbest).
  exists m, j, best. repeat split; try done.
  unfold ret. rewrite Hmove. do 2 f_equal.
  rewrite foldl_dict_set_fresh; [done|]. cbn [fmap list_fmap app].
  replace ((entry <$> children root).*1) with ((children root).*1).
  2:{ rewrite <- list_fmap_compose. done. }
  destruct (ok_board _ _ _ _ _ _ Hok) as (b & _ & _ & _ & Hperm).
  pose proof (NoDup_get_valid_locations b) as Hnd. rewrite <- Hperm in Hnd.
  by apply NoDup_app in Hnd as (_ & _ & Hnd).
Qed.

End Choice.

(** ** Ancestors, computed *)

Lemma ancestors_chain fuel : ∀ ns o l,
  ancestors fuel ns o = Some l → chain ns o l ∧ length l ≤ fuel.
Proof.
  induction fuel as [|fuel IH]; intros ns [i|] l; simpl.
  - done.
  - intros [= <-]. split; [constructor|simpl; lia].
  - destruct (ns !! i) as [n|] eqn:Hn; [|done].
    destruct (ancestors fuel ns (parent n)) as [l'|] eqn:Hl'; [|done].
    intros [= <-]. destruct (IH _ _ _ Hl') as [Hc Hlen].
    split; [by econstructor|simpl; lia].
  - intros [= <-]. split; [constructor|simpl; lia].
Qed.

Lemma chain_ends_at_root ns i l :
  chain ns (Some i) l →
  head l = Some i ∧
  ∃ r root, last l = Some r ∧ ns !! r = Some root ∧ parent root = None.
Proof.
  intros Hc. split; [by inversion Hc|].
  remember (Some i) as o eqn:Ho. revert i Ho.
  induction Hc as [|i n l Hn Hc IH]; intros i' Ho; [done|].
  destruct (parent n) as [p|] eqn:Hp.
  - destruct (IH p eq_refl) as (r & root & Hlast & Hr & Hroot).
    exists r, root. split; [|done].
    destruct l; [done|]. done.
  - inversion Hc; subst. exists i, n. done.
Qed.

Section Results.
Context `{Scoring}.

Lemma choose_move_frame s0 b0 k s rb res s' :
  search_inv s0 b0 k s → boards s0 !! rb = Some b0 →
  choose_move rb (length (nodes s0)) s = Ok res s' →
  nodes s' = nodes s ∧ boards s' = boards s.
Proof.
  intros Hinv Hrb Hrun.
  destruct (inv_root _ _ _ _ Hinv) as (root & Hr & _).
  destruct (decide (children root = [])) as [Hnil | Hne].
  - rewrite (choose_move_fallback s0 b0 k s rb root) in Hrun by done.
    apply bind_Ok_inv in Hrun as (col & s1 & Hrc & Hret).
    injection Hret as _ <-. by apply random_choice_inv in Hrc as [_ ->].
  - destruct (choose_move_best s0 b0 k s rb root Hinv Hr Hne)
      as (m & j & best & _ & _ & _ & _ & Heq).
    rewrite Heq in Hrun. by injection Hrun as _ <-.
Qed.

End Results.

(** * The properties of the search *)

Section Claims.
Context `{Scoring}.

(** C1: for every well-formed input board and every iteration budget [N],
    the iterations of [MCTS_Search] run to completion and leave the root
    (the node without parent) with [visits = N]; the selection of the
    move afterwards does not touch the nodes. *)
Theorem root_visits_equal_iterations fuel rb N s0 b0 :
  boards s0 !! rb = Some b0 → wf_board b0 →
  ROW_COUNT * COLUMN_COUNT < fuel → N < fuel →
  ∃ s root,
    MCTS_tree fuel rb N s0 = Ok (length (nodes s0)) s ∧
    nodes s !! length (nodes s0) = Some root ∧
    parent root = None ∧ visits root = N ∧
    ∀ res s', MCTS_Search fuel rb N s0 = Ok res s' →
              nodes s' !! length (nodes s0) = Some root.
Proof.
  intros Hrb Hwf Hfuel HN.
  destruct (MCTS_tree_spec fuel rb N s0 b0 Hrb Hwf Hfuel HN) as (s & Hrun & Hinv).
  destruct (inv_root _ _ _ _ Hinv) as (root & Hr & _ & Hv & _).
  exists s, root. repeat split; try done.
  - pose proof (ok_parent _ _ _ _ _ _
                  (proj2 (inv_tree _ _ _ _ Hinv) _ root (le_n _) Hr)) as Hp.
    rewrite decide_True in Hp by done. tauto.
  - intros res s' Hsearch. unfold MCTS_Search in Hsearch.
    rewrite (bind_eq _ _ _ _ _ Hrun) in Hsearch.
    destruct (choose_move_frame _ _ _ _ _ _ _ Hinv Hrb Hsearch) as [-> _]. done.
Qed.

(** C2: on a well-formed board with at least one legal column
    [MCTS_Search] returns normally, whatever the iteration budget and
    the random source, and the column it returns is one of
    [get_valid_locations] of the caller's board. *)
Theorem search_returns_legal_column fuel rb N s0 b0 :
  boards s0 !! rb = Some b0 → wf_board b0 →
  get_valid_locations b0 ≠ [] →
  ROW_COUNT * COLUMN_COUNT < fuel → N < fuel →
  ∃ col stats s',
    MCTS_Search fuel rb N s0 = Ok (Some col, stats) s' ∧
    col ∈ get_valid_locations b0.
Proof.
  intros Hrb Hwf Hlegal Hfuel HN.
  destruct (MCTS_tree_spec fuel rb N s0 b0 Hrb Hwf Hfuel HN) as (s & Hrun & Hinv).
  destruct (inv_root _ _ _ _ Hinv) as (root & Hr & Hbr & _).
  unfold MCTS_Search. mrun Hrun.
  destruct (decide (children root = [])) as [Hnil | Hne].
  - rewrite (choose_move_fallback s0 b0 N s rb root) by done.
    destruct (random_choice_eq (get_valid_locations b0) s Hlegal)
      as (col & Hcol & Hrc).
    mrun Hrc. by eexists col, [], _.
  - destruct (choose_move_best s0 b0 N s rb root Hinv Hr Hne)
      as (m & j & best & Hin & _ & _ & _ & Heq).
    rewrite Heq. eexists m, _, _. split; [done|].
    destruct (ok_board _ _ _ _ _ _
                (proj2 (inv_tree _ _ _ _ Hinv) _ root (le_n _) Hr))
      as (b & Hb & _ & _ & Hperm).
    rewrite Hbr, (inv_root_board _ _ _ _ Hinv) in Hb. injection Hb as <-.
    rewrite <- Hperm. apply elem_of_app. right.
    apply list_elem_of_fmap. by exists (m, j).
Qed.

(** C3: when the caller's board is already terminal but still has a
    legal column, the root never gets a child and [MCTS_Search] returns
    empty statistics together with the outcome of one [random.choice]
    over the legal columns: the iterations consume no random number, so
    the column is the one the next number of the source selects (and
    that selection is balanced, [random_choice_balanced]). *)
Theorem terminal_root_random_fallback fuel rb N s0 b0 :
  boards s0 !! rb = Some b0 → wf_board b0 →
  is_terminal_node b0 = true → get_valid_locations b0 ≠ [] →
  ROW_COUNT * COLUMN_COUNT < fuel → N < fuel →
  ∃ col s' root,
    MCTS_Search fuel rb N s0 = Ok (Some col, []) s' ∧
    get_valid_locations b0
      !! (tape s0 (drawn s0) mod length (get_valid_locations b0)) = Some col ∧
    nodes s' !! length (nodes s0) = Some root ∧ children root = [].
Proof.
  intros Hrb Hwf Hterm Hlegal Hfuel HN.
  destruct (MCTS_tree_spec fuel rb N s0 b0 Hrb Hwf Hfuel HN) as (s & Hrun & Hinv).
  destruct (inv_root _ _ _ _ Hinv) as (root & Hr & _ & _ & _ & Hleaf).
  destruct (Hleaf Hterm) as [Hnil Hdrawn].
  unfold MCTS_Search. mrun Hrun.
  rewrite (choose_move_fallback s0 b0 N s rb root) by done.
  destruct (random_choice_eq (get_valid_locations b0) s Hlegal)
    as (col & Hcol & Hrc).
  mrun Hrc. eexists col, _, root. split; [done|].
  apply random_choice_inv in Hrc as [Hidx _].
  rewrite (inv_tape _ _ _ _ Hinv), Hdrawn in Hidx. done.
Qed.

(** C4: on a board without legal column the root gets no child, and the
    call ends with an exception that reaches the caller: the
    [IndexError] of [random.choice] on the empty list of legal columns,
    which nothing in the engine catches. *)
Theorem no_legal_column_raises fuel rb N s0 b0 :
  boards s0 !! rb = Some b0 → wf_board b0 →
  get_valid_locations b0 = [] →
  ROW_COUNT * COLUMN_COUNT < fuel → N < fuel →
  MCTS_Search fuel rb N s0 = Raise IndexError ∧
  ∃ s root, MCTS_tree fuel rb N s0 = Ok (length (nodes s0)) s ∧
            nodes s !! length (nodes s0) = Some root ∧ children root = [].
Proof.
  intros Hrb Hwf Hnone Hfuel HN.
  destruct (MCTS_tree_spec fuel rb N s0 b0 Hrb Hwf Hfuel HN) as (s & Hrun & Hinv).
  destruct (inv_root _ _ _ _ Hinv) as (root & Hr & _ & _ & _ & Hleaf).
  assert (is_terminal_node b0 = true) as Hterm.
  { unfold is_terminal_node. rewrite Hnone. apply orb_true_r. }
  destruct (Hleaf Hterm) as [Hnil _].
  split; [|by exists s, root].
  unfold MCTS_Search. mrun Hrun.
  rewrite (choose_move_fallback s0 b0 N s rb root) by done.
  rewrite Hnone. done.
Qed.

(** C5: on a well-formed board [winning_move] answers true as soon as
    four cells in a line hold [piece], whichever of the four
    orientations the line has, and answers false when no line of four
    cells holds [piece] throughout (every run has length at most
    three). *)
Theorem winning_move_detects_four (b : Board) piece :
  wf_board b →
  (∀ o r c, four_in_a_row b piece o r c → winning_move b piece = true) ∧
  (¬ has_four b piece → winning_move b piece = false).
Proof.
  intros _. split.
  - intros o r c Hrow. apply has_four_winning_move. by exists o, r, c.
  - intros Hno. destruct (winning_move b piece) eqn:E; [|done].
    by apply winning_move_has_four in E.
Qed.

(** C6: [backpropagate] started at node [i] with outcome [w] terminates,
    touches nothing but the counters, and adds one visit to [i] and to
    each of its ancestors up to the node without parent, and to no other
    node; among those it adds one win exactly to the nodes whose
    [player] is the winner [w].  A node without [player] (the root)
    never gains a win, and a draw ([w = None]) adds no win anywhere. *)
Theorem backpropagate_credits_path fuel s i w l :
  ancestors fuel (nodes s) (Some i) = Some l →
  ∃ s',
    backpropagate fuel (Some i) w s = Ok tt s' ∧
    boards s' = boards s ∧ length (nodes s') = length (nodes s) ∧
    head l = Some i ∧
    (∃ r root, last l = Some r ∧ nodes s !! r = Some root ∧ parent root = None) ∧
    ∀ j n, nodes s !! j = Some n →
      ∃ n', nodes s' !! j = Some n' ∧ same_shape n n' ∧
        visits n' = (if decide (j ∈ l) then S (visits n) else visits n) ∧
        wins n' = (if decide (j ∈ l ∧ is_Some w ∧ player n = w)
                   then S (wins n) else wins n) ∧
        (player n = None → wins n' = wins n) ∧
        (w = None → wins n' = wins n).
Proof.
  intros Hanc. apply ancestors_chain in Hanc as [Hchain Hlen].
  exists (set_nodes (credit_path w l) s).
  split; [by apply backpropagate_spec|].
  split; [done|]. split; [apply length_credit_path|].
  destruct (chain_ends_at_root _ _ _ Hchain) as [Hhead Hlast].
  split; [done|]. split; [done|].
  intros j n Hn. sstate. rewrite lookup_credit_path, Hn. cbn.
  eexists. split; [done|].
  destruct (decide (j ∈ l)) as [Hj | Hj].
  - split; [apply same_shape_credit|]. split; [done|].
    rewrite wins_credit. destruct w as [p|].
    + split; [|split; [|done]].
      * destruct (decide (player n = Some p)) as [Hp | Hp].
        -- rewrite decide_True; [done|]. by repeat split.
        -- rewrite decide_False; [done|]. tauto.
      * intros Hnone. rewrite decide_False; [done|]. by rewrite Hnone.
    + split; [|done]. rewrite decide_False; [done|].
      intros (_ & [? ?] & _). done.
  - split; [done|]. split; [done|]. split; [|done].
    rewrite decide_False; [done|]. tauto.
Qed.

(** C7: when the root has a child after the iterations (it has one as
    soon as the board is not terminal and there is an iteration),
    [MCTS_Search] returns the column of a child whose visits no other
    child of the root exceeds (the win rate plays no part); the
    statistics have one entry per child, every [win_rate] and
    [visits_ratio] lies between 0 and 1, the [visits_ratio] of a child
    is its visits divided by the visits of the chosen child, and for the
    chosen child it is 1. *)
Theorem search_returns_most_visited fuel rb N s0 b0 :
  boards s0 !! rb = Some b0 → wf_board b0 →
  ROW_COUNT * COLUMN_COUNT < fuel → N < fuel →
  ∃ s root,
    MCTS_tree fuel rb N s0 = Ok (length (nodes s0)) s ∧
    nodes s !! length (nodes s0) = Some root ∧
    (is_terminal_node b0 = false → 1 ≤ N → children root ≠ []) ∧
    (children root ≠ [] →
     ∃ col j best stats,
       MCTS_Search fuel rb N s0 = Ok (Some col, stats) s ∧
       (col, j) ∈ children root ∧ nodes s !! j = Some best ∧
       (∀ m' j' c, (m', j') ∈ children root → nodes s !! j' = Some c →
                   visits c ≤ visits best) ∧
       stats.*1 = (children root).*1 ∧
       (∀ m st, (m, st) ∈ stats → rates_in_range st) ∧
       (∃ st, dict_get col stats = Some st ∧ (stat_visits_ratio st == 1)%Q) ∧
       (∀ m' j' c, (m', j') ∈ children root → nodes s !! j' = Some c →
          ∃ st, dict_get m' stats = Some st ∧ stat_visits st = visits c ∧
                stat_visits_ratio st = true_div (visits c) (visits best))).
Proof.
  intros Hrb Hwf Hfuel HN.
  destruct (MCTS_tree_spec fuel rb N s0 b0 Hrb Hwf Hfuel HN) as (s & Hrun & Hinv).
  destruct (inv_root _ _ _ _ Hinv) as (root & Hr & _ & _ & Hsum & _).
  exists s, root. split; [done|]. split; [done|]. split.
  { intros Hnt HN1 Hnil. specialize (Hsum Hnt).
    unfold children_visits in Hsum. rewrite Hnil in Hsum. cbn in Hsum. lia. }
  intros Hne.
  destruct (choose_move_best s0 b0 N s rb root Hinv Hr Hne)
    as (m & j & best & Hin & Hbest & Hmost & Hvis & Heq).
  pose proof (proj2 (inv_tree _ _ _ _ Hinv) _ root (le_n _) Hr) as Hok.
  set (entry := λ item : nat * nat,
         (item.1, stat_of (visits best) (default best (nodes s !! item.2)))).
  assert ((entry <$> children root).*1 = (children root).*1) as Hkeys.
  { rewrite <- list_fmap_compose. done. }
  assert (NoDup (entry <$> children root).*1) as Hnd.
  { rewrite Hkeys. destruct (ok_board _ _ _ _ _ _ Hok) as (b & _ & _ & _ & Hperm).
    pose proof (NoDup_get_valid_locations b) as Hnd. rewrite <- Hperm in Hnd.
    by apply NoDup_app in Hnd as (_ & _ & Hnd). }
  assert (∀ m' j' c, (m', j') ∈ children root → nodes s !! j' = Some c →
            dict_get m' (entry <$> children root)
            = Some (stat_of (visits best) c)) as Hget.
  { intros m' j' c Hin' Hc. apply dict_get_NoDup; [done|].
    apply list_elem_of_fmap. exists (m', j'). split; [|done].
    unfold entry. cbn [fst snd]. by rewrite Hc. }
  assert ((0 <? visits best) = true) as Hpos by (apply Nat.ltb_lt; lia).
  exists m, j, best, (entry <$> children root).
  split; [by unfold MCTS_Search; mrun Hrun|].
  split; [done|]. split; [done|]. split; [done|]. split; [done|]. split; [|split].
  - intros m' st Hst. apply list_elem_of_fmap in Hst as ([m2 j2] & Hst & Hin2).
    injection Hst as -> ->. cbn [snd].
    destruct (ok_children _ _ _ _ _ _ Hok m2 j2 Hin2) as (Hlt & c & Hc & _).
    rewrite Hc. cbn [default from_option]. apply stat_of_in_range.
    + apply (inv_counts _ _ _ _ Hinv j2 c); [lia|done].
    + by eapply Hmost.
  - exists (stat_of (visits best) best). split; [by eapply Hget|].
    unfold stat_of. cbn [stat_visits_ratio]. rewrite Hpos.
    apply true_div_same. lia.
  - intros m' j' c Hin' Hc. exists (stat_of (visits best) c).
    split; [by eapply Hget|]. split; [done|].
    unfold stat_of. cbn [stat_visits_ratio]. by rewrite Hpos.
Qed.

(** C8: when [MCTS_Search] returns, the caller's board, and every other
    board that existed before the call, has the contents it had: the
    engine writes only to the copies it allocated. *)
Theorem caller_board_unchanged fuel rb N s0 b0 res s' :
  boards s0 !! rb = Some b0 → wf_board b0 →
  ROW_COUNT * COLUMN_COUNT < fuel → N < fuel →
  MCTS_Search fuel rb N s0 = Ok res s' →
  boards s' !! rb = Some b0 ∧
  ∀ a b, boards s0 !! a = Some b → boards s' !! a = Some b.
Proof.
  intros Hrb Hwf Hfuel HN Hsearch.
  destruct (MCTS_tree_spec fuel rb N s0 b0 Hrb Hwf Hfuel HN) as (s & Hrun & Hinv).
  unfold MCTS_Search in Hsearch. rewrite (bind_eq _ _ _ _ _ Hrun) in Hsearch.
  destruct (choose_move_frame _ _ _ _ _ _ _ Hinv Hrb Hsearch) as [_ Hbs].
  assert (∀ a b, boards s0 !! a = Some b → boards s' !! a = Some b) as Hframe.
  { intros a b Ha. rewrite Hbs.
    eapply prefix_lookup_Some; [exact Ha|apply (inv_boards _ _ _ _ Hinv)]. }
  split; [by apply Hframe|done].
Qed.

(** C9: a drop into the row found by [get_next_open_row] keeps a board
    gravity-packed, and so, from a gravity-packed board, every board the
    search allocates (the copy at the root, the boards of the expanded
    nodes and the boards of the rollouts) is gravity-packed when the
    iterations are over. *)
Theorem engine_boards_gravity_packed fuel rb N s0 b0 :
  boards s0 !! rb = Some b0 → wf_board b0 → gravity_packed b0 →
  ROW_COUNT * COLUMN_COUNT < fuel → N < fuel →
  (∀ b col r piece,
     wf_board b → gravity_packed b → col ∈ get_valid_locations b →
     get_next_open_row b col = Some r →
     piece = PLAYER_PIECE ∨ piece = AI_PIECE →
     gravity_packed (set_cell b r col piece)) ∧
  ∃ s, MCTS_tree fuel rb N s0 = Ok (length (nodes s0)) s ∧
       ∀ a b, length (boards s0) ≤ a → boards s !! a = Some b →
              gravity_packed b.
Proof.
  intros Hrb Hwf Hg Hfuel HN. split.
  - intros b col r piece Hwfb Hgb Hcol Hrow Hpiece.
    apply elem_of_get_valid_locations in Hcol as [Hcol _].
    apply gravity_packed_drop; try done. by destruct Hpiece as [-> | ->].
  - destruct (MCTS_tree_spec fuel rb N s0 b0 Hrb Hwf Hfuel HN)
      as (s & Hrun & Hinv).
    exists s. split; [done|]. by apply (inv_gravity _ _ _ _ Hinv).
Qed.

(** C10: on a board that is not terminal, after [N] iterations the
    visits of the children of the root add up to [N], and every node the
    search created besides the root, the children of the root among
    them, has been visited at least once. *)
Theorem root_children_visits_sum fuel rb N s0 b0 :
  boards s0 !! rb = Some b0 → wf_board b0 →
  is_terminal_node b0 = false →
  ROW_COUNT * COLUMN_COUNT < fuel → N < fuel →
  ∃ s root,
    MCTS_tree fuel rb N s0 = Ok (length (nodes s0)) s ∧
    nodes s !! length (nodes s0) = Some root ∧
    children_visits (nodes s) root = N ∧
    (∀ m j, (m, j) ∈ children root →
            ∃ c, nodes s !! j = Some c ∧ 1 ≤ visits c) ∧
    (∀ i n, length (nodes s0) < i → nodes s !! i = Some n → 1 ≤ visits n).
Proof.
  intros Hrb Hwf Hnt Hfuel HN.
  destruct (MCTS_tree_spec fuel rb N s0 b0 Hrb Hwf Hfuel HN) as (s & Hrun & Hinv).
  destruct (inv_root _ _ _ _ Hinv) as (root & Hr & _ & _ & Hsum & _).
  exists s, root. repeat split; try done.
  - by apply Hsum.
  - intros m j Hin.
    destruct (ok_children _ _ _ _ _ _
                (proj2 (inv_tree _ _ _ _ Hinv) _ root (le_n _) Hr) m j Hin)
      as (Hlt & c & Hc & _).
    exists c. split; [done|]. by apply (inv_visited _ _ _ _ Hinv j).
  - apply (inv_visited _ _ _ _ Hinv).
Qed.

End Claims.

(** * Concrete runs *)

Example four_in_each_orientation :
  winning_move horizontal_four 1 = true ∧ winning_move vertical_four 1 = true ∧
  winning_move ascending_four 1 = true ∧ winning_move descending_four 1 = true.
Proof. repeat split; reflexivity. Qed.

Example three_is_not_enough :
  winning_move horizontal_three 1 = false ∧ winning_move vertical_three 1 = false ∧
  winning_move horizontal_four 2 = false ∧ winning_move create_board 1 = false.
Proof. repeat split; reflexivity. Qed.

Lemma wf_board_of_rows_check (b : Board) :
  (length b =? ROW_COUNT) && forallb (λ row, length row =? COLUMN_COUNT) b = true →
  wf_board b.
Proof.
  intros [Hl Hrows]%andb_true_iff. split; [by apply Nat.eqb_eq|].
  apply Forall_forall. intros row Hrow.
  rewrite forallb_forall in Hrows. apply Nat.eqb_eq, Hrows.
  by apply list_elem_of_In.
Qed.

Section Witnesses.
Existing Instance rational_scoring.

Lemma root_visits_equal_iterations_witness :
  ∃ s root,
    MCTS_tree 50 0 3 (store_with create_board) = Ok 0 s ∧
    nodes s !! 0 = Some root ∧ parent root = None ∧ visits root = 3 ∧
    ∀ res s', MCTS_Search 50 0 3 (store_with create_board) = Ok res s' →
              nodes s' !! 0 = Some root.
Proof.
  apply (root_visits_equal_iterations 50 0 3 (store_with create_board) create_board).
  - reflexivity.
  - apply wf_board_of_rows_check. reflexivity.
  - vm_compute. lia.
  - lia.
Defined.

Lemma search_returns_legal_column_witness :
  ∃ col stats s',
    MCTS_Search 50 0 3 (store_with horizontal_three) = Ok (Some col, stats) s' ∧
    col ∈ get_valid_locations horizontal_three.
Proof.
  apply (search_returns_legal_column 50 0 3 (store_with horizontal_three)).
  - reflexivity.
  - apply wf_board_of_rows_check. reflexivity.
  - vm_compute. discriminate.
  - vm_compute. lia.
  - lia.
Defined.

Lemma terminal_root_random_fallback_witness :
  ∃ col s' root,
    MCTS_Search 50 0 3 (store_with horizontal_four) = Ok (Some col, []) s' ∧
    get_valid_locations horizontal_four
      !! (tape (store_with horizontal_four) 0
          mod length (get_valid_locations horizontal_four)) = Some col ∧
    nodes s' !! 0 = Some root ∧ children root = [].
Proof.
  apply (terminal_root_random_fallback 50 0 3 (store_with horizontal_four)).
  - reflexivity.
  - apply wf_board_of_rows_check. reflexivity.
  - reflexivity.
  - vm_compute. discriminate.
  - vm_compute. lia.
  - lia.
Defined.

Lemma no_legal_column_raises_witness :
  MCTS_Search 50 0 3 (store_with full_board) = Raise IndexError ∧
  ∃ s root, MCTS_tree 50 0 3 (store_with full_board) = Ok 0 s ∧
            nodes s !! 0 = Some root ∧ children root = [].
Proof.
  apply (no_legal_column_raises 50 0 3 (store_with full_board) full_board).
  - reflexivity.
  - apply wf_board_of_rows_check. reflexivity.
  - reflexivity.
  - vm_compute. lia.
  - lia.
Defined.

Lemma winning_move_detects_four_witness :
  (∀ o r c, four_in_a_row ascending_four 1 o r c →
            winning_move ascending_four 1 = true) ∧
  (¬ has_four ascending_four 1 → winning_move ascending_four 1 = false).
Proof.
  apply (winning_move_detects_four ascending_four 1).
  apply wf_board_of_rows_check. reflexivity.
Defined.

Lemma backpropagate_credits_path_witness :
  ∃ s',
    backpropagate 5 (Some 1) (Some AI_PIECE) two_nodes = Ok tt s' ∧
    boards s' = boards two_nodes ∧ length (nodes s') = length (nodes two_nodes) ∧
    head [1; 0] = Some 1 ∧
    (∃ r root, last [1; 0] = Some r ∧ nodes two_nodes !! r = Some root ∧
               parent root = None) ∧
    ∀ j n, nodes two_nodes !! j = Some n →
      ∃ n', nodes s' !! j = Some n' ∧ same_shape n n' ∧
        visits n' = (if decide (j ∈ [1; 0]) then S (visits n) else visits n) ∧
        wins n' = (if decide (j ∈ [1; 0] ∧ is_Some (Some AI_PIECE) ∧
                              player n = Some AI_PIECE)
                   then S (wins n) else wins n) ∧
        (player n = None → wins n' = wins n) ∧
        (Some AI_PIECE = None → wins n' = wins n).
Proof.
  apply (backpropagate_credits_path 5 two_nodes 1 (Some AI_PIECE) [1; 0]).
  reflexivity.
Defined.

Lemma search_returns_most_visited_witness :
  ∃ s root,
    MCTS_tree 50 0 3 (store_with create_board) = Ok 0 s ∧
    nodes s !! 0 = Some root ∧
    (is_terminal_node create_board = false → 1 ≤ 3 → children root ≠ []) ∧
    (children root ≠ [] →
     ∃ col j best stats,
       MCTS_Search 50 0 3 (store_with create_board) = Ok (Some col, stats) s ∧
       (col, j) ∈ children root ∧ nodes s !! j = Some best ∧
       (∀ m' j' c, (m', j') ∈ children root → nodes s !! j' = Some c →
                   visits c ≤ visits best) ∧
       stats.*1 = (children root).*1 ∧
       (∀ m st, (m, st) ∈ stats → rates_in_range st) ∧
       (∃ st, dict_get col stats = Some st ∧ (stat_visits_ratio st == 1)%Q) ∧
       (∀ m' j' c, (m', j') ∈ children root → nodes s !! j' = Some c →
          ∃ st, dict_get m' stats = Some st ∧ stat_visits st = visits c ∧
                stat_visits_ratio st = true_div (visits c) (visits best))).
Proof.
  apply (search_returns_most_visited 50 0 3 (store_with create_board) create_board).
  - reflexivity.
  - apply wf_board_of_rows_check. reflexivity.
  - vm_compute. lia.
  - lia.
Defined.

Lemma caller_board_unchanged_witness :
  ∃ res s',
    MCTS_Search 50 0 3 (store_with horizontal_three) = Ok res s' ∧
    boards s' !! 0 = Some horizontal_three ∧
    ∀ a b, boards (store_with horizontal_three) !! a = Some b →
           boards s' !! a = Some b.
Proof.
  destruct (MCTS_Search 50 0 3 (store_with horizontal_three))
    as [res s'| |] eqn:E; [|vm_compute in E; discriminate..].
  exists res, s'. split; [reflexivity|].
  apply (caller_board_unchanged 50 0 3 (store_with horizontal_three)
           horizontal_three res s').
  - reflexivity.
  - apply wf_board_of_rows_check. reflexivity.
  - vm_compute. lia.
  - lia.
  - exact E.
Defined.

Lemma engine_boards_gravity_packed_witness :
  (∀ b col r piece,
     wf_board b → gravity_packed b → col ∈ get_valid_locations b →
     get_next_open_row b col = Some r →
     piece = PLAYER_PIECE ∨ piece = AI_PIECE →
     gravity_packed (set_cell b r col piece)) ∧
  ∃ s, MCTS_tree 50 0 3 (store_with create_board) = Ok 0 s ∧
       ∀ a b, 1 ≤ a → boards s !! a = Some b → gravity_packed b.
Proof.
  apply (engine_boards_gravity_packed 50 0 3 (store_with create_board) create_board).
  - reflexivity.
  - apply wf_board_of_rows_check. reflexivity.
  - apply gravity_packed_create_board.
  - vm_compute. lia.
  - lia.
Defined.

Lemma root_children_visits_sum_witness :
  ∃ s root,
    MCTS_tree 50 0 3 (store_with create_board) = Ok 0 s ∧
    nodes s !! 0 = Some root ∧
    children_visits (nodes s) root = 3 ∧
    (∀ m j, (m, j) ∈ children root →
            ∃ c, nodes s !! j = Some c ∧ 1 ≤ visits c) ∧
    (∀ i n, 0 < i → nodes s !! i = Some n → 1 ≤ visits n).
Proof.
  apply (root_children_visits_sum 50 0 3 (store_with create_board) create_board).
  - reflexivity.
  - apply wf_board_of_rows_check. reflexivity.
  - reflexivity.
  - vm_compute. lia.
  - lia.
Defined.

End Witnesses.

(** * Further properties: the board rules *)

(** ** Cells of a well-formed board, counted *)

Lemma list_of_length_7 (row : list Z) :
  length row = 7 → ∃ c0 c1 c2 c3 c4 c5 c6, row = [c0; c1; c2; c3; c4; c5; c6].
Proof.
  intros Hl. do 7 (destruct row as [|? row]; [done|]).
  destruct row; [|done]. by do 7 eexists.
Qed.

Lemma wf_board_rows (b : Board) :
  wf_board b →
  ∃ r0 r1 r2 r3 r4 r5, b = [r0; r1; r2; r3; r4; r5] ∧
    Forall (λ row, length row = 7) [r0; r1; r2; r3; r4; r5].
Proof.
  intros [Hl Hrows]. unfold ROW_COUNT, COLUMN_COUNT in *.
  do 6 (destruct b as [|? b]; [done|]). destruct b; [|done].
  by do 6 eexists.
Qed.

Lemma wf_board_cells (b : Board) :
  wf_board b →
  concat b = (λ k, cell b (k / COLUMN_COUNT) (k mod COLUMN_COUNT))
               <$> seq 0 (ROW_COUNT * COLUMN_COUNT).
Proof.
  intros (r0 & r1 & r2 & r3 & r4 & r5 & -> & Hrows)%wf_board_rows.
  repeat match goal with
         | H : Forall _ (_ :: _) |- _ => apply Forall_cons in H as [? H]
         end.
  repeat match goal with
         | H : length ?r = 7 |- _ =>
             apply list_of_length_7 in H as (? & ? & ? & ? & ? & ? & ? & ->)
         end.
  reflexivity.
Qed.

Lemma filter_complement {A} (f : A → bool) (l : list A) :
  length (List.filter f l) + length (List.filter (λ x, negb (f x)) l) = length l.
Proof.
  induction l as [|x l IH]; simpl; [done|]. destruct (f x); simpl; lia.
Qed.

Lemma filter_fmap {A B} (f : B → bool) (g : A → B) (l : list A) :
  List.filter f (g <$> l) = g <$> List.filter (λ x, f (g x)) l.
Proof.
  induction l as [|x l IH]; [done|].
  rewrite fmap_cons. cbn [List.filter].
  destruct (f (g x)); [rewrite fmap_cons|]; by rewrite IH.
Qed.

Lemma count_pieces_empties (b : Board) :
  wf_board b → count_pieces b + empties b = ROW_COUNT * COLUMN_COUNT.
Proof.
  intros Hwf. unfold count_pieces, empties.
  rewrite (wf_board_cells b Hwf), filter_fmap, length_fmap.
  pose proof (filter_complement
                (λ k, (cell b (k / COLUMN_COUNT) (k mod COLUMN_COUNT) =? 0)%Z)
                (seq 0 (ROW_COUNT * COLUMN_COUNT))) as Hsum.
  rewrite length_seq in Hsum. cbv beta in *. lia.
Qed.

Lemma count_pieces_set_cell (b : Board) r c piece :
  wf_board b → r < ROW_COUNT → c < COLUMN_COUNT →
  cell b r c = 0%Z → piece ≠ 0%Z →
  count_pieces (set_cell b r c piece) = S (count_pieces b).
Proof.
  intros Hwf Hr Hc Hz Hp.
  pose proof (count_pieces_empties b Hwf) as H1.
  pose proof (count_pieces_empties _ (wf_board_set_cell b r c piece Hwf)) as H2.
  pose proof (empties_set_cell b r c piece Hwf Hr Hc Hz Hp). lia.
Qed.

Lemma piece_to_move_set_cell (b : Board) r c piece :
  wf_board b → r < ROW_COUNT → c < COLUMN_COUNT →
  cell b r c = 0%Z → piece ≠ 0%Z →
  piece_to_move (set_cell b r c piece) = other_piece (piece_to_move b).
Proof.
  intros Hwf Hr Hc Hz Hp. unfold piece_to_move.
  rewrite count_pieces_set_cell by done. rewrite Nat.even_succ.
  rewrite <- Nat.negb_even. by destruct (Nat.even (count_pieces b)).
Qed.

(** ** The lowest open row and the legal columns *)

Lemma filter_seq_below (f : nat → bool) (n r : nat) :
  r ≤ n → (∀ k, k < n → f k = (k <? r)) →
  length (List.filter f (seq 0 n)) = r.
Proof.
  revert r. induction n as [|n IH]; intros r Hr Hf.
  - simpl. lia.
  - rewrite seq_S, List.filter_app, length_app. simpl.
    rewrite (Hf n) by lia.
    destruct (n <? r) eqn:E.
    + apply Nat.ltb_lt in E. rewrite (IH n); [simpl; lia|lia|].
      intros k Hk. rewrite Hf by lia.
      destruct (Nat.ltb_spec k r), (Nat.ltb_spec k n); lia.
    + apply Nat.ltb_ge in E. rewrite (IH r); [simpl; lia|lia|].
      intros k Hk. apply Hf. lia.
Qed.

Lemma gravity_open_row_height (b : Board) col r :
  gravity_packed b → col < COLUMN_COUNT →
  get_next_open_row b col = Some r → column_height b col = r.
Proof.
  intros Hg Hcol Hrow.
  apply get_next_open_row_Some in Hrow as (Hr & Hz & Hbelow).
  apply filter_seq_below; [lia|]. intros k Hk.
  destruct (Nat.ltb_spec k r) as [Hlt | Hge].
  - apply negb_true_iff, Z.eqb_neq. by apply Hbelow.
  - apply negb_false_iff, Z.eqb_eq.
    destruct (decide (k = r)) as [-> | Hne]; [done|].
    apply (Hg col r k); [done|lia|done|done].
Qed.

Lemma open_row_None (b : Board) col :
  get_next_open_row b col = None ↔ ∀ r, r < ROW_COUNT → cell b r col ≠ 0%Z.
Proof.
  split.
  - intros Hnone r Hr Hz.
    destruct (find_seq_is_Some (λ r, (cell b r col =? 0)%Z) 0 ROW_COUNT r)
      as [x Hx]; [lia|by apply Z.eqb_eq|].
    unfold get_next_open_row in Hnone. congruence.
  - intros Hfull. destruct (get_next_open_row b col) as [r|] eqn:E; [|done].
    apply get_next_open_row_Some in E as (Hr & Hz & _). by destruct (Hfull r).
Qed.

(** X1: [get_next_open_row] returns the lowest empty row of the column,
    and [None] exactly when the column holds no empty cell. *)
Theorem get_next_open_row_lowest (b : Board) col :
  wf_board b → col < COLUMN_COUNT →
  (∀ r, get_next_open_row b col = Some r ↔
        r < ROW_COUNT ∧ cell b r col = 0%Z ∧ ∀ k, k < r → cell b k col ≠ 0%Z) ∧
  (get_next_open_row b col = None ↔ ∀ r, r < ROW_COUNT → cell b r col ≠ 0%Z).
Proof.
  intros _ _. split; [|apply open_row_None].
  intros r. split; [apply get_next_open_row_Some|].
  intros (Hr & Hz & Hbelow).
  destruct (get_next_open_row b col) as [r'|] eqn:E.
  - apply get_next_open_row_Some in E as (Hr' & Hz' & Hbelow').
    f_equal. destruct (Nat.lt_trichotomy r' r) as [Hlt | [-> | Hgt]]; [|done|].
    + by destruct (Hbelow r').
    + by destruct (Hbelow' r).
  - by destruct (proj1 (open_row_None b col) E r).
Qed.

Lemma StronglySorted_filter {A} (R : A → A → Prop) (f : A → bool) (l : list A) :
  StronglySorted R l → StronglySorted R (List.filter f l).
Proof.
  induction 1 as [|x l Hl IH Hx]; simpl; [constructor|].
  destruct (f x); [|done]. constructor; [done|].
  apply Forall_forall. intros y Hy%list_elem_of_In%filter_In.
  rewrite Forall_forall in Hx. apply Hx, list_elem_of_In. tauto.
Qed.

Lemma StronglySorted_seq lo n : StronglySorted lt (seq lo n).
Proof.
  revert lo. induction n as [|n IH]; intros lo; simpl; constructor; [apply IH|].
  apply Forall_forall. intros y Hy%list_elem_of_In%in_seq. lia.
Qed.

Lemma get_valid_locations_sorted (b : Board) :
  StronglySorted lt (get_valid_locations b).
Proof. apply StronglySorted_filter, StronglySorted_seq. Qed.

(** X2: on a gravity-packed board the two tests of the source agree: a
    column is a valid location (its top cell is empty) exactly when
    [get_next_open_row] finds a row in it, and that row is the number of
    pieces already in the column. *)
Theorem valid_location_iff_open_row (b : Board) col :
  wf_board b → gravity_packed b → col < COLUMN_COUNT →
  (is_valid_location b col = true ↔ is_Some (get_next_open_row b col)) ∧
  (∀ r, get_next_open_row b col = Some r → column_height b col = r) ∧
  (get_next_open_row b col = None → column_height b col = ROW_COUNT).
Proof.
  intros _ Hg Hcol. split; [split|split].
  - apply get_next_open_row_valid.
  - intros [r Hrow]. apply get_next_open_row_Some in Hrow as (Hr & Hz & _).
    unfold is_valid_location. apply Z.eqb_eq.
    destruct (decide (r = ROW_COUNT - 1)) as [-> | Hne]; [done|].
    apply (Hg col r (ROW_COUNT - 1)); [done|lia|unfold ROW_COUNT; lia|done].
  - intros r. by apply gravity_open_row_height.
  - intros Hnone. apply filter_seq_below; [done|].
    intros k Hk. rewrite (proj2 (Nat.ltb_lt k ROW_COUNT) Hk).
    apply negb_true_iff, Z.eqb_neq.
    by apply (proj1 (open_row_None b col) Hnone).
Qed.

(** ** Dropping a piece *)

Lemma open_row_after_drop (b : Board) col r piece :
  wf_board b → gravity_packed b → col < COLUMN_COUNT →
  get_next_open_row b col = Some r → piece ≠ 0%Z →
  get_next_open_row (set_cell b r col piece) col
  = if decide (r + 1 < ROW_COUNT) then Some (r + 1) else None.
Proof.
  intros Hwf Hg Hcol Hrow Hp.
  destruct (get_next_open_row_Some _ _ _ Hrow) as (Hr & Hz & Hbelow).
  assert (∀ k, k < ROW_COUNT →
            cell (set_cell b r col piece) k col
            = if decide (k = r) then piece else cell b k col) as Hcell.
  { intros k Hk. rewrite cell_set_cell by done.
    destruct (decide (k = r)) as [-> | Hne].
    - by rewrite decide_True.
    - rewrite decide_False; [done|]. tauto. }
  destruct (decide (r + 1 < ROW_COUNT)) as [Hlt | Hge].
  - destruct (get_next_open_row (set_cell b r col piece) col) as [r'|] eqn:E.
    + apply get_next_open_row_Some in E as (Hr' & Hz' & Hbelow').
      rewrite Hcell in Hz' by done. destruct (decide (r' = r)) as [-> | Hne]; [done|].
      f_equal. destruct (Nat.lt_trichotomy r' (r + 1)) as [Hl | [-> | Hgt]]; [|done|].
      * destruct (Hbelow r'); [lia|done].
      * destruct (Hbelow' (r + 1) Hgt). rewrite Hcell by done.
        rewrite decide_False by lia. apply (Hg col r (r + 1)); [done|lia|done|done].
    + pose proof (proj1 (open_row_None _ _) E (r + 1) Hlt) as Hne.
      rewrite Hcell, decide_False in Hne by (done || lia).
      destruct Hne. apply (Hg col r (r + 1)); [done|lia|done|done].
  - apply open_row_None. intros k Hk. rewrite Hcell by done.
    destruct (decide (k = r)) as [-> | Hne]; [done|]. apply Hbelow. lia.
Qed.


Lemma winning_move_set_cell (b : Board) r c q piece :
  wf_board b → r < ROW_COUNT → c < COLUMN_COUNT → cell b r c = 0%Z →
  piece ≠ 0%Z → winning_move b piece = true →
  winning_move (set_cell b r c q) piece = true.
Proof.
  intros Hwf Hr Hc Hz Hp Hwin.
  apply winning_move_has_four in Hwin as (o & r0 & c0 & Hrow).
  apply has_four_winning_move. exists o, r0, c0. intros i Hi.
  destruct (Hrow i Hi) as [Hon Hcell]. split; [done|].
  rewrite cell_set_cell by done.
  destruct (decide (_ ∧ _)) as [[E1 E2] | _]; [|done].
  rewrite E1, E2 in Hcell. congruence.
Qed.

Lemma valid_locations_set_cell (b : Board) r c q :
  wf_board b → r < ROW_COUNT → c < COLUMN_COUNT → q ≠ 0%Z →
  ∀ col, col ∈ get_valid_locations (set_cell b r c q) →
         col ∈ get_valid_locations b.
Proof.
  intros Hwf Hr Hc Hq col. rewrite !elem_of_get_valid_locations.
  intros [Hcol Hv]. split; [done|]. unfold is_valid_location in *.
  rewrite cell_set_cell in Hv by done.
  destruct (decide (_ ∧ _)); [|done]. by apply Z.eqb_eq in Hv.
Qed.

(** X4: terminal positions are absorbing: a win that is on the board
    stays after any piece is put into an empty cell, and so does
    [is_terminal_node]. *)
Theorem terminal_stays_terminal (b : Board) r c q :
  wf_board b → r < ROW_COUNT → c < COLUMN_COUNT →
  cell b r c = 0%Z → q ≠ 0%Z →
  (∀ piece, piece ≠ 0%Z → winning_move b piece = true →
            winning_move (set_cell b r c q) piece = true) ∧
  (is_terminal_node b = true → is_terminal_node (set_cell b r c q) = true).
Proof.
  intros Hwf Hr Hc Hz Hq. split.
  - intros piece Hp Hwin. by apply winning_move_set_cell.
  - unfold is_terminal_node. rewrite !orb_true_iff.
    intros [[Hwin | Hwin] | Hnone].
    + left. left. by apply winning_move_set_cell.
    + left. right. by apply winning_move_set_cell.
    + right. apply Nat.eqb_eq in Hnone. apply Nat.eqb_eq.
      destruct (get_valid_locations (set_cell b r c q)) as [|col l] eqn:E; [done|].
      assert (col ∈ get_valid_locations b) as Hin.
      { apply (valid_locations_set_cell b r c q); try done. rewrite E. by left. }
      destruct (get_valid_locations b); [by apply elem_of_nil in Hin|done].
Qed.

Lemma empties_zero_full (b : Board) : empties b = 0 ↔ board_full b.
Proof.
  unfold empties. split.
  - intros Hlen r c Hr Hc Hz.
    assert ((r * COLUMN_COUNT + c) ∈
              List.filter (λ k, (cell b (k / COLUMN_COUNT) (k mod COLUMN_COUNT) =? 0)%Z)
                          (seq 0 (ROW_COUNT * COLUMN_COUNT))) as Hin.
    { apply list_elem_of_In, filter_In. split.
      - apply in_seq. unfold ROW_COUNT, COLUMN_COUNT in *. lia.
      - replace ((r * COLUMN_COUNT + c) / COLUMN_COUNT) with r
          by (unfold COLUMN_COUNT in *; apply Nat.div_unique with c; lia).
        replace ((r * COLUMN_COUNT + c) mod COLUMN_COUNT) with c
          by (unfold COLUMN_COUNT in *; apply Nat.mod_unique with r; lia).
        by apply Z.eqb_eq. }
    destruct (List.filter _ _); [by apply elem_of_nil in Hin|done].
  - intros Hfull.
    destruct (List.filter _ _) as [|k l] eqn:E; [done|].
    assert (In k (k :: l)) as Hin by (by left). rewrite <- E in Hin.
    apply filter_In in Hin as [Hk Hz]. apply in_seq in Hk. apply Z.eqb_eq in Hz.
    destruct (Hfull (k / COLUMN_COUNT) (k mod COLUMN_COUNT)); [| |done].
    + unfold ROW_COUNT, COLUMN_COUNT in *. apply Nat.Div0.div_lt_upper_bound. lia.
    + unfold COLUMN_COUNT. apply Nat.mod_upper_bound. lia.
Qed.

(** X5: on a gravity-packed board there is no valid location exactly
    when no cell is empty, and that is exactly when [count_pieces]
    reaches the 42 cells of the grid; [is_terminal_node] holds exactly
    when one of the two sides has four in a row or the board is full. *)
Theorem no_valid_location_iff_full (b : Board) :
  wf_board b → gravity_packed b →
  (get_valid_locations b = [] ↔ board_full b) ∧
  (board_full b ↔ count_pieces b = ROW_COUNT * COLUMN_COUNT) ∧
  (is_terminal_node b = true ↔
   has_four b PLAYER_PIECE ∨ has_four b AI_PIECE ∨ board_full b).
Proof.
  intros Hwf Hg.
  assert (get_valid_locations b = [] ↔ board_full b) as Hfull; [split|].
  3:{ split; [done|]. split.
      - rewrite <- empties_zero_full.
        pose proof (count_pieces_empties b Hwf). lia.
      - unfold is_terminal_node. rewrite !orb_true_iff, Nat.eqb_eq, <- Hfull.
        rewrite length_zero_iff_nil. split.
        + intros [[Hw | Hw] | Hnil]; [left|right; left|right; right];
            by try apply winning_move_has_four.
        + intros [Hw | [Hw | Hnil]]; [left; left|left; right|right];
            by try apply has_four_winning_move. }
  - intros Hnone r c Hr Hc Hz.
    assert (c ∈ get_valid_locations b) as Hin; [|by rewrite Hnone in Hin; apply elem_of_nil in Hin].
    apply elem_of_get_valid_locations. split; [done|].
    unfold is_valid_location. apply Z.eqb_eq.
    destruct (decide (r = ROW_COUNT - 1)) as [-> | Hne]; [done|].
    apply (Hg c r (ROW_COUNT - 1)); [done|lia|unfold ROW_COUNT; lia|done].
  - intros Hfull. destruct (get_valid_locations b) as [|col l] eqn:E; [done|].
    assert (col ∈ get_valid_locations b) as Hin by (rewrite E; by left).
    apply elem_of_get_valid_locations in Hin as [Hcol Hv].
    apply Z.eqb_eq in Hv. destruct (Hfull (ROW_COUNT - 1) col); [|done|done].
    unfold ROW_COUNT. lia.
Qed.

(** * Further properties: the heuristic evaluator *)

Lemma py_count_le x l : py_count x l ≤ length l.
Proof. apply filter_length_le. Qed.

Lemma py_count_disjoint x y l : x ≠ y → py_count x l + py_count y l ≤ length l.
Proof.
  intros Hne. unfold py_count. induction l as [|z l IH]; simpl; [done|].
  destruct (Z.eqb_spec z x), (Z.eqb_spec z y); simpl; lia.
Qed.

Lemma py_count_all x l : py_count x l = length l ↔ Forall (λ y, y = x) l.
Proof.
  unfold py_count. induction l as [|z l IH]; simpl; [by split; constructor|].
  destruct (Z.eqb_spec z x) as [-> | Hne]; simpl.
  - rewrite Forall_cons. split; [intros [= Hl]; by rewrite <- IH|].
    intros [_ Hl]. f_equal. by apply IH.
  - split.
    + intros Hlen. pose proof (filter_length_le (λ y, (y =? x)%Z) l). lia.
    + intros [? _]%Forall_cons. done.
Qed.

Lemma opponent_of_cases piece :
  opponent_of piece ≠ piece ∧ opponent_of piece ≠ EMPTY.
Proof.
  unfold opponent_of. destruct (Z.eqb_spec piece PLAYER_PIECE) as [-> | Hne]; [done|].
  split; [congruence|done].
Qed.

Lemma evaluate_window_range window piece :
  (-4 ≤ evaluate_window window piece ≤ 100)%Z.
Proof.
  unfold evaluate_window.
  repeat match goal with |- context [if ?c then _ else _] => destruct c end; lia.
Qed.

(** X6: on a window of four cells [evaluate_window] takes one of the
    values 100, 5, 2, 0 and -4; it is 100 exactly when the four cells
    hold [piece], and -4 exactly when the opponent holds three cells and
    the fourth is empty. *)
Theorem evaluate_window_values window piece :
  length window = WINDOW_LENGTH →
  evaluate_window window piece ∈ [100; 5; 2; 0; -4]%Z ∧
  (evaluate_window window piece = 100%Z ↔ Forall (λ x, x = piece) window) ∧
  (evaluate_window window piece = (-4)%Z ↔
     py_count (opponent_of piece) window = 3 ∧ py_count EMPTY window = 1).
Proof.
  intros Hlen. unfold WINDOW_LENGTH in Hlen.
  destruct (opponent_of_cases piece) as [Hop Hoe].
  pose proof (py_count_disjoint _ _ window Hop) as H1.
  pose proof (py_count_disjoint _ _ window Hoe) as H2.
  pose proof (py_count_le piece window) as H3.
  rewrite <- py_count_all, Hlen.
  unfold evaluate_window. fold (opponent_of piece).
  destruct (Nat.eqb_spec (py_count piece window) 4) as [E4 | N4].
  { destruct (Nat.eqb_spec (py_count (opponent_of piece) window) 3); [lia|].
    cbn [andb]. split; [by repeat constructor|]. split; [done|]. split; [done|lia]. }
  destruct (Nat.eqb_spec (py_count piece window) 3) as [E3 | N3];
  destruct (Nat.eqb_spec (py_count EMPTY window) 1) as [Ee1 | Ne1];
  destruct (Nat.eqb_spec (py_count piece window) 2) as [E2 | N2];
  destruct (Nat.eqb_spec (py_count EMPTY window) 2) as [Ee2 | Ne2];
  destruct (Nat.eqb_spec (py_count (opponent_of piece) window) 3) as [Eo | No];
  cbn [andb]; try lia;
  (split; [by repeat constructor|]; split; (split; [try done; lia|try done; lia])).
Qed.

Lemma foldl_bounds {A} (g : Z → A → Z) (lo hi : Z) (l : list A) (a : Z) :
  (∀ acc x, acc + lo ≤ g acc x ≤ acc + hi)%Z →
  (a + lo * Z.of_nat (length l) ≤ foldl g a l ≤ a + hi * Z.of_nat (length l))%Z.
Proof.
  intros Hg. revert a. induction l as [|x l IH]; intros a.
  - simpl. lia.
  - cbn [foldl length]. rewrite Nat2Z.inj_succ, !Z.mul_succ_r.
    specialize (IH (g a x)). specialize (Hg a x).
    generalize dependent (foldl g (g a x) l). generalize dependent (g a x).
    generalize (lo * Z.of_nat (length l))%Z (hi * Z.of_nat (length l))%Z.
    intros. lia.
Qed.

Lemma score_position_range (b : Board) piece :
  wf_board b → (-276 ≤ score_position b piece ≤ 6918)%Z.
Proof.
  intros [Hlen _]. unfold score_position. cbv zeta.
  assert (Z.of_nat (py_count piece (column_of b (COLUMN_COUNT / 2))) ≤ 6)%Z as Hc.
  { pose proof (py_count_le piece (column_of b (COLUMN_COUNT / 2))) as Hle.
    assert (length (column_of b (COLUMN_COUNT / 2)) = ROW_COUNT) as Hcol
      by (unfold column_of; by rewrite length_map).
    rewrite Hcol in Hle. unfold ROW_COUNT in Hle. lia. }
  set (center := (0 + Z.of_nat (py_count piece (column_of b (COLUMN_COUNT / 2))) * 3)%Z).
  assert (0 ≤ center ≤ 18)%Z as Hcenter by (unfold center; lia).
  clearbody center.
  match goal with |- (_ ≤ foldl ?g4 (foldl ?g3 (foldl ?g2 (foldl ?g1 _ ?l1) ?l2) ?l3) ?l4 ≤ _)%Z =>
    pose proof (foldl_bounds g1 (-16) 400 l1 center) as B1;
    pose proof (foldl_bounds g2 (-12) 300 l2 (foldl g1 center l1)) as B2;
    pose proof (foldl_bounds g3 (-16) 400 l3 (foldl g2 (foldl g1 center l1) l2)) as B3;
    pose proof (foldl_bounds g4 (-16) 400 l4
                  (foldl g3 (foldl g2 (foldl g1 center l1) l2) l3)) as B4
  end.
  rewrite !length_seq in *. unfold ROW_COUNT, COLUMN_COUNT in *.
  cbn [Nat.sub] in *.
  assert (∀ (wd : nat → nat → list Z) (n : nat) (lo hi : Z),
            lo = (-4 * Z.of_nat n)%Z → hi = (100 * Z.of_nat n)%Z →
            ∀ (acc : Z) (x : nat),
              (acc + lo ≤ foldl (λ score y, score + evaluate_window (wd x y) piece)
                                acc (seq 0 n) ≤ acc + hi)%Z) as Hinner.
  { intros wd n lo hi -> -> acc x.
    pose proof (foldl_bounds (λ score y, (score + evaluate_window (wd x y) piece)%Z)
                  (-4) 100 (seq 0 n) acc) as Hb.
    rewrite length_seq in Hb. apply Hb. intros acc' y.
    pose proof (evaluate_window_range (wd x y) piece). lia. }
  specialize (B1 (Hinner (λ r c, slice (row_of b r) c (c + WINDOW_LENGTH)) 4 _ _ eq_refl eq_refl)).
  specialize (B2 (Hinner (λ c r, slice (column_of b c) r (r + WINDOW_LENGTH)) 3 _ _ eq_refl eq_refl)).
  specialize (B3 (Hinner (λ r c, map (λ i, cell b (r + i) (c + i)) (seq 0 WINDOW_LENGTH))
                         4 _ _ eq_refl eq_refl)).
  specialize (B4 (Hinner (λ r c, map (λ i, cell b (r + 3 - i) (c + i)) (seq 0 WINDOW_LENGTH))
                         4 _ _ eq_refl eq_refl)).
  lia.
Qed.

(** X7: the heuristic score of a board lies between -276 and 6918 (69
    windows worth -4 to 100 each, and at most six centre pieces worth 3
    each), well above the -10000 [pick_best_move] starts from. *)
Theorem score_position_bounds (b : Board) piece :
  wf_board b →
  (-276 ≤ score_position b piece ≤ 6918)%Z ∧
  (-10000 < score_position b piece)%Z.
Proof.
  intros Hwf. pose proof (score_position_range b piece Hwf). lia.
Qed.

(** ** The one-ply heuristic player *)

Lemma foldl_best_step (f : nat → Z) (l : list nat) (best : Z * nat) :
  let res := foldl (best_step f) best l in
  (res = best ∧ ∀ c, c ∈ l → (f c ≤ best.1)%Z) ∨
  (∃ l1 l2, l = l1 ++ res.2 :: l2 ∧ res.1 = f res.2 ∧ (best.1 < f res.2)%Z ∧
     (∀ c, c ∈ l1 → (f c < f res.2)%Z) ∧ (∀ c, c ∈ l2 → (f c ≤ f res.2)%Z)).
Proof.
  cbv zeta. induction l as [|x l IH] using rev_ind.
  - left. split; [done|]. by intros c ?%elem_of_nil.
  - rewrite foldl_app. cbn [foldl].
    set (r := foldl (best_step f) best l) in *.
    assert (best_step f r x = if (r.1 <? f x)%Z then (f x, x) else r) as -> by done.
    destruct (Z.ltb_spec r.1 (f x)) as [Hlt | Hge].
    + right. exists l, []. cbn [fst snd].
      destruct IH as [[E Hall] | (l1 & l2 & El & E1 & Hb & H1 & H2)].
      * rewrite E in Hlt. split_and!; [done|done|done| |by intros c ?%elem_of_nil].
        intros c Hc. specialize (Hall c Hc). lia.
      * rewrite E1 in Hlt. split_and!; [done|done|lia| |by intros c ?%elem_of_nil].
        intros c Hc. rewrite El in Hc.
        apply elem_of_app in Hc as [Hc | Hc]; [specialize (H1 c Hc); lia|].
        apply elem_of_cons in Hc as [-> | Hc]; [lia|specialize (H2 c Hc); lia].
    + destruct IH as [[E Hall] | (l1 & l2 & El & E1 & Hb & H1 & H2)].
      * left. split; [done|]. intros c [Hc | ->%list_elem_of_singleton]%elem_of_app.
        -- by apply Hall.
        -- by rewrite E in Hge.
      * right. exists l1, (l2 ++ [x]). split_and!; [|done|done|done|].
        -- rewrite El at 1. by rewrite <- app_assoc.
        -- intros c [Hc | ->%list_elem_of_singleton]%elem_of_app; [by apply H2|].
           by rewrite <- E1.
Qed.

Lemma pick_loop_spec ref piece b l best s :
  boards s !! ref = Some b → wf_board b →
  (∀ c, c ∈ l → c ∈ get_valid_locations b) →
  ∃ extra,
    for_each l
      (λ best col,
         b <- get_board ref ;;
         let row := get_next_open_row b col in
         temp_board <- copy_board ref ;;
         drop_piece temp_board row col piece ;;
         tb <- get_board temp_board ;;
         let score := score_position tb piece in
         if (best.1 <? score)%Z then ret (score, col) else ret best)
      best s
    = Ok (foldl (best_step (drop_score b piece)) best l)
         (set_boards (λ bs, bs ++ extra) s).
Proof.
  intros Hb Hwf. revert best s Hb.
  induction l as [|col l IH]; intros best s Hb Hl.
  - exists []. cbn [for_each foldl]. unfold ret, set_boards.
    rewrite app_nil_r. by destruct s.
  - destruct (valid_location_drop b col Hwf (Hl col ltac:(by left)))
      as (r & Hr & Hrlt & Hc & _).
    set (b' := set_cell b r col piece).
    set (s1 := set_boards (λ bs, bs ++ [b']) s).
    assert (boards s1 !! ref = Some b) as Hb1.
    { unfold s1. sstate. by apply lookup_app_l_Some. }
    destruct (IH (best_step (drop_score b piece) best col) s1 Hb1) as [extra Hrun].
    { intros c Hc'. apply Hl. by right. }
    exists (b' :: extra). cbn [for_each foldl].
    erewrite bind_eq; [rewrite Hrun|].
    + f_equal. unfold s1, set_boards. cbn [boards nodes tape drawn].
      by rewrite <- app_assoc.
    + mrun (get_board_eq _ _ _ Hb). cbv zeta. rewrite Hr.
      mrun (copy_board_eq _ _ _ Hb).
      unfold bind at 1. erewrite drop_piece_eq;
        [|unfold set_boards; cbn [boards]; apply lookup_snoc|done|done|done].
      unfold set_boards at 1 2. cbn [boards nodes tape drawn].
      rewrite insert_snoc. fold b'.
      erewrite bind_eq by (apply get_board_eq; cbn [boards]; apply lookup_snoc).
      cbv beta. unfold best_step, drop_score. rewrite Hr. fold b'.
      by destruct (best.1 <? score_position b' piece)%Z.
Qed.


(** * Further properties: the rollout *)

Lemma pieces_of_set_cell (b : Board) r c x q :
  wf_board b → r < ROW_COUNT → c < COLUMN_COUNT → cell b r c = 0%Z → q ≠ 0%Z →
  pieces_of q (set_cell b r c x) = pieces_of q b + (if (x =? q)%Z then 1 else 0).
Proof.
  intros Hwf Hr Hc Hz Hq. unfold pieces_of, py_count.
  rewrite (wf_board_cells b Hwf),
          (wf_board_cells _ (wf_board_set_cell b r c x Hwf)).
  rewrite !filter_fmap, !length_fmap.
  assert ((r * COLUMN_COUNT + c) / COLUMN_COUNT = r) as Hdiv
    by (unfold COLUMN_COUNT in *; symmetry; apply Nat.div_unique with c; lia).
  assert ((r * COLUMN_COUNT + c) mod COLUMN_COUNT = c) as Hmod
    by (unfold COLUMN_COUNT in *; symmetry; apply Nat.mod_unique with r; lia).
  assert (∀ k, k ≠ r * COLUMN_COUNT + c →
            cell (set_cell b r c x) (k / COLUMN_COUNT) (k mod COLUMN_COUNT)
            = cell b (k / COLUMN_COUNT) (k mod COLUMN_COUNT)) as Hother.
  { intros k Hk. rewrite cell_set_cell by done.
    rewrite decide_False; [done|]. intros [E1 E2]. apply Hk.
    rewrite <- E1, <- E2. unfold COLUMN_COUNT.
    rewrite (Nat.div_mod_eq k 7) at 1. lia. }
  destruct (Z.eqb_spec x q) as [-> | Hne].
  - rewrite Nat.add_1_r. symmetry.
    apply (filter_flip_one _ _ (r * COLUMN_COUNT + c)).
    + apply NoDup_seq.
    + apply list_elem_of_In, in_seq. unfold ROW_COUNT, COLUMN_COUNT in *. lia.
    + cbv beta. rewrite Hdiv, Hmod, cell_set_cell by done.
      rewrite decide_True by done. apply Z.eqb_refl.
    + cbv beta. rewrite Hdiv, Hmod, Hz. by apply Z.eqb_neq.
    + intros k _ Hk. cbv beta. by rewrite Hother.
  - rewrite Nat.add_0_r. f_equal. apply filter_ext. intros k.
    destruct (decide (k = r * COLUMN_COUNT + c)) as [-> | Hk].
    + rewrite Hdiv, Hmod, cell_set_cell, Hz by done.
      rewrite decide_True by done.
      transitivity false; [by apply Z.eqb_neq|symmetry; by apply Z.eqb_neq].
    + by rewrite Hother.
Qed.

Lemma other_piece_cases p :
  p = PLAYER_PIECE ∨ p = AI_PIECE →
  (other_piece p = PLAYER_PIECE ∨ other_piece p = AI_PIECE) ∧
  other_piece p ≠ p ∧ other_piece (other_piece p) = p.
Proof. intros [-> | ->]; split_and!; try done; by (left + right). Qed.

Lemma playout_loop_sound fuel : ∀ bs bv ns tp d p,
  wf_board bv → empties bv < fuel → (p = PLAYER_PIECE ∨ p = AI_PIECE) →
  ∃ w bf d',
    playout_loop fuel (length bs) p (mkState (bs ++ [bv]) ns tp d)
      = Ok w (mkState (bs ++ [bf]) ns tp d') ∧
    wf_board bf ∧ is_terminal_node bf = true ∧
    w = (if winning_move bf PLAYER_PIECE then Some PLAYER_PIECE
         else if winning_move bf AI_PIECE then Some AI_PIECE else None) ∧
    d ≤ d' ∧
    count_pieces bf = count_pieces bv + (d' - d) ∧
    pieces_of p bf = pieces_of p bv + (d' - d + 1) / 2 ∧
    pieces_of (other_piece p) bf = pieces_of (other_piece p) bv + (d' - d) / 2 ∧
    (∀ r c, cell bv r c ≠ 0%Z → cell bf r c = cell bv r c) ∧
    (is_terminal_node bv = true → bf = bv ∧ d' = d).
Proof.
  induction fuel as [|fuel IH]; intros bs bv ns tp d p Hwf Hfuel Hp; [lia|].
  cbn [playout_loop].
  assert ((bs ++ [bv]) !! length bs = Some bv) as Hlook
    by (by rewrite list_lookup_middle).
  mrun_by (by apply get_board_eq).
  assert (∀ n, n + (d - d) = n ∧ n + (d - d + 1) / 2 = n ∧ n + (d - d) / 2 = n) as Hz.
  { intros n. rewrite Nat.sub_diag. by rewrite !Nat.add_0_r. }
  destruct (winning_move bv PLAYER_PIECE) eqn:Hw1.
  { exists (Some PLAYER_PIECE), bv, d. unfold is_terminal_node.
    rewrite Hw1. split_and!; try done; symmetry; apply Hz. }
  destruct (winning_move bv AI_PIECE) eqn:Hw2.
  { exists (Some AI_PIECE), bv, d. unfold is_terminal_node.
    rewrite Hw1, Hw2. split_and!; try done; symmetry; apply Hz. }
  destruct (length (get_valid_locations bv) =? 0) eqn:Hlen.
  { exists None, bv, d. unfold is_terminal_node.
    rewrite Hw1, Hw2, Hlen. split_and!; try done; symmetry; apply Hz. }
  assert (is_terminal_node bv = false) as Hnt
    by (unfold is_terminal_node; by rewrite Hw1, Hw2, Hlen).
  apply Nat.eqb_neq in Hlen.
  destruct (random_choice_eq (get_valid_locations bv)
              (mkState (bs ++ [bv]) ns tp d)) as (mv & Hmv & Hrc).
  { by intros E; rewrite E in Hlen. }
  mrun Hrc. sstate.
  destruct (valid_location_drop bv mv Hwf Hmv) as (r & Hrow & Hr & Hc & Hcell).
  rewrite Hrow.
  mrun_by (by eapply drop_piece_eq). sstate.
  rewrite insert_snoc.
  assert (p ≠ 0%Z) as Hp0 by (by destruct Hp as [-> | ->]).
  destruct (other_piece_cases p Hp) as (Hop & Hne & Hinv).
  assert (other_piece p ≠ 0%Z) as Hop0 by (by destruct Hop as [-> | ->]).
  fold (other_piece p).
  destruct (IH bs (set_cell bv r mv p) ns tp (S d) (other_piece p))
    as (w & bf & d' & Hrun & Hwf' & Hterm & Hw & Hd & Hcnt & Hmine & Htheirs
        & Hkeep & _).
  - by apply wf_board_set_cell.
  - pose proof (empties_set_cell bv r mv p Hwf Hr Hc Hcell Hp0). lia.
  - done.
  - rewrite Hinv in Htheirs.
    rewrite pieces_of_set_cell in Hmine, Htheirs by done.
    rewrite count_pieces_set_cell in Hcnt by done.
    rewrite Z.eqb_refl in Htheirs.
    destruct (Z.eqb_spec p (other_piece p)) as [E | _]; [by rewrite <- E in Hne|].
    exists w, bf, d'. split_and!; try done.
    + lia.
    + lia.
    + rewrite Htheirs. replace (d' - d + 1) with (d' - S d + 2) by lia.
      replace (d' - S d + 2) with (d' - S d + 1 * 2) by lia.
      rewrite Nat.div_add by done. lia.
    + rewrite Hmine. replace (d' - S d + 1) with (d' - d) by lia. lia.
    + intros r' c' Hfilled. rewrite Hkeep.
      * rewrite cell_set_cell by done. rewrite decide_False; [done|].
        intros [-> ->]. done.
      * rewrite cell_set_cell by done. destruct (decide _); done.
    + by rewrite Hnt.
Qed.

(** X9: a rollout works on a copy of its own and ends on a terminal
    board; the winner it returns is read off that board ([PLAYER_PIECE]
    is looked for first, [None] means that neither side has four in a
    row); every random number drawn puts one piece on an empty cell, the
    two sides alternating from the starting piece, and no piece that was
    on the board is changed.  On a board that is terminal already
    nothing is drawn and nothing placed. *)
Theorem rollout_sound fuel board_ref start s (bv : Board) :
  boards s !! board_ref = Some bv → wf_board bv →
  ROW_COUNT * COLUMN_COUNT < fuel →
  (∀ p, start = Some p → p = PLAYER_PIECE ∨ p = AI_PIECE) →
  let p := default (piece_to_move bv) start in
  ∃ w bf d',
    simulate_random_playout fuel board_ref start s
      = Ok w (mkState (boards s ++ [bf]) (nodes s) (tape s) d') ∧
    wf_board bf ∧ is_terminal_node bf = true ∧
    w = (if winning_move bf PLAYER_PIECE then Some PLAYER_PIECE
         else if winning_move bf AI_PIECE then Some AI_PIECE else None) ∧
    drawn s ≤ d' ∧
    count_pieces bf = count_pieces bv + (d' - drawn s) ∧
    pieces_of p bf = pieces_of p bv + (d' - drawn s + 1) / 2 ∧
    pieces_of (other_piece p) bf
      = pieces_of (other_piece p) bv + (d' - drawn s) / 2 ∧
    (∀ r c, cell bv r c ≠ 0%Z → cell bf r c = cell bv r c) ∧
    (is_terminal_node bv = true → bf = bv ∧ d' = drawn s).
Proof.
  intros Hb Hwf Hfuel Hstart p. unfold simulate_random_playout.
  mrun_by (by eapply copy_board_eq).
  unfold set_boards.
  mrun_by (apply get_board_eq; sstate; by rewrite list_lookup_middle).
  cbv zeta. cbn [boards nodes tape drawn].
  assert ((match start with
           | Some p0 => p0
           | None => if Nat.even (count_pieces bv) then AI_PIECE else PLAYER_PIECE
           end) = p) as -> by (unfold p, piece_to_move; by destruct start).
  apply playout_loop_sound; [done| |].
  - pose proof (empties_bound bv). lia.
  - unfold p. destruct start as [p0|]; [by apply Hstart|apply piece_to_move_cases].
Qed.

(** * Further properties: the search tree *)

(** ** Positions are kept by the counters and by an expansion *)

Lemma positions_ok_frame r0 bs ns (bs' : list Board) (ns' : list Node) j c' :
  positions_ok r0 bs ns →
  (∀ a x, bs !! a = Some x → bs' !! a = Some x) →
  (∀ i c, ns !! i = Some c →
     ∃ c2, ns' !! i = Some c2 ∧ board c2 = board c ∧ parent c2 = parent c ∧
           player c2 = player c ∧ move c2 = move c) →
  r0 < j → j < length ns → ns' !! j = Some c' →
  ∃ p pn m b r,
    parent c' = Some p ∧ ns' !! p = Some pn ∧ move c' = Some m ∧
    bs' !! board pn = Some b ∧ m ∈ get_valid_locations b ∧
    get_next_open_row b m = Some r ∧
    bs' !! board c' = Some (set_cell b r m (piece_to_move b)) ∧
    player c' = Some (piece_to_move b).
Proof.
  intros Hpos Hbs Hns Hj Hlt Hc'.
  destruct (lookup_lt_is_Some_2 ns j Hlt) as [c Hc].
  destruct (Hns j c Hc) as (c2 & Hc2 & Hb2 & Hp2 & Hpl2 & Hmv2).
  rewrite Hc' in Hc2. injection Hc2 as <-.
  destruct (Hpos j c Hj Hc) as (p & pn & m & b & r & Hp & Hpn & Hm & Hb & Hv & Hr & Hbc & Hpl).
  destruct (Hns p pn Hpn) as (pn' & Hpn' & Hbp & _).
  exists p, pn', m, b, r.
  rewrite Hb2, Hp2, Hpl2, Hmv2, Hbp. split_and!; auto.
Qed.

Lemma positions_ok_step r0 bs ns w l bf :
  positions_ok r0 bs ns → positions_ok r0 (bs ++ [bf]) (credit_path w l ns).
Proof.
  intros Hpos j c' Hj Hc'.
  apply (positions_ok_frame r0 bs ns _ _ j c' Hpos); try done.
  - intros a x Ha. by apply lookup_app_l_Some.
  - intros i c Hc. destruct (credit_path_shape w l ns i c Hc)
      as (c2 & Hc2 & Hb & Hp & _ & _ & Hpl & Hmv).
    by exists c2.
  - apply lookup_lt_Some in Hc'. by rewrite length_credit_path in Hc'.
Qed.

Lemma positions_ok_expanded r0 s j n b mv r rest :
  r0 ≤ j → nodes s !! j = Some n → boards s !! board n = Some b →
  mv ∈ get_valid_locations b → get_next_open_row b mv = Some r →
  positions_ok r0 (boards s) (nodes s) →
  positions_ok r0 (boards (expanded s j n b mv r rest))
                  (nodes (expanded s j n b mv r rest)).
Proof.
  intros Hj Hn Hb Hv Hr Hpos i c' Hi Hc'.
  destruct (decide (i = length (nodes s))) as [-> | Hne].
  - rewrite expanded_lookup_child in Hc'. injection Hc' as <-.
    exists j, (expanded_parent n mv (length (nodes s)) rest), mv, b, r.
    split_and!; try done.
    + by apply expanded_lookup_parent.
    + by apply expanded_boards.
    + unfold expanded. cbn. apply lookup_snoc.
  - apply (positions_ok_frame r0 (boards s) (nodes s) _ _ i c' Hpos); try done.
    + intros a x. apply expanded_boards.
    + intros i' c Hc.
      destruct (expanded_old_node r0 s j n b mv r rest Hj Hn i' c Hc)
        as (c2 & Hc2 & Hb2 & Hp2 & Hpl2 & _ & _ & _ & _ & Hmv2).
      by exists c2.
    + apply lookup_lt_Some in Hc'.
      rewrite (expanded_length r0 s j n b mv r rest Hj) in Hc'. lia.
Qed.

(** ** The store an iteration leaves *)

Section Shape.
Context `{Scoring}.

Lemma finish_shape s0 b0 k s1 k1 fuel :
  mid_inv s0 b0 k s1 k1 → ROW_COUNT * COLUMN_COUNT < fuel → k + 2 ≤ fuel →
  ∃ w l bf d',
    (n <- get_node k1 ;;
     b <- get_board (board n) ;;
     winner <- simulate_random_playout fuel (board n) (Some (piece_to_move b)) ;;
     backpropagate fuel (Some k1) winner) s1
    = Ok tt (mkState (boards s1 ++ [bf]) (credit_path w l (nodes s1))
                     (tape s1) d').
Proof.
  intros [Hbs Htape Hrb Htree Hcnt Hvis [Hk1 Hk1'] Hroot Hgrav Hsize] Hfuel Hfuel'.
  destruct (lookup_lt_is_Some_2 _ _ Hk1') as [n1 Hn1].
  destruct (ok_board _ _ _ _ _ _ (proj2 Htree k1 n1 Hk1 Hn1))
    as (b1 & Hb1 & Hwf1 & HL1 & _).
  mrun (get_node_eq _ _ _ Hn1). mrun (get_board_eq _ _ _ Hb1).
  destruct (simulate_random_playout_spec fuel (board n1) (piece_to_move b1) s1 b1)
    as (w & bf & d' & Hsim & _); try done.
  { apply piece_to_move_cases. }
  mrun Hsim.
  destruct (tree_chain _ _ _ _ Htree (S (k1 - length (nodes s0))) k1 n1)
    as (l & Hchain & Hlen & _); [lia|done|done|].
  rewrite (backpropagate_spec w l); [|done|lia].
  by exists w, l, bf, d'.
Qed.

Lemma iteration_shape s0 b0 k s fuel :
  search_inv s0 b0 k s → ROW_COUNT * COLUMN_COUNT < fuel → k + 2 ≤ fuel →
  ∃ s1 w l bf d',
    iteration fuel (length (nodes s0)) s
    = Ok tt (mkState (boards s1 ++ [bf]) (credit_path w l (nodes s1))
                     (tape s1) d') ∧
    (s1 = s ∨
     ∃ j nj bj mv r rest,
       length (nodes s0) ≤ j ∧ nodes s !! j = Some nj ∧
       boards s !! board nj = Some bj ∧ mv ∈ get_valid_locations bj ∧
       get_next_open_row bj mv = Some r ∧
       s1 = expanded s j nj bj mv r rest).
Proof.
  intros Hinv Hfuel Hfuel'.
  pose proof Hinv as [Hbs Htape Hrb Htree Hcnt Hvis Hroot Hgrav Hsize].
  destruct Hroot as (root & Hr & Hbr & Hv & Hsum & Hleaf).
  destruct (select_spec (length (nodes s0)) (length (boards s0)) fuel
              (length (nodes s0)) s root)
    as (j & nj & bj & Hsel & Hj & Hnj & Hbj & Hstop & Hterm0); try done.
  { lia. }
  assert (is_terminal_node b0 = true → j = length (nodes s0)) as Hsel0.
  { intros Ht. apply (Hterm0 b0); [by rewrite Hbr|done]. }
  unfold iteration. mrun Hsel.
  mrun (get_node_eq _ _ _ Hnj). mrun (get_board_eq _ _ _ Hbj).
  destruct (is_terminal_node bj) eqn:Htj; cbn [negb].
  - mrun_by reflexivity.
    destruct (finish_shape s0 b0 k s j fuel) as (w & l & bf & d' & Hrun);
      [by eapply mid_inv_stay|done|done|].
    exists s, w, l, bf, d'. split; [exact Hrun|by left].
  - destruct Hstop as [|Hfull]; [done|]. rewrite Hfull. cbn [negb].
    destruct (expand_spec _ _ j s nj bj Htree Hj Hnj Hbj Hfull)
      as (mv & r & rest & Hfresh & Hrest & Hvalid & Hrow & Hexp).
    mrun Hexp.
    destruct (finish_shape s0 b0 k (expanded s j nj bj mv r rest)
                (length (nodes s)) fuel) as (w & l & bf & d' & Hrun);
      [by eapply mid_inv_expanded|done|done|].
    exists (expanded s j nj bj mv r rest), w, l, bf, d'.
    split; [exact Hrun|]. right. by exists j, nj, bj, mv, r, rest.
Qed.

Lemma iteration_positions s0 b0 k s fuel :
  search_inv s0 b0 k s →
  positions_ok (length (nodes s0)) (boards s) (nodes s) →
  length (boards s) + length (nodes s0) = length (boards s0) + length (nodes s) + k →
  ROW_COUNT * COLUMN_COUNT < fuel → k + 2 ≤ fuel →
  ∃ s', iteration fuel (length (nodes s0)) s = Ok tt s' ∧
        search_inv s0 b0 (S k) s' ∧
        positions_ok (length (nodes s0)) (boards s') (nodes s') ∧
        length (boards s') + length (nodes s0)
        = length (boards s0) + length (nodes s') + S k.
Proof.
  intros Hinv Hpos Hsize Hfuel Hfuel'.
  destruct (iteration_spec s0 b0 k s fuel Hinv Hfuel Hfuel') as (s' & Hit & Hinv').
  destruct (iteration_shape s0 b0 k s fuel Hinv Hfuel Hfuel')
    as (s1 & w & l & bf & d' & Hrun & Hs1).
  rewrite Hit in Hrun. injection Hrun as ->.
  eexists. split; [exact Hit|]. split; [exact Hinv'|].
  cbn [boards nodes]. rewrite length_app, length_credit_path. cbn [length].
  destruct Hs1 as [-> | (j & nj & bj & mv & r & rest & Hj & Hnj & Hbj & Hv & Hr & ->)].
  - split; [by apply positions_ok_step|lia].
  - split.
    + by apply positions_ok_step, positions_ok_expanded.
    + rewrite (expanded_length _ s j nj bj mv r rest Hj).
      unfold expanded. cbn [boards]. rewrite length_app. cbn [length]. lia.
Qed.

Lemma MCTS_tree_positions fuel rb n s0 b0 :
  boards s0 !! rb = Some b0 → wf_board b0 →
  ROW_COUNT * COLUMN_COUNT < fuel → n < fuel →
  ∃ s, MCTS_tree fuel rb n s0 = Ok (length (nodes s0)) s ∧
       search_inv s0 b0 n s ∧
       positions_ok (length (nodes s0)) (boards s) (nodes s) ∧
       length (boards s) + length (nodes s0)
       = length (boards s0) + length (nodes s) + n.
Proof.
  intros Hb Hwf Hfuel Hfuel'. unfold MCTS_tree.
  mrun (copy_board_eq _ _ _ Hb).
  mrun_by (apply Node_init_eq; sstate; apply lookup_snoc). sstate.
  set (s1 := mkState _ _ _ _).
  assert (∀ m k s, k + m < fuel →
            search_inv s0 b0 k s →
            positions_ok (length (nodes s0)) (boards s) (nodes s) →
            length (boards s) + length (nodes s0)
            = length (boards s0) + length (nodes s) + k →
            ∃ s', for_range m (iteration fuel (length (nodes s0))) s = Ok tt s' ∧
                  search_inv s0 b0 (k + m) s' ∧
                  positions_ok (length (nodes s0)) (boards s') (nodes s') ∧
                  length (boards s') + length (nodes s0)
                  = length (boards s0) + length (nodes s') + (k + m)) as Hloop.
  { induction m as [|m IH]; intros k s Hk Hinv Hpos Hsize.
    - exists s. rewrite Nat.add_0_r. done.
    - destruct (iteration_positions s0 b0 k s fuel Hinv Hpos Hsize Hfuel)
        as (s2 & Hit & Hinv2 & Hpos2 & Hsize2); [lia|].
      destruct (IH (S k) s2) as (s' & Hrun & Hres); [lia|done..|].
      exists s'. split; [simpl; by mrun Hit|].
      by replace (k + S m) with (S k + m) by lia. }
  destruct (Hloop n 0 s1) as (s & Hrun & Hinv & Hpos & Hsize); [lia| | | |].
  - by apply (search_inv_init s0 rb b0).
  - intros j c Hj Hc. unfold s1 in Hc. cbn [nodes] in Hc.
    apply lookup_lt_Some in Hc. rewrite length_app in Hc. simpl in Hc. lia.
  - unfold s1. cbn [boards nodes]. rewrite !length_app. simpl. lia.
  - mrun Hrun. by exists s.
Qed.

End Shape.

(** ** The tree after the iterations *)

Lemma visits_le_root r0 L0 bs ns root :
  tree_ok r0 L0 bs ns → counts_ok r0 ns → ns !! r0 = Some root →
  ∀ k i n, i - r0 < k → r0 ≤ i → ns !! i = Some n → visits n ≤ visits root.
Proof.
  intros [_ Htree] Hcnt Hroot. induction k as [|k IH]; intros i n Hk Hi Hn; [lia|].
  pose proof (ok_parent _ _ _ _ _ _ (Htree i n Hi Hn)) as Hpar.
  destruct (decide (i = r0)) as [-> | Hne].
  - rewrite Hroot in Hn. by injection Hn as <-.
  - destruct Hpar as (p & pn & Hp & Hrange & Hpn & Hin).
    apply elem_of_child_ids in Hin as (m & Hin).
    destruct (Hcnt p pn) as [_ Hle]; [lia|done|].
    specialize (Hle m i n Hin Hn).
    assert (visits pn ≤ visits root) by (apply (IH p); [lia|lia|done]). lia.
Qed.

Section Tree.
Context `{Scoring}.

(** X10: whatever the random numbers, after [N] iterations the search
    has built at most [N] nodes besides the root and allocated one board
    per node and one per rollout; in every node wins are at most visits
    and visits at most [N]; the untried moves and the keys of the
    children together are the legal columns of the node's board, each
    once; every child is a later node that points back to its parent,
    records the key as its move, and has between one visit and as many
    as its parent. *)
Theorem search_tree_well_formed fuel rb N s0 (b0 : Board) :
  boards s0 !! rb = Some b0 → wf_board b0 →
  ROW_COUNT * COLUMN_COUNT < fuel → N < fuel →
  ∃ s,
    MCTS_tree fuel rb N s0 = Ok (length (nodes s0)) s ∧
    length (nodes s0) < length (nodes s) ≤ length (nodes s0) + N + 1 ∧
    length (boards s)
    = length (boards s0) + (length (nodes s) - length (nodes s0)) + N ∧
    ∀ i n, length (nodes s0) ≤ i → nodes s !! i = Some n →
      wins n ≤ visits n ∧ visits n ≤ N ∧
      (∃ b, boards s !! board n = Some b ∧ wf_board b ∧
            length (boards s0) ≤ board n ∧
            untried_moves n ++ (children n).*1 ≡ₚ get_valid_locations b) ∧
      NoDup (untried_moves n ++ (children n).*1) ∧
      (∀ m j, (m, j) ∈ children n →
         i < j ∧ ∃ c, nodes s !! j = Some c ∧ parent c = Some i ∧
                      move c = Some m ∧ 1 ≤ visits c ≤ visits n).
Proof.
  intros Hb Hwf Hfuel Hfuel'.
  destruct (MCTS_tree_positions fuel rb N s0 b0 Hb Hwf Hfuel Hfuel')
    as (s & Hrun & Hinv & _ & Hsize).
  destruct Hinv as [Hbs Htape Hrb Htree Hcnt Hvis Hroot Hgrav Hnodes].
  destruct Hroot as (root & Hr & Hbr & Hv & _).
  pose proof (proj1 Htree) as Hlt0.
  exists s. split; [done|]. split; [lia|]. split; [lia|].
  intros i n Hi Hn.
  destruct (proj2 Htree i n Hi Hn) as [Hboard Hchildren Hids Hmoves Hparent].
  destruct (Hcnt i n Hi Hn) as [Hwins Hle].
  split; [done|]. split.
  { rewrite <- Hv.
    apply (visits_le_root _ _ _ _ root Htree Hcnt Hr (S (i - length (nodes s0))) i n);
      [lia|done|done]. }
  split; [done|]. split.
  { destruct Hboard as (b & _ & _ & _ & Hperm). rewrite Hperm.
    apply NoDup_get_valid_locations. }
  intros m j Hin. destruct (Hchildren m j Hin) as (Hlt & c & Hc & Hpar).
  split; [done|]. exists c. split; [done|]. split; [done|].
  split; [by eapply Hmoves|]. split; [apply (Hvis j); [lia|done]|by eapply Hle].
Qed.

(** X11: every node below the root stands for the position its move
    leads to: its board is the board of its parent with one more piece,
    in the lowest open row of the column it records, a legal column of
    the parent's board; the piece, which the node records as its player,
    is the one the parity of the parent's board gives the turn to ([AI]
    on an even number of pieces), so the pieces alternate down the tree.
    The root holds a copy of the caller's board and records no player. *)
Theorem tree_positions fuel rb N s0 (b0 : Board) :
  boards s0 !! rb = Some b0 → wf_board b0 →
  ROW_COUNT * COLUMN_COUNT < fuel → N < fuel →
  ∃ s root,
    MCTS_tree fuel rb N s0 = Ok (length (nodes s0)) s ∧
    nodes s !! length (nodes s0) = Some root ∧
    boards s !! board root = Some b0 ∧
    parent root = None ∧ player root = None ∧
    ∀ j c, length (nodes s0) < j → nodes s !! j = Some c →
      ∃ p pn m b r,
        parent c = Some p ∧ length (nodes s0) ≤ p < j ∧
        nodes s !! p = Some pn ∧ (m, j) ∈ children pn ∧ move c = Some m ∧
        boards s !! board pn = Some b ∧ m ∈ get_valid_locations b ∧
        get_next_open_row b m = Some r ∧
        boards s !! board c = Some (set_cell b r m (piece_to_move b)) ∧
        player c = Some (piece_to_move b) ∧
        (∀ q, player pn = Some q → player c = Some (other_piece q)).
Proof.
  intros Hb Hwf Hfuel Hfuel'.
  destruct (MCTS_tree_positions fuel rb N s0 b0 Hb Hwf Hfuel Hfuel')
    as (s & Hrun & Hinv & Hpos & _).
  destruct Hinv as [Hbs Htape Hrb Htree Hcnt Hvis Hroot Hgrav Hnodes].
  destruct Hroot as (root & Hr & Hbr & Hv & _).
  exists s, root. split; [done|]. split; [done|]. split; [by rewrite Hbr|].
  pose proof (ok_parent _ _ _ _ _ _ (proj2 Htree _ root (le_n _) Hr)) as Hpr.
  rewrite decide_True in Hpr by done. destruct Hpr as [Hpr Hplr].
  split; [done|]. split; [done|].
  intros j c Hj Hc.
  destruct (Hpos j c Hj Hc)
    as (p & pn & m & b & r & Hp & Hpn & Hm & Hbp & Hval & Hrow & Hbc & Hpl).
  pose proof (ok_parent _ _ _ _ _ _ (proj2 Htree j c (Nat.lt_le_incl _ _ Hj) Hc))
    as Hpar.
  rewrite decide_False in Hpar by lia.
  destruct Hpar as (p' & pn' & Hp' & Hrange & Hpn' & Hin).
  rewrite Hp in Hp'. injection Hp' as <-.
  rewrite Hpn in Hpn'. injection Hpn' as <-.
  apply elem_of_child_ids in Hin as (m' & Hin).
  pose proof (ok_moves _ _ _ _ _ _ (proj2 Htree p pn (proj1 Hrange) Hpn) m' j c Hin Hc)
    as Hm'.
  rewrite Hm in Hm'. injection Hm' as <-.
  exists p, pn, m, b, r. split_and!; try done; try lia.
  intros q Hq. rewrite Hpl. f_equal.
  destruct (decide (p = length (nodes s0))) as [-> | Hne].
  { rewrite Hr in Hpn. injection Hpn as <-. congruence. }
  destruct (Hpos p pn) as (g & gn & m1 & b1 & r1 & Hg & Hgn & Hm1 & Hb1 & Hv1 & Hr1 & Hbpn & Hplp);
    [lia|done|].
  rewrite Hbp in Hbpn. injection Hbpn as ->.
  rewrite Hq in Hplp. injection Hplp as ->.
  pose proof (ok_parent _ _ _ _ _ _ (proj2 Htree p pn (proj1 Hrange) Hpn)) as Hpp.
  rewrite decide_False in Hpp by done.
  destruct Hpp as (g' & gn' & Hg' & Hgrange & Hgn' & _).
  rewrite Hg in Hg'. injection Hg' as <-.
  rewrite Hgn in Hgn'. injection Hgn' as <-.
  destruct (ok_board _ _ _ _ _ _ (proj2 Htree g gn (proj1 Hgrange) Hgn))
    as (b1' & Hb1' & Hwf1 & _).
  rewrite Hb1 in Hb1'. injection Hb1' as <-.
  destruct (valid_location_drop b1 m1 Hwf1 Hv1) as (r1' & Hr1' & Hrlt & Hclt & Hcell).
  rewrite Hr1 in Hr1'. injection Hr1' as <-.
  apply piece_to_move_set_cell; try done. apply piece_to_move_nonzero.
Qed.

End Tree.

(** * Further properties: what the caller gets back *)

Lemma length_le_sum_list (l : list nat) :
  (∀ x, x ∈ l → 1 ≤ x) → length l ≤ sum_list l.
Proof.
  induction l as [|x l IH]; intros Hl; [done|].
  rewrite sum_list_cons. cbn [length].
  assert (1 ≤ x) by (apply Hl; by left).
  assert (length l ≤ sum_list l) by (apply IH; intros y Hy; apply Hl; by right).
  lia.
Qed.

Section Outcome.
Context `{Scoring}.

Lemma MCTS_Search_result fuel rb N s0 b0 :
  boards s0 !! rb = Some b0 → wf_board b0 → get_valid_locations b0 ≠ [] →
  ROW_COUNT * COLUMN_COUNT < fuel → N < fuel →
  ∃ col stats s s' root,
    MCTS_tree fuel rb N s0 = Ok (length (nodes s0)) s ∧
    search_inv s0 b0 N s ∧
    nodes s !! length (nodes s0) = Some root ∧
    MCTS_Search fuel rb N s0 = Ok (Some col, stats) s' ∧
    boards s' = boards s ∧ nodes s' = nodes s ∧
    col ∈ get_valid_locations b0 ∧
    stats.*1 = (children root).*1 ∧
    (λ e, stat_visits e.2) <$> stats = visits_at (nodes s) <$> (children root).*2 ∧
    (children root ≠ [] → col ∈ (children root).*1).
Proof.
  intros Hrb Hwf Hlegal Hfuel HN.
  destruct (MCTS_tree_spec fuel rb N s0 b0 Hrb Hwf Hfuel HN) as (s & Hrun & Hinv).
  destruct (inv_root _ _ _ _ Hinv) as (root & Hr & Hbr & _).
  pose proof (proj2 (inv_tree _ _ _ _ Hinv) _ root (le_n _) Hr) as Hok.
  unfold MCTS_Search.
  destruct (decide (children root = [])) as [Hnil | Hne].
  - destruct (random_choice_eq (get_valid_locations b0) s Hlegal)
      as (col & Hcol & Hrc).
    exists col, [], s, (mkState (boards s) (nodes s) (tape s) (S (drawn s))), root.
    split_and!; try done.
    + mrun Hrun. rewrite (choose_move_fallback s0 b0 N s rb root) by done.
      by mrun Hrc.
    + by rewrite Hnil.
    + by rewrite Hnil.
  - destruct (choose_move_best s0 b0 N s rb root Hinv Hr Hne)
      as (m & j & best & Hin & _ & _ & _ & Heq).
    eexists m, _, s, s, root. split_and!; try done.
    + mrun Hrun. exact Heq.
    + destruct (ok_board _ _ _ _ _ _ Hok) as (b & Hb & _ & _ & Hperm).
      rewrite Hbr, (inv_root_board _ _ _ _ Hinv) in Hb. injection Hb as <-.
      rewrite <- Hperm. apply elem_of_app. right.
      apply list_elem_of_fmap. by exists (m, j).
    + by rewrite <- list_fmap_compose.
    + rewrite <- !list_fmap_compose. apply list_fmap_ext.
      intros i [m' j'] Hi. cbn.
      destruct (ok_children _ _ _ _ _ _ Hok m' j') as (_ & c & Hc & _).
      { by eapply list_elem_of_lookup_2. }
      unfold visits_at. by rewrite Hc.
    + intros _. apply list_elem_of_fmap. by exists (m, j).
Qed.

(** X12: the statistics [MCTS_Search] hands to the caller, on a board
    with a legal column: their keys are legal columns of the caller's
    board, each at most once; every entry has at least one visit and at
    most [N]; they are empty exactly when there was no iteration or the
    board is terminal (the move is then the random one); otherwise the
    returned column is one of the keys and the visits of the entries add
    up to [N], so there are at most [N] entries. *)
Theorem search_statistics fuel rb N s0 (b0 : Board) :
  boards s0 !! rb = Some b0 → wf_board b0 → get_valid_locations b0 ≠ [] →
  ROW_COUNT * COLUMN_COUNT < fuel → N < fuel →
  ∃ col stats s',
    MCTS_Search fuel rb N s0 = Ok (Some col, stats) s' ∧
    NoDup stats.*1 ∧
    (∀ m, m ∈ stats.*1 → m ∈ get_valid_locations b0) ∧
    (∀ m st, (m, st) ∈ stats → 1 ≤ stat_visits st ≤ N) ∧
    (stats = [] ↔ N = 0 ∨ is_terminal_node b0 = true) ∧
    (stats ≠ [] →
       col ∈ stats.*1 ∧ sum_list ((λ e, stat_visits e.2) <$> stats) = N ∧
       length stats ≤ N).
Proof.
  intros Hrb Hwf Hlegal Hfuel HN.
  destruct (MCTS_Search_result fuel rb N s0 b0 Hrb Hwf Hlegal Hfuel HN)
    as (col & stats & s & s' & root & _ & Hinv & Hr & Hrun & _ & _ & Hcol
        & Hkeys & Hvisits & Hbest).
  destruct (inv_root _ _ _ _ Hinv) as (root' & Hr' & Hbr & Hv & Hsum & Hleaf).
  rewrite Hr in Hr'. injection Hr' as <-.
  pose proof (proj2 (inv_tree _ _ _ _ Hinv) _ root (le_n _) Hr) as Hok.
  destruct (ok_board _ _ _ _ _ _ Hok) as (b & Hb & _ & _ & Hperm).
  rewrite Hbr, (inv_root_board _ _ _ _ Hinv) in Hb. injection Hb as <-.
  assert (∀ x, x ∈ visits_at (nodes s) <$> (children root).*2 → 1 ≤ x ≤ N) as Hrange.
  { intros x (j & -> & Hj)%list_elem_of_fmap.
    apply elem_of_child_ids in Hj as (m & Hin).
    destruct (ok_children _ _ _ _ _ _ Hok m j Hin) as (Hlt & c & Hc & _).
    unfold visits_at. rewrite Hc. cbn. split.
    - by apply (inv_visited _ _ _ _ Hinv j).
    - rewrite <- Hv. by apply (proj2 (inv_counts _ _ _ _ Hinv _ root (le_n _) Hr) m j c). }
  assert (stats = [] ↔ children root = []) as Hempty.
  { split; intros E; rewrite E in Hkeys.
    - symmetry in Hkeys. by apply fmap_nil_inv in Hkeys.
    - by apply fmap_nil_inv in Hkeys. }
  pose proof (length_le_sum_list _ (λ x Hx, proj1 (Hrange x Hx))) as Hlen.
  rewrite !length_fmap in Hlen.
  exists col, stats, s'. split; [done|]. split_and!.
  - rewrite Hkeys. pose proof (NoDup_get_valid_locations b0) as Hnd.
    rewrite <- Hperm in Hnd. by apply NoDup_app in Hnd as (_ & _ & Hnd).
  - intros m Hm. rewrite Hkeys in Hm. rewrite <- Hperm.
    apply elem_of_app. by right.
  - intros m st Hst. apply Hrange. rewrite <- Hvisits.
    apply list_elem_of_fmap. by exists (m, st).
  - rewrite Hempty. split.
    + intros Hnil. destruct (is_terminal_node b0) eqn:Ht; [by right|left].
      specialize (Hsum eq_refl). unfold children_visits in Hsum.
      by rewrite Hnil in Hsum.
    + intros [-> | Ht]; [|by apply Hleaf].
      destruct (is_terminal_node b0) eqn:Ht; [by apply Hleaf|].
      specialize (Hsum eq_refl). unfold children_visits in Hsum.
      destruct (children root) as [|x l]; [done|].
      rewrite Hsum in Hlen. simpl in Hlen. lia.
  - intros Hne. assert (children root ≠ []) as Hch by (by rewrite <- Hempty).
    assert (is_terminal_node b0 = false) as Hnt.
    { destruct (is_terminal_node b0) eqn:Ht; [|done]. by destruct (Hleaf eq_refl). }
    specialize (Hsum Hnt). unfold children_visits in Hsum.
    split; [rewrite Hkeys; by apply Hbest|].
    rewrite Hvisits. split; [done|].
    assert (length stats = length (children root)) as ->.
    { by rewrite <- (length_fmap fst stats), Hkeys, length_fmap. }
    by rewrite Hsum in Hlen.
Qed.

End Outcome.

(** * Further properties: the methods of [Node] outside the search *)

Section Methods.
Context `{Scoring}.

Lemma uct_choices_log_zero i n s (l : list (nat * nat)) :
  nodes s !! i = Some n → visits n = 0 →
  (∀ m j, (m, j) ∈ l → is_Some (nodes s !! j)) →
  (∃ m j c, (m, j) ∈ l ∧ nodes s !! j = Some c ∧ visits c ≠ 0) →
  mapM (uct_choice i) l s = Raise ValueError.
Proof.
  intros Hn Hzero. induction l as [|[m j] l IH]; intros Hall Hsome.
  { destruct Hsome as (m & j & c & Hin & _). by apply elem_of_nil in Hin. }
  destruct (Hall m j ltac:(by left)) as [c Hc].
  cbn [mapM]. unfold bind at 1, uct_choice at 1. cbn [snd].
  rewrite (bind_eq _ _ _ _ _ (get_node_eq _ _ _ Hc)).
  destruct (visits c =? 0) eqn:Hv.
  - unfold ret at 1. unfold bind.
    rewrite IH; [done| |].
    + intros m' j' Hin. apply (Hall m' j'). by right.
    + destruct Hsome as (m' & j' & c' & Hin & Hc' & Hv').
      apply elem_of_cons in Hin as [[= -> ->] | Hin].
      * rewrite Hc in Hc'. injection Hc' as <-. by apply Nat.eqb_eq in Hv.
      * by exists m', j', c'.
  - rewrite (bind_eq _ _ _ _ _ (get_node_eq _ _ _ Hn)).
    by rewrite Hzero.
Qed.

(** X13: the methods of [Node] on the nodes the search never calls them
    on.  On a node without children [best_uct_child] and
    [best_child_by_visits] raise the ValueError of [max] on an empty
    sequence; on a node without untried move [expand] raises the
    IndexError of [random.choice]; on a node with no visit of its own
    and a visited child [best_uct_child] raises the ValueError of
    [math.log(0)]. *)
Theorem node_methods_raise i n s :
  nodes s !! i = Some n →
  (children n = [] →
     best_uct_child i s = Raise ValueError ∧
     best_child_by_visits i s = Raise ValueError) ∧
  (untried_moves n = [] → expand i s = Raise IndexError) ∧
  (visits n = 0 →
   (∀ m j, (m, j) ∈ children n → is_Some (nodes s !! j)) →
   (∃ m j c, (m, j) ∈ children n ∧ nodes s !! j = Some c ∧ visits c ≠ 0) →
   best_uct_child i s = Raise ValueError).
Proof.
  intros Hn. split_and!.
  - intros Hnil. split.
    + unfold best_uct_child. mrun (get_node_eq _ _ _ Hn). by rewrite Hnil.
    + unfold best_child_by_visits. mrun (get_node_eq _ _ _ Hn). by rewrite Hnil.
  - intros Hnil. unfold expand. mrun (get_node_eq _ _ _ Hn). rewrite Hnil.
    unfold bind. by rewrite random_choice_nil.
  - intros Hzero Hall Hsome. unfold best_uct_child.
    mrun (get_node_eq _ _ _ Hn). unfold bind.
    by rewrite (uct_choices_log_zero i n s (children n) Hn Hzero Hall Hsome).
Qed.

End Methods.

(** * Further properties: the game loop *)

Lemma index_is_valid_location_eq (b : Board) col s :
  wf_board b → col < COLUMN_COUNT →
  index_is_valid_location b col s = Ok (is_valid_location b col) s.
Proof.
  intros Hwf Hcol. unfold index_is_valid_location, is_valid_location, cell.
  destruct (wf_board_row b (ROW_COUNT - 1) Hwf) as (cells & Hcells & Hlen);
    [unfold ROW_COUNT; lia|].
  rewrite Hcells.
  destruct (lookup_lt_is_Some_2 cells col) as [x Hx]; [lia|].
  rewrite Hx. unfold ret. do 2 f_equal.
  rewrite (nth_lookup_Some _ _ _ _ Hcells). by rewrite (nth_lookup_Some _ _ _ _ Hx).
Qed.

Lemma index_is_valid_location_out (b : Board) col s :
  wf_board b → COLUMN_COUNT ≤ col →
  index_is_valid_location b col s = Raise IndexError.
Proof.
  intros Hwf Hcol. unfold index_is_valid_location.
  destruct (wf_board_row b (ROW_COUNT - 1) Hwf) as (cells & Hcells & Hlen);
    [unfold ROW_COUNT; lia|].
  rewrite Hcells. rewrite lookup_ge_None_2; [done|lia].
Qed.

Lemma winning_move_unset (b : Board) r c q piece :
  wf_board b → r < ROW_COUNT → c < COLUMN_COUNT → q ≠ piece →
  winning_move (set_cell b r c q) piece = true → winning_move b piece = true.
Proof.
  intros Hwf Hr Hc Hq Hwin.
  apply winning_move_has_four in Hwin as (o & r0 & c0 & Hrow).
  apply has_four_winning_move. exists o, r0, c0. intros i Hi.
  destruct (Hrow i Hi) as [Hon Hcell]. split; [done|].
  rewrite cell_set_cell in Hcell by done.
  by destruct (decide (_ ∧ _)).
Qed.

Lemma click_column posx :
  posx < COLUMN_COUNT * SQUARESIZE ↔ posx / SQUARESIZE < COLUMN_COUNT.
Proof.
  unfold COLUMN_COUNT, SQUARESIZE. split; intros Hlt.
  - apply Nat.Div0.div_lt_upper_bound. lia.
  - pose proof (Nat.div_mod_eq posx 100).
    pose proof (Nat.mod_upper_bound posx 100). lia.
Qed.

Lemma player_click_spec posx g s (b : Board) :
  boards s !! game_board g = Some b → wf_board b → turn g = PLAYER →
  posx < COLUMN_COUNT * SQUARESIZE →
  (is_valid_location b (posx / SQUARESIZE) = false →
   player_click posx g s = Ok g s) ∧
  (is_valid_location b (posx / SQUARESIZE) = true →
   ∃ r, get_next_open_row b (posx / SQUARESIZE) = Some r ∧
     r < ROW_COUNT ∧ cell b r (posx / SQUARESIZE) = 0%Z ∧
     player_click posx g s
     = Ok (mkGame (game_board g) AI
             (if winning_move (set_cell b r (posx / SQUARESIZE) PLAYER_PIECE)
                              PLAYER_PIECE
              then true else game_over g)
             (mcts_stats g))
          (set_boards
             (λ bs, <[game_board g := set_cell b r (posx / SQUARESIZE) PLAYER_PIECE]> bs)
             s)).
Proof.
  intros Hb Hwf Hturn Hposx. apply click_column in Hposx.
  unfold player_click. rewrite Hturn. cbn [Nat.eqb PLAYER]. cbv zeta.
  mrun (get_board_eq _ _ _ Hb).
  mrun (index_is_valid_location_eq b (posx / SQUARESIZE) s Hwf Hposx).
  split; intros Hv; rewrite Hv; [done|].
  destruct (get_next_open_row_valid b _ Hv) as [r Hrow].
  destruct (get_next_open_row_Some _ _ _ Hrow) as (Hr & Hz & _).
  exists r. split; [done|]. split; [done|]. split; [done|].
  rewrite Hrow.
  mrun (drop_piece_eq _ _ r (posx / SQUARESIZE) PLAYER_PIECE s Hb Hwf Hr Hposx).
  mrun_by (apply get_board_eq; sstate; apply list_lookup_insert_eq;
           by eapply lookup_lt_Some).
  done.
Qed.

(** X14: a click while it is the player's turn.  Inside the window the
    column is [posx // 100]; on a column whose top cell is taken nothing
    changes, the turn included; on any other column one [PLAYER_PIECE]
    lands on the lowest empty cell of the column, the turn passes to the
    AI, and the game is over exactly when the player has four in a row
    (or it was over before).  A position right of the seven columns
    raises IndexError, and a click during the AI's turn is ignored. *)
Theorem player_click_effect posx g s (b : Board) :
  boards s !! game_board g = Some b → wf_board b → gravity_packed b →
  let col := posx / SQUARESIZE in
  (turn g ≠ PLAYER → player_click posx g s = Ok g s) ∧
  (turn g = PLAYER → COLUMN_COUNT * SQUARESIZE ≤ posx →
   player_click posx g s = Raise IndexError) ∧
  (turn g = PLAYER → posx < COLUMN_COUNT * SQUARESIZE →
   is_valid_location b col = false → player_click posx g s = Ok g s) ∧
  (turn g = PLAYER → posx < COLUMN_COUNT * SQUARESIZE →
   is_valid_location b col = true →
   ∃ r b',
     b' = set_cell b r col PLAYER_PIECE ∧
     player_click posx g s
     = Ok (mkGame (game_board g) AI (winning_move b' PLAYER_PIECE || game_over g)
                  (mcts_stats g))
          (set_boards (λ bs, <[game_board g := b']> bs) s) ∧
     r = column_height b col ∧ r < ROW_COUNT ∧ cell b r col = 0%Z ∧
     wf_board b' ∧ gravity_packed b' ∧
     count_pieces b' = S (count_pieces b)).
Proof.
  intros Hb Hwf Hg col. split_and!.
  - intros Hturn. unfold player_click.
    destruct (Nat.eqb_spec (turn g) PLAYER); done.
  - intros Hturn Hposx. unfold player_click. rewrite Hturn.
    cbn [Nat.eqb PLAYER]. cbv zeta. mrun (get_board_eq _ _ _ Hb).
    unfold bind. rewrite index_is_valid_location_out; [done|done|].
    fold col. destruct (decide (col < COLUMN_COUNT)) as [Hlt | Hge]; [|lia].
    apply click_column in Hlt. lia.
  - intros Hturn Hposx Hv.
    by apply (player_click_spec posx g s b Hb Hwf Hturn Hposx).
  - intros Hturn Hposx Hv.
    destruct (proj2 (player_click_spec posx g s b Hb Hwf Hturn Hposx) Hv)
      as (r & Hrow & Hr & Hz & Hrun).
    apply click_column in Hposx. fold col in Hrow, Hz, Hrun, Hposx.
    exists r, (set_cell b r col PLAYER_PIECE). split; [done|]. split.
    { exact Hrun. }
    split; [symmetry; by apply gravity_open_row_height|].
    split; [done|]. split; [done|]. split; [by apply wf_board_set_cell|].
    split; [by apply gravity_packed_drop|by apply count_pieces_set_cell].
Qed.

Section LoopProofs.
Context `{Scoring}.

Lemma MCTS_Search_no_column fuel rb N s0 b0 :
  boards s0 !! rb = Some b0 → wf_board b0 → get_valid_locations b0 = [] →
  ROW_COUNT * COLUMN_COUNT < fuel → N < fuel →
  MCTS_Search fuel rb N s0 = Raise IndexError.
Proof.
  intros Hrb Hwf Hnone Hfuel HN.
  destruct (MCTS_tree_spec fuel rb N s0 b0 Hrb Hwf Hfuel HN) as (s & Hrun & Hinv).
  destruct (inv_root _ _ _ _ Hinv) as (root & Hr & _ & _ & _ & Hleaf).
  assert (is_terminal_node b0 = true) as Hterm.
  { unfold is_terminal_node. rewrite Hnone. apply orb_true_r. }
  destruct (Hleaf Hterm) as [Hnil _].
  unfold MCTS_Search. mrun Hrun.
  rewrite (choose_move_fallback s0 b0 N s rb root) by done.
  by rewrite Hnone.
Qed.

Lemma ai_turn_spec fuel g s (b : Board) :
  boards s !! game_board g = Some b → wf_board b →
  turn g = AI → game_over g = false → get_valid_locations b ≠ [] →
  800 < fuel →
  ∃ col r stats s1,
    col ∈ get_valid_locations b ∧ get_next_open_row b col = Some r ∧
    r < ROW_COUNT ∧ col < COLUMN_COUNT ∧ cell b r col = 0%Z ∧
    boards s `prefix_of` boards s1 ∧
    MCTS_Search fuel (game_board g) 800 s = Ok (Some col, stats) s1 ∧
    ai_turn fuel g s
    = Ok (mkGame (game_board g) PLAYER
            (winning_move (set_cell b r col AI_PIECE) AI_PIECE) stats)
         (set_boards (λ bs, <[game_board g := set_cell b r col AI_PIECE]> bs) s1).
Proof.
  intros Hb Hwf Hturn Hover Hlegal Hfuel.
  destruct (MCTS_Search_result fuel (game_board g) 800 s b Hb Hwf Hlegal)
    as (col & stats & st & s1 & root & _ & Hinv & _ & Hrun & Hbs & _ & Hcol & _);
    [unfold ROW_COUNT, COLUMN_COUNT; lia|lia|].
  destruct (valid_location_drop b col Hwf Hcol) as (r & Hrow & Hr & Hc & Hz).
  assert (boards s `prefix_of` boards s1) as Hpre
    by (rewrite Hbs; apply (inv_boards _ _ _ _ Hinv)).
  assert (boards s1 !! game_board g = Some b) as Hb1
    by (by eapply prefix_lookup_Some).
  exists col, r, stats, s1. split_and!; try done.
  unfold ai_turn. rewrite Hturn, Hover. cbn [Nat.eqb AI negb andb]. cbv zeta.
  mrun Hrun. cbn [fst snd].
  mrun (get_board_eq _ _ _ Hb1).
  mrun (index_is_valid_location_eq b col s1 Hwf Hc).
  apply elem_of_get_valid_locations in Hcol as [_ ->].
  rewrite Hrow.
  mrun (drop_piece_eq _ _ r col AI_PIECE s1 Hb1 Hwf Hr Hc).
  mrun_by (apply get_board_eq; sstate; apply list_lookup_insert_eq;
           by eapply lookup_lt_Some).
  unfold ret. do 2 f_equal.
  by destruct (winning_move _ _).
Qed.

(** X15: the turn of the AI, on a board with a legal column: the 800
    iterations run, and exactly one [AI_PIECE] is put on the board, on
    the lowest empty cell of a legal column (the one [MCTS_Search]
    returned); the turn passes to the player, the statistics of the
    search are kept, and the game is over exactly when the AI has four
    in a row.  On a board without legal column the turn ends in the
    IndexError of [MCTS_Search]: the loop has no test for a draw. *)
Theorem ai_turn_effect fuel g s (b : Board) :
  boards s !! game_board g = Some b → wf_board b → gravity_packed b →
  turn g = AI → game_over g = false → 800 < fuel →
  (get_valid_locations b = [] → ai_turn fuel g s = Raise IndexError) ∧
  (get_valid_locations b ≠ [] →
   ∃ col r b' stats s1 s',
     MCTS_Search fuel (game_board g) 800 s = Ok (Some col, stats) s1 ∧
     ai_turn fuel g s
     = Ok (mkGame (game_board g) PLAYER (winning_move b' AI_PIECE) stats) s' ∧
     col ∈ get_valid_locations b ∧ r = column_height b col ∧
     cell b r col = 0%Z ∧ b' = set_cell b r col AI_PIECE ∧
     boards s' !! game_board g = Some b' ∧
     (∀ a x, a ≠ game_board g → boards s !! a = Some x → boards s' !! a = Some x) ∧
     wf_board b' ∧ gravity_packed b' ∧ count_pieces b' = S (count_pieces b)).
Proof.
  intros Hb Hwf Hg Hturn Hover Hfuel. split.
  - intros Hnone. unfold ai_turn. rewrite Hturn, Hover.
    cbn [Nat.eqb AI negb andb]. cbv zeta. unfold bind.
    rewrite (MCTS_Search_no_column fuel (game_board g) 800 s b); try done.
    unfold ROW_COUNT, COLUMN_COUNT. lia.
  - intros Hlegal.
    destruct (ai_turn_spec fuel g s b Hb Hwf Hturn Hover Hlegal Hfuel)
      as (col & r & stats & s1 & Hcol & Hrow & Hr & Hc & Hz & Hpre & Hsearch & Hrun).
    assert (game_board g < length (boards s1)) as Hlt.
    { eapply lookup_lt_Some, prefix_lookup_Some; [exact Hb|exact Hpre]. }
    eexists col, r, (set_cell b r col AI_PIECE), stats, s1, _.
    split; [exact Hsearch|]. split; [exact Hrun|].
    split; [done|]. split; [symmetry; by apply gravity_open_row_height|].
    split; [done|]. split; [done|]. split_and!.
    + sstate. by apply list_lookup_insert_eq.
    + intros a x Ha Hx. sstate. rewrite list_lookup_insert_ne by done.
      by eapply prefix_lookup_Some.
    + by apply wf_board_set_cell.
    + by apply gravity_packed_drop.
    + by apply count_pieces_set_cell.
Qed.

End LoopProofs.

(** ** What the loop keeps true *)

Lemma game_inv_init t0 rb :
  t0 = PLAYER ∨ t0 = AI → game_inv t0 (mkGame rb t0 false []) create_board.
Proof.
  intros Ht0. split; [apply wf_create_board|].
  split; [apply gravity_packed_create_board|].
  split; [done|]. cbn [turn game_over]. split_and!; [|done|done].
  change (pieces_of PLAYER_PIECE create_board) with 0.
  change (pieces_of AI_PIECE create_board) with 0.
  destruct Ht0 as [-> | ->]; rewrite !decide_False; try done; by intros [? ?].
Qed.

Lemma game_inv_move t0 g (b : Board) r col mover p stats :
  game_inv t0 g b → t0 = PLAYER ∨ t0 = AI → game_over g = false →
  get_next_open_row b col = Some r → col < COLUMN_COUNT →
  (mover = PLAYER ∧ p = PLAYER_PIECE) ∨ (mover = AI ∧ p = AI_PIECE) →
  turn g = mover →
  game_inv t0
    (mkGame (game_board g) (1 - mover) (winning_move (set_cell b r col p) p) stats)
    (set_cell b r col p).
Proof.
  intros (Hwf & Hg & Hturn & Hpieces & Hcount & Hover) Ht0 Hnot Hrow Hcol Hmover Hm.
  destruct (get_next_open_row_Some _ _ _ Hrow) as (Hr & Hz & _).
  rewrite Hnot in Hover. symmetry in Hover.
  apply orb_false_iff in Hover as [HwP HwA].
  assert (p ≠ 0%Z) as Hp0 by (by destruct Hmover as [[_ ->] | [_ ->]]).
  split; [by apply wf_board_set_cell|].
  split; [by apply gravity_packed_drop|].
  cbn [turn game_over].
  split; [destruct Hmover as [[-> _] | [-> _]]; cbv; auto|].
  rewrite !pieces_of_set_cell by done.
  rewrite count_pieces_set_cell by done.
  rewrite Hm in Hpieces. unfold PLAYER, AI in *.
  destruct Hmover as [[-> ->] | [-> ->]].
  - change (PLAYER_PIECE =? PLAYER_PIECE)%Z with true.
    change (PLAYER_PIECE =? AI_PIECE)%Z with false.
    change (1 - 0) with 1. split_and!.
    + destruct Ht0 as [-> | ->]; repeat case_decide; lia.
    + lia.
    + destruct (winning_move (set_cell b r col PLAYER_PIECE) AI_PIECE) eqn:E.
      * apply winning_move_unset in E; [congruence|done..].
      * by rewrite orb_false_r.
  - change (AI_PIECE =? PLAYER_PIECE)%Z with false.
    change (AI_PIECE =? AI_PIECE)%Z with true.
    change (1 - 1) with 0. split_and!.
    + destruct Ht0 as [-> | ->]; repeat case_decide; lia.
    + lia.
    + destruct (winning_move (set_cell b r col AI_PIECE) PLAYER_PIECE) eqn:E.
      * apply winning_move_unset in E; [congruence|done..].
      * done.
Qed.

Lemma clicks_spec t0 rb : ∀ clicks g s (b : Board),
  t0 = PLAYER ∨ t0 = AI →
  game_board g = rb → boards s !! rb = Some b → game_inv t0 g b →
  (game_over g = true → turn g = AI) →
  (∀ posx, posx ∈ clicks → posx < COLUMN_COUNT * SQUARESIZE) →
  ∃ g' s' b',
    for_each clicks (λ g posx, player_click posx g) g s = Ok g' s' ∧
    game_board g' = rb ∧ boards s' !! rb = Some b' ∧ game_inv t0 g' b' ∧
    (game_over g' = true → turn g' = AI).
Proof.
  induction clicks as [|posx clicks IH]; intros g s b Ht0 Hrb Hb Hinv Hover Hwin.
  { by exists g, s, b. }
  cbn [for_each].
  assert (posx < COLUMN_COUNT * SQUARESIZE) as Hposx by (apply Hwin; by left).
  assert (∀ x, x ∈ clicks → x < COLUMN_COUNT * SQUARESIZE) as Hwin'
    by (intros x Hx; apply Hwin; by right).
  destruct (decide (turn g = PLAYER)) as [Hturn | Hturn].
  - assert (game_over g = false) as Hnot.
    { destruct (game_over g); [|done]. by rewrite Hover in Hturn. }
    rewrite <- Hrb in Hb.
    destruct (player_click_spec posx g s b Hb (proj1 Hinv) Hturn Hposx)
      as [Hfull Hdrop].
    destruct (is_valid_location b (posx / SQUARESIZE)) eqn:Hv.
    + destruct (Hdrop eq_refl) as (r & Hrow & Hr & Hz & Hrun).
      mrun Hrun. rewrite Hnot.
      replace (if winning_move (set_cell b r (posx / SQUARESIZE) PLAYER_PIECE)
                               PLAYER_PIECE then true else false)
        with (winning_move (set_cell b r (posx / SQUARESIZE) PLAYER_PIECE) PLAYER_PIECE)
        by (by destruct (winning_move _ _)).
      apply click_column in Hposx.
      pose proof (game_inv_move t0 g b r (posx / SQUARESIZE) PLAYER PLAYER_PIECE
                    (mcts_stats g) Hinv Ht0 Hnot Hrow Hposx
                    (or_introl (conj eq_refl eq_refl)) Hturn) as Hinv'.
      eapply IH; [done|done| |exact Hinv'| |done].
      * sstate. rewrite Hrb. apply list_lookup_insert_eq.
        rewrite <- Hrb. by eapply lookup_lt_Some.
      * by intros _.
    + mrun (Hfull eq_refl). rewrite Hrb in Hb. by eapply IH.
  - assert (player_click posx g s = Ok g s) as Hrun.
    { unfold player_click. by destruct (Nat.eqb_spec (turn g) PLAYER). }
    mrun Hrun. by eapply IH.
Qed.

Section Game.
Context `{Scoring}.

Lemma loop_pass_spec t0 rb fuel clicks g s (b : Board) :
  t0 = PLAYER ∨ t0 = AI → 800 < fuel →
  game_board g = rb → boards s !! rb = Some b → game_inv t0 g b →
  game_over g = false →
  (∀ posx, posx ∈ clicks → posx < COLUMN_COUNT * SQUARESIZE) →
  loop_pass fuel clicks g s = Raise IndexError ∨
  ∃ g' s' b',
    loop_pass fuel clicks g s = Ok g' s' ∧
    game_board g' = rb ∧ boards s' !! rb = Some b' ∧ game_inv t0 g' b'.
Proof.
  intros Ht0 Hfuel Hrb Hb Hinv Hnot Hwin.
  destruct (clicks_spec t0 rb clicks g s b Ht0 Hrb Hb Hinv) as
    (g1 & s1 & b1 & Hrun & Hrb1 & Hb1 & Hinv1 & Hover1); [by rewrite Hnot|done|].
  unfold loop_pass. mrun Hrun.
  destruct (decide (turn g1 = AI ∧ game_over g1 = false)) as [[Hturn Hnot1] | Hskip].
  - rewrite <- Hrb1 in Hb1.
    destruct (decide (get_valid_locations b1 = [])) as [Hnone | Hlegal].
    + left. unfold ai_turn. rewrite Hturn, Hnot1.
      cbn [Nat.eqb AI negb andb]. cbv zeta. unfold bind.
      rewrite (MCTS_Search_no_column fuel (game_board g1) 800 s1 b1);
        try done; [apply Hinv1|unfold ROW_COUNT, COLUMN_COUNT; lia].
    + right.
      destruct (ai_turn_spec fuel g1 s1 b1 Hb1 (proj1 Hinv1) Hturn Hnot1 Hlegal Hfuel)
        as (col & r & stats & s2 & Hcol & Hrow & Hr & Hc & Hz & Hpre & _ & Hai).
      pose proof (game_inv_move t0 g1 b1 r col AI AI_PIECE stats
                    Hinv1 Ht0 Hnot1 Hrow Hc
                    (or_intror (conj eq_refl eq_refl)) Hturn) as Hinv'.
      eexists _, _, _. split; [exact Hai|]. split; [done|]. split; [|exact Hinv'].
      sstate. rewrite <- Hrb1. apply list_lookup_insert_eq.
      eapply lookup_lt_Some, prefix_lookup_Some; [exact Hb1|exact Hpre].
  - right. exists g1, s1, b1. split; [|done].
    unfold ai_turn.
    destruct (Nat.eqb_spec (turn g1) AI) as [Hturn | Hturn]; [|done].
    destruct (game_over g1) eqn:E; [done|]. by destruct Hskip.
Qed.

Lemma game_loop_spec t0 rb fuel : ∀ passes g s (b : Board),
  t0 = PLAYER ∨ t0 = AI → 800 < fuel →
  game_board g = rb → boards s !! rb = Some b → game_inv t0 g b →
  (∀ clicks posx, clicks ∈ passes → posx ∈ clicks →
                  posx < COLUMN_COUNT * SQUARESIZE) →
  game_loop fuel passes g s = Raise IndexError ∨
  ∃ g' s' b',
    game_loop fuel passes g s = Ok g' s' ∧
    game_board g' = rb ∧ boards s' !! rb = Some b' ∧ game_inv t0 g' b'.
Proof.
  induction passes as [|clicks passes IH]; intros g s b Ht0 Hfuel Hrb Hb Hinv Hwin.
  { right. by exists g, s, b. }
  cbn [game_loop]. destruct (game_over g) eqn:Hover.
  { right. by exists g, s, b. }
  destruct (loop_pass_spec t0 rb fuel clicks g s b Ht0 Hfuel Hrb Hb Hinv Hover)
    as [Hraise | (g1 & s1 & b1 & Hrun & Hrb1 & Hb1 & Hinv1)].
  { intros posx Hposx. apply (Hwin clicks); [by left|done]. }
  - left. unfold bind. by rewrite Hraise.
  - mrun Hrun. eapply IH; try done.
    intros cl posx Hcl. apply Hwin. by right.
Qed.


End Game.

(** * Concrete runs of the further properties *)

Lemma gravity_packed_check (b : Board) :
  forallb (λ c, forallb (λ r, forallb (λ r',
             implb ((r <? r') && (cell b r c =? 0)%Z) (cell b r' c =? 0)%Z)
             (seq 0 ROW_COUNT)) (seq 0 ROW_COUNT)) (seq 0 COLUMN_COUNT) = true →
  gravity_packed b.
Proof.
  intros Hall c r r' Hc Hlt Hr' Hz.
  rewrite forallb_forall in Hall.
  specialize (Hall c ltac:(apply in_seq; lia)).
  rewrite forallb_forall in Hall.
  specialize (Hall r ltac:(apply in_seq; lia)).
  rewrite forallb_forall in Hall.
  specialize (Hall r' ltac:(apply in_seq; lia)).
  rewrite (proj2 (Nat.ltb_lt r r') Hlt), Hz in Hall. cbn in Hall.
  by apply Z.eqb_eq.
Qed.

Lemma get_next_open_row_lowest_witness :
  (∀ r, get_next_open_row horizontal_three 3 = Some r ↔
        r < ROW_COUNT ∧ cell horizontal_three r 3 = 0%Z ∧ ∀ k, k < r → cell
            horizontal_three k 3 ≠ 0%Z) ∧
  (get_next_open_row horizontal_three 3 = None ↔ ∀ r, r < ROW_COUNT → cell
      horizontal_three r 3 ≠ 0%Z).
Proof.
  apply (get_next_open_row_lowest horizontal_three 3).
  - apply wf_board_of_rows_check. reflexivity.
  - vm_compute. lia.
Defined.

Lemma valid_location_iff_open_row_witness :
  (is_valid_location horizontal_three 0 = true ↔ is_Some (get_next_open_row
      horizontal_three 0)) ∧
  (∀ r, get_next_open_row horizontal_three 0 = Some r → column_height horizontal_three
      0 = r) ∧
  (get_next_open_row horizontal_three 0 = None → column_height horizontal_three 0 =
      ROW_COUNT).
Proof.
  apply (valid_location_iff_open_row horizontal_three 0).
  - apply wf_board_of_rows_check. reflexivity.
  - apply gravity_packed_check. reflexivity.
  - vm_compute. lia.
Defined.


Lemma terminal_stays_terminal_witness :
  (∀ piece, piece ≠ 0%Z → winning_move horizontal_four piece = true →
            winning_move (set_cell horizontal_four 0 4 AI_PIECE) piece = true) ∧
  (is_terminal_node horizontal_four = true → is_terminal_node (set_cell horizontal_four
      0 4 AI_PIECE) = true).
Proof.
  apply (terminal_stays_terminal horizontal_four 0 4 AI_PIECE).
  - apply wf_board_of_rows_check. reflexivity.
  - vm_compute. lia.
  - vm_compute. lia.
  - reflexivity.
  - discriminate.
Defined.

Lemma no_valid_location_iff_full_witness :
  (get_valid_locations full_board = [] ↔ board_full full_board) ∧
  (board_full full_board ↔ count_pieces full_board = ROW_COUNT * COLUMN_COUNT) ∧
  (is_terminal_node full_board = true ↔
   has_four full_board PLAYER_PIECE ∨ has_four full_board AI_PIECE ∨ board_full
       full_board).
Proof.
  apply (no_valid_location_iff_full full_board).
  - apply wf_board_of_rows_check. reflexivity.
  - apply gravity_packed_check. reflexivity.
Defined.

Lemma evaluate_window_values_witness :
  evaluate_window [2; 2; 0; 2]%Z PLAYER_PIECE ∈ [100; 5; 2; 0; -4]%Z ∧
  (evaluate_window [2; 2; 0; 2]%Z PLAYER_PIECE = 100%Z ↔ Forall (λ x, x = PLAYER_PIECE)
      [2; 2; 0; 2]%Z) ∧
  (evaluate_window [2; 2; 0; 2]%Z PLAYER_PIECE = (-4)%Z ↔
     py_count (opponent_of PLAYER_PIECE) [2; 2; 0; 2]%Z = 3 ∧ py_count EMPTY [2; 2; 0;
         2]%Z = 1).
Proof.
  apply (evaluate_window_values [2; 2; 0; 2]%Z PLAYER_PIECE).
  - reflexivity.
Defined.

Lemma score_position_bounds_witness :
  (-276 ≤ score_position horizontal_three AI_PIECE ≤ 6918)%Z ∧
  (-10000 < score_position horizontal_three AI_PIECE)%Z.
Proof.
  apply (score_position_bounds horizontal_three AI_PIECE).
  - apply wf_board_of_rows_check. reflexivity.
Defined.


Lemma rollout_sound_witness :
  ∃ w bf d',
    simulate_random_playout 50 0 (Some AI_PIECE) (store_with horizontal_three)
      = Ok w (mkState (boards (store_with horizontal_three) ++ [bf]) (nodes (store_with
          horizontal_three)) (tape (store_with horizontal_three)) d') ∧
    wf_board bf ∧ is_terminal_node bf = true ∧
    w = (if winning_move bf PLAYER_PIECE then Some PLAYER_PIECE
         else if winning_move bf AI_PIECE then Some AI_PIECE else None) ∧
    drawn (store_with horizontal_three) ≤ d' ∧
    count_pieces bf = count_pieces horizontal_three + (d' - drawn (store_with
        horizontal_three)) ∧
    pieces_of AI_PIECE bf = pieces_of AI_PIECE horizontal_three + (d' - drawn
        (store_with horizontal_three) + 1) / 2 ∧
    pieces_of (other_piece AI_PIECE) bf
      = pieces_of (other_piece AI_PIECE) horizontal_three + (d' - drawn (store_with
          horizontal_three)) / 2 ∧
    (∀ r c, cell horizontal_three r c ≠ 0%Z → cell bf r c = cell horizontal_three r c) ∧
    (is_terminal_node horizontal_three = true → bf = horizontal_three ∧ d' = drawn
        (store_with horizontal_three)).
Proof.
  apply (rollout_sound 50 0 (Some AI_PIECE) (store_with horizontal_three)
      horizontal_three).
  - reflexivity.
  - apply wf_board_of_rows_check. reflexivity.
  - vm_compute. lia.
  - intros p [= <-]. right. reflexivity.
Defined.

Lemma player_click_effect_witness :
  (turn (opening PLAYER) ≠ PLAYER → player_click 350 (opening PLAYER) (store_with
      create_board) = Ok (opening PLAYER) (store_with create_board)) ∧
  (turn (opening PLAYER) = PLAYER → COLUMN_COUNT * SQUARESIZE ≤ 350 →
   player_click 350 (opening PLAYER) (store_with create_board) = Raise IndexError) ∧
  (turn (opening PLAYER) = PLAYER → 350 < COLUMN_COUNT * SQUARESIZE →
   is_valid_location create_board (350 / SQUARESIZE) = false → player_click 350
       (opening PLAYER) (store_with create_board) = Ok (opening PLAYER) (store_with
       create_board)) ∧
  (turn (opening PLAYER) = PLAYER → 350 < COLUMN_COUNT * SQUARESIZE →
   is_valid_location create_board (350 / SQUARESIZE) = true →
   ∃ r b',
     b' = set_cell create_board r (350 / SQUARESIZE) PLAYER_PIECE ∧
     player_click 350 (opening PLAYER) (store_with create_board)
     = Ok (mkGame (game_board (opening PLAYER)) AI (winning_move b' PLAYER_PIECE ||
         game_over (opening PLAYER))
                  (mcts_stats (opening PLAYER)))
          (set_boards (λ bs, <[game_board (opening PLAYER) := b']> bs) (store_with
              create_board)) ∧
     r = column_height create_board (350 / SQUARESIZE) ∧ r < ROW_COUNT ∧ cell
         create_board r (350 / SQUARESIZE) = 0%Z ∧
     wf_board b' ∧ gravity_packed b' ∧
     count_pieces b' = S (count_pieces create_board)).
Proof.
  apply (player_click_effect 350 (opening PLAYER) (store_with create_board) create_board).
  - reflexivity.
  - apply wf_board_of_rows_check. reflexivity.
  - apply gravity_packed_check. reflexivity.
Defined.

Section FurtherWitnesses.
Existing Instance rational_scoring.

Lemma search_tree_well_formed_witness :
  ∃ s,
    MCTS_tree 50 0 3 (store_with create_board) = Ok (length (nodes (store_with
        create_board))) s ∧
    length (nodes (store_with create_board)) < length (nodes s) ≤ length (nodes
        (store_with create_board)) + 3 + 1 ∧
    length (boards s)
    = length (boards (store_with create_board)) + (length (nodes s) - length (nodes
        (store_with create_board))) + 3 ∧
    ∀ i n, length (nodes (store_with create_board)) ≤ i → nodes s !! i = Some n →
      wins n ≤ visits n ∧ visits n ≤ 3 ∧
      (∃ b, boards s !! board n = Some b ∧ wf_board b ∧
            length (boards (store_with create_board)) ≤ board n ∧
            untried_moves n ++ (children n).*1 ≡ₚ get_valid_locations b) ∧
      NoDup (untried_moves n ++ (children n).*1) ∧
      (∀ m j, (m, j) ∈ children n →
         i < j ∧ ∃ c, nodes s !! j = Some c ∧ parent c = Some i ∧
                      move c = Some m ∧ 1 ≤ visits c ≤ visits n).
Proof.
  apply (search_tree_well_formed 50 0 3 (store_with create_board) create_board).
  - reflexivity.
  - apply wf_board_of_rows_check. reflexivity.
  - vm_compute. lia.
  - lia.
Defined.

Lemma tree_positions_witness :
  ∃ s root,
    MCTS_tree 50 0 3 (store_with create_board) = Ok (length (nodes (store_with
        create_board))) s ∧
    nodes s !! length (nodes (store_with create_board)) = Some root ∧
    boards s !! board root = Some create_board ∧
    parent root = None ∧ player root = None ∧
    ∀ j c, length (nodes (store_with create_board)) < j → nodes s !! j = Some c →
      ∃ p pn m b r,
        parent c = Some p ∧ length (nodes (store_with create_board)) ≤ p < j ∧
        nodes s !! p = Some pn ∧ (m, j) ∈ children pn ∧ move c = Some m ∧
        boards s !! board pn = Some b ∧ m ∈ get_valid_locations b ∧
        get_next_open_row b m = Some r ∧
        boards s !! board c = Some (set_cell b r m (piece_to_move b)) ∧
        player c = Some (piece_to_move b) ∧
        (∀ q, player pn = Some q → player c = Some (other_piece q)).
Proof.
  apply (tree_positions 50 0 3 (store_with create_board) create_board).
  - reflexivity.
  - apply wf_board_of_rows_check. reflexivity.
  - vm_compute. lia.
  - lia.
Defined.

Lemma search_statistics_witness :
  ∃ col stats s',
    MCTS_Search 50 0 3 (store_with horizontal_three) = Ok (Some col, stats) s' ∧
    NoDup stats.*1 ∧
    (∀ m, m ∈ stats.*1 → m ∈ get_valid_locations horizontal_three) ∧
    (∀ m st, (m, st) ∈ stats → 1 ≤ stat_visits st ≤ 3) ∧
    (stats = [] ↔ 3 = 0 ∨ is_terminal_node horizontal_three = true) ∧
    (stats ≠ [] →
       col ∈ stats.*1 ∧ sum_list ((λ e, stat_visits e.2) <$> stats) = 3 ∧
       length stats ≤ 3).
Proof.
  apply (search_statistics 50 0 3 (store_with horizontal_three) horizontal_three).
  - reflexivity.
  - apply wf_board_of_rows_check. reflexivity.
  - vm_compute. discriminate.
  - vm_compute. lia.
  - lia.
Defined.

Lemma node_methods_raise_witness :
  (children leaf = [] →
     best_uct_child 1 two_nodes = Raise ValueError ∧
     best_child_by_visits 1 two_nodes = Raise ValueError) ∧
  (untried_moves leaf = [] → expand 1 two_nodes = Raise IndexError) ∧
  (visits leaf = 0 →
   (∀ m j, (m, j) ∈ children leaf → is_Some (nodes two_nodes !! j)) →
   (∃ m j c, (m, j) ∈ children leaf ∧ nodes two_nodes !! j = Some c ∧ visits c ≠ 0) →
   best_uct_child 1 two_nodes = Raise ValueError).
Proof.
  apply (node_methods_raise 1 leaf two_nodes).
  - reflexivity.
Defined.

Lemma ai_turn_effect_witness :
  (get_valid_locations create_board = [] → ai_turn 801 (opening AI) (store_with
      create_board) = Raise IndexError) ∧
  (get_valid_locations create_board ≠ [] →
   ∃ col r b' stats s1 s',
     MCTS_Search 801 (game_board (opening AI)) 800 (store_with create_board) = Ok (Some
         col, stats) s1 ∧
     ai_turn 801 (opening AI) (store_with create_board)
     = Ok (mkGame (game_board (opening AI)) PLAYER (winning_move b' AI_PIECE) stats) s' ∧
     col ∈ get_valid_locations create_board ∧ r = column_height create_board col ∧
     cell create_board r col = 0%Z ∧ b' = set_cell create_board r col AI_PIECE ∧
     boards s' !! game_board (opening AI) = Some b' ∧
     (∀ a x, a ≠ game_board (opening AI) → boards (store_with create_board) !! a = Some
         x → boards s' !! a = Some x) ∧
     wf_board b' ∧ gravity_packed b' ∧ count_pieces b' = S (count_pieces create_board)).
Proof.
  apply (ai_turn_effect 801 (opening AI) (store_with create_board) create_board).
  - reflexivity.
  - apply wf_board_of_rows_check. reflexivity.
  - apply gravity_packed_check. reflexivity.
  - reflexivity.
  - reflexivity.
  - lia.
Defined.


End FurtherWitnesses.
